(** * EventScheduler: a shallow embedding of [src/eventhandler.ts]

    The scheduler of the repository is a TypeScript class holding two
    [Map]s and a status flag.  Its methods mutate [Event] objects that are
    shared between the event table, the closures of pending timers and the
    suspended activations of [runEvent]; the embedding therefore keeps an
    explicit store of objects, the host's table of pending timers and the
    list of suspended activations next to the three fields of the class.

    - A method is a function on states; one that may throw returns a
      completion with the state it leaves behind.
    - [runEvent] is the only method that suspends with the state changed:
      it is split at its [await] into [runEvent] and [runEvent_resumed].
      What a handler does to the scheduler in between, it does by calling
      methods: these calls are steps of a run like the client's.
    - [Date.now()] is an argument of the methods that read it; times are
      integers of milliseconds.
    - The event table is an association list in insertion order, which
      [resumeAll] and [saveEvents] depend on; the handler registry, which
      is never iterated, is a [gmap]. *)

From stdpp Require Import gmap strings list pretty.
From Stdlib Require Import ZArith Ascii.

Local Open Scope Z_scope.
Set Warnings "-register-all,-clear-no-such-hyp".

(** ** JSON values

    [params] is [any] in the source; the scheduler only stores it, hands it
    to the handler and serialises it, so it is modelled as a JSON value.
    Numbers are the integers: every time the scheduler computes is a
    difference of [Date.now()] readings and caller-supplied delays. *)

Inductive json : Type :=
| JNull
| JBool (b : bool)
| JNum (n : Z)
| JStr (s : string)
| JArr (items : list json)
| JObj (members : list (string * json)).

(** The platform's [JSON.parse] and [JSON.stringify].  They are not code of
    the repository: the development is parametric in them. *)
Class JSONCodec := {
  JSON_parse : string → option json;
  JSON_stringify : json → string
}.

(** ** Insertion-ordered maps

    A JS [Map] iterates in insertion order; [set] on a present key keeps
    its position, [delete] followed by [set] moves the key to the end. *)
Section OrderedMap.
Context {V : Type}.

Fixpoint Map_get (k : string) (m : list (string * V)) : option V :=
  match m with
  | [] => None
  | (k', v) :: m' => if decide (k' = k) then Some v else Map_get k m'
  end.

Definition Map_has (k : string) (m : list (string * V)) : bool :=
  match Map_get k m with Some _ => true | None => false end.

Fixpoint Map_delete (k : string) (m : list (string * V)) : list (string * V) :=
  match m with
  | [] => []
  | (k', v) :: m' =>
      if decide (k' = k) then Map_delete k m' else (k', v) :: Map_delete k m'
  end.

Fixpoint Map_set (k : string) (v : V) (m : list (string * V)) : list (string * V) :=
  match m with
  | [] => [(k, v)]
  | (k', v') :: m' =>
      if decide (k' = k) then (k, v) :: m' else (k', v') :: Map_set k v m'
  end.

Definition Map_keys (m : list (string * V)) : list string := m.*1.
Definition Map_values (m : list (string * V)) : list V := m.*2.
End OrderedMap.

(** ** Events *)

Inductive EventStatus : Type := scheduled | running | done | paused | resuming.

Global Instance EventStatus_eq_dec : EqDecision EventStatus.
Proof. solve_decision. Defined.

(** A [NodeJS.Timeout] handle, an object reference, a registered handler. *)
Abbreviation Timeout := nat (only parsing).
Abbreviation loc := nat (only parsing).
Abbreviation EventHandler := nat (only parsing).

Module Event.
Record t : Type := mk {
  id : string;
  lookupName : string;
  params : json;
  status : EventStatus;
  addedAtTime : Z;
  remainingTime : Z;
  duration : Z;
  autoRepeat : bool;
  jobId : option Timeout
}.

Definition set_status (v : EventStatus) (e : t) : t :=
  mk (id e) (lookupName e) (params e) v (addedAtTime e) (remainingTime e)
     (duration e) (autoRepeat e) (jobId e).
Definition set_addedAtTime (v : Z) (e : t) : t :=
  mk (id e) (lookupName e) (params e) (status e) v (remainingTime e)
     (duration e) (autoRepeat e) (jobId e).
Definition set_remainingTime (v : Z) (e : t) : t :=
  mk (id e) (lookupName e) (params e) (status e) (addedAtTime e) v
     (duration e) (autoRepeat e) (jobId e).
Definition set_jobId (v : option Timeout) (e : t) : t :=
  mk (id e) (lookupName e) (params e) (status e) (addedAtTime e)
     (remainingTime e) (duration e) (autoRepeat e) v.
End Event.

(** ** The scheduler and its host *)

(** A pending timer of the host: [setTimeout(() => runEvent(event), delay)]
    captures the object [event]. *)
Record Timer : Type := mkTimer {
  handle : Timeout;
  target : loc;
  delay : Z
}.

Record State : Type := mkState {
  (* the three fields of the class *)
  eventMap : list (string * loc);
  callbackMap : gmap string EventHandler;
  status : EventStatus;
  (* the host: object store, pending timers, handle supply, activations of
     [runEvent] suspended at [await callback.execute(...)] *)
  heap : list Event.t;
  timers : list Timer;
  nextTimeout : Timeout;
  awaiting : list loc
}.

Definition set_eventMap (v : list (string * loc)) (s : State) : State :=
  mkState v (callbackMap s) (status s) (heap s) (timers s) (nextTimeout s) (awaiting s).
Definition set_callbackMap (v : gmap string EventHandler) (s : State) : State :=
  mkState (eventMap s) v (status s) (heap s) (timers s) (nextTimeout s) (awaiting s).
Definition set_status (v : EventStatus) (s : State) : State :=
  mkState (eventMap s) (callbackMap s) v (heap s) (timers s) (nextTimeout s) (awaiting s).
Definition set_heap (v : list Event.t) (s : State) : State :=
  mkState (eventMap s) (callbackMap s) (status s) v (timers s) (nextTimeout s) (awaiting s).
Definition set_timers (v : list Timer) (s : State) : State :=
  mkState (eventMap s) (callbackMap s) (status s) (heap s) v (nextTimeout s) (awaiting s).
Definition set_nextTimeout (v : Timeout) (s : State) : State :=
  mkState (eventMap s) (callbackMap s) (status s) (heap s) (timers s) v (awaiting s).
Definition set_awaiting (v : list loc) (s : State) : State :=
  mkState (eventMap s) (callbackMap s) (status s) (heap s) (timers s) (nextTimeout s) v.

(** [new EventScheduler()]: the constructor starts paused. *)
Definition constructor : State :=
  mkState [] ∅ paused [] [] 0%nat [].

(** Thrown values. *)
Inductive JsError : Type :=
| Error (message : string)
| SyntaxError
| TypeError.

(** The completion of a call that may throw.  A throw does not roll the
    state back: what was mutated before it stays.  [Untyped] marks the one
    place where the source goes on with a value that is not of its declared
    type, and where the embedding stops (see [asEvent]). *)
Inductive completion (A : Type) : Type :=
| Normal (a : A)
| Throw (e : JsError)
| Untyped.
Arguments Normal {A} a.
Arguments Throw {A} e.
Arguments Untyped {A}.

(** *** Host primitives *)

Definition deref (l : loc) (s : State) : option Event.t := heap s !! l.

Definition update (l : loc) (f : Event.t → Event.t) (s : State) : State :=
  set_heap (alter f l (heap s)) s.

Definition alloc (e : Event.t) (s : State) : loc * State :=
  (length (heap s), set_heap (heap s ++ [e]) s).

Definition setTimeout (l : loc) (d : Z) (s : State) : Timeout * State :=
  (nextTimeout s,
   set_nextTimeout (S (nextTimeout s))
     (set_timers (timers s ++ [mkTimer (nextTimeout s) l d]) s)).

Definition clearTimeout (h : Timeout) (s : State) : State :=
  set_timers (filter (λ t, handle t ≠ h) (timers s)) s.

(** [this.eventMap.get(id)]: the object stored under [id]. *)
Definition getEvent (i : string) (s : State) : option (loc * Event.t) :=
  match Map_get i (eventMap s) with
  | Some l => match deref l s with Some e => Some (l, e) | None => None end
  | None => None
  end.

(** *** Methods of the class

    Line numbers are those of [src/eventhandler.ts].  [Date.now()] is an
    argument [now] of the methods that read it. *)

(** [registerCallback], lines 36-41. *)
Definition registerCallback (lookupName : string) (callback : EventHandler)
    (s : State) : completion unit * State :=
  match callbackMap s !! lookupName with
  | Some _ =>
      (Throw (Error ("Callback for '" +:+ lookupName +:+ "' already registered.")), s)
  | None => (Normal (), set_callbackMap (<[lookupName := callback]> (callbackMap s)) s)
  end.

(** [getAllEvents], lines 43-45. *)
Definition getAllEvents (s : State) : list (string * loc) := eventMap s.

(** [removeEvent], lines 81-92.  The object keeps the handle that is
    cleared: only the host forgets the timer. *)
Definition removeEvent (i : string) (s : State) : State :=
  match getEvent i s with
  | None => s
  | Some (_, event) =>
      let s1 := match Event.jobId event with
                | Some h => clearTimeout h s
                | None => s
                end in
      set_eventMap (Map_delete i (eventMap s1)) s1
  end.

(** [pauseEvent], lines 97-107. *)
Definition pauseEvent (i : string) (now : Z) (s : State) : State :=
  match getEvent i s with
  | None => s
  | Some (l, event) =>
      if decide (Event.status event ≠ scheduled) then s
      else match Event.jobId event with
           | Some h =>
               update l
                 (λ e, Event.set_jobId None
                         (Event.set_status paused
                            (Event.set_remainingTime
                               (Event.remainingTime e - (now - Event.addedAtTime e)) e)))
                 (clearTimeout h s)
           | None => s
           end
  end.

(** [scheduleEvent(event, delay?)], lines 166-188; [event] is the object at
    [l], and [delay ?? event.remainingTime] takes [delay] unless it is
    absent. *)
Definition scheduleEvent (l : loc) (delay : option Z) (s : State) : State :=
  match deref l s with
  | None => s
  | Some event =>
      let i := Event.id event in
      let s1 := if Map_has i (eventMap s) then removeEvent i s else s in
      let s2 := if decide (Event.remainingTime event ≤ 0)
                then update l (λ e, Event.set_remainingTime (Event.duration e) e) s1
                else s1 in
      let remaining := if decide (Event.remainingTime event ≤ 0)
                       then Event.duration event else Event.remainingTime event in
      let timeToRun := match delay with Some d => d | None => remaining end in
      let s3 := if decide (status s2 = paused)
                then update l (Event.set_status paused) s2
                else
                  let s' := update l (Event.set_status scheduled) s2 in
                  let '(jobId, s'') := setTimeout l timeToRun s' in
                  update l (Event.set_jobId (Some jobId)) s'' in
      set_eventMap (Map_set i l (eventMap s3)) s3
  end.

(** [addEvent], lines 49-70; the default [id = nanoid()] is evaluated by
    the caller. *)
Definition addEvent (i : string) (lookupName : string) (params : json)
    (duration : Z) (autoRepeat : bool) (now : Z) (s : State)
    : completion string * State :=
  match callbackMap s !! lookupName with
  | None => (Throw (Error ("No callback registered for '" +:+ lookupName +:+ "'.")), s)
  | Some _ =>
      let event :=
        Event.mk i lookupName params
          (if decide (status s = paused) then paused else scheduled)
          now duration duration autoRepeat None in
      let '(l, s1) := alloc event s in
      (Normal i, scheduleEvent l None s1)
  end.

(** [eventIsScheduled], lines 72-77. *)
Definition eventIsScheduled (i : string) (s : State) : bool :=
  match getEvent i s with
  | Some (_, event) =>
      bool_decide (Event.status event = scheduled ∨ Event.status event = running
                   ∨ Event.status event = paused)
  | None => false
  end.

(** [resumeEvent], lines 112-120: the delay handed to [scheduleEvent] is
    the [remainingTime] read before the call. *)
Definition resumeEvent (i : string) (now : Z) (s : State) : State :=
  match getEvent i s with
  | None => s
  | Some (l, event) =>
      if decide (Event.status event ≠ paused) then s
      else
        let s1 := update l (λ e, Event.set_addedAtTime now (Event.set_status scheduled e)) s in
        scheduleEvent l (Some (Event.remainingTime event)) s1
  end.

(** A loop whose body reads the clock: the [k]-th pass reads [clock k]. *)
Fixpoint forEachAt {A : Type} (body : nat → A → State → State) (k : nat)
    (xs : list A) (s : State) : State :=
  match xs with
  | [] => s
  | x :: xs' => forEachAt body (S k) xs' (body k x s)
  end.

(** [pauseAll], lines 125-131: the loop; the call then waits in
    [waitForIdle]. *)
Definition pauseAll (clock : nat → Z) (s : State) : State :=
  forEachAt (λ k i, pauseEvent i (clock k)) 0 (Map_keys (eventMap s)) s.

(** The condition polled by [waitForIdle], lines 132-137: some event of
    the table is running. *)
Definition someRunning (s : State) : bool :=
  existsb (λ l, match deref l s with
                | Some e => bool_decide (Event.status e = running)
                | None => false
                end) (Map_values (eventMap s)).

(** [removeAllByType], lines 139-149. *)
Definition removeAllByType (type : string) (s : State) : State :=
  let lst := List.filter (λ i, match getEvent i s with
                               | Some (_, e) => bool_decide (Event.lookupName e = type)
                               | None => false
                               end) (Map_keys (eventMap s)) in
  foldl (λ s' i, removeEvent i s') s lst.

(** [resumeAll], lines 153-161, up to its first [await].  The status is
    set, the keys are copied, and the first pass of the loop calls
    [resumeEvent] for the first key; all that [resumeEvent] does, it does
    before its own [await].  The method is then suspended at
    [await this.resumeEvent(id)] with the keys that remain ([Some]); with
    no key it returns ([None]). *)
Definition resumeAll (now : Z) (s : State) : State * option (list string) :=
  let s1 := set_status running s in
  match Map_keys (eventMap s1) with
  | [] => (s1, None)
  | i :: eventKeys => (resumeEvent i now s1, Some eventKeys)
  end.

(** [resumeAll] after an [await]: the next pass of the loop, on the
    scheduler as it is by then, or the end of the loop.  Whatever was
    called or completed while the method was suspended has taken effect. *)
Definition resumeAll_resumed (eventKeys : list string) (now : Z) (s : State)
    : State * option (list string) :=
  match eventKeys with
  | [] => (s, None)
  | i :: eventKeys' => (resumeEvent i now s, Some eventKeys')
  end.

(** [runEvent], lines 203-213, up to its [await]: the handler is looked
    up, the object is marked running and the activation is suspended on the
    handler. *)
Definition runEvent (l : loc) (s : State) : completion unit * State :=
  match deref l s with
  | None => (Normal (), s)
  | Some event =>
      match callbackMap s !! Event.lookupName event with
      | None =>
          (Throw (Error ("Callback for '" +:+ Event.lookupName event +:+ "' not found.")), s)
      | Some _ =>
          (Normal (), set_awaiting (awaiting s ++ [l]) (update l (Event.set_status running) s))
      end
  end.

(** Removes the first occurrence of an activation. *)
Fixpoint dropFirst (l : loc) (ls : list loc) : list loc :=
  match ls with
  | [] => []
  | l' :: ls' => if decide (l' = l) then ls' else l' :: dropFirst l ls'
  end.

(** [runEvent], lines 215-222, after its [await]: the handler of the
    object at [l] has completed. *)
Definition runEvent_resumed (l : loc) (now : Z) (s : State) : completion unit * State :=
  let s1 := set_awaiting (dropFirst l (awaiting s)) s in
  let s2 := update l (λ e, Event.set_jobId None (Event.set_status done e)) s1 in
  match deref l s2 with
  | None => (Normal (), s2)
  | Some event =>
      if Event.autoRepeat event then
        match addEvent (Event.id event) (Event.lookupName event) (Event.params event)
                (Event.duration event) true now s2 with
        | (Normal _, s3) => (Normal (), s3)
        | (Throw e, s3) => (Throw e, s3)
        | (Untyped, s3) => (Untyped, s3)
        end
      else (Normal (), removeEvent (Event.id event) s2)
  end.

(** The handler rejects: [runEvent] is abandoned at its [await]. *)
Definition runEvent_rejected (l : loc) (s : State) : State :=
  set_awaiting (dropFirst l (awaiting s)) s.

(** [executeImmediately], lines 190-199. *)
Definition executeImmediately (i : string) (s : State) : completion unit * State :=
  match getEvent i s with
  | None => (Normal (), s)
  | Some (l, event) =>
      if decide (Event.status event ≠ scheduled) then (Normal (), s)
      else
        let s1 := match Event.jobId event with
                  | Some h => update l (Event.set_jobId None) (clearTimeout h s)
                  | None => s
                  end in
        runEvent l s1
  end.

(** The host runs the callback of the pending timer [h], lines 180-182;
    the timer is no longer pending. *)
Definition timerFires (h : Timeout) (s : State) : completion unit * State :=
  match List.find (λ t, bool_decide (handle t = h)) (timers s) with
  | None => (Normal (), s)
  | Some t => runEvent (target t) (clearTimeout h s)
  end.

(** ** Serialisation *)

Definition statusName (st : EventStatus) : string :=
  match st with
  | scheduled => "scheduled"
  | running => "running"
  | done => "done"
  | paused => "paused"
  | resuming => "resuming"
  end.

Definition statusOfName (n : string) : option EventStatus :=
  List.find (λ st, bool_decide (statusName st = n))
    [scheduled; running; done; paused; resuming].

(** The members of a persisted record, in the order in which [addEvent]
    creates them; [jobId] is left out by [saveEvents]. *)
Definition memberNames : list string :=
  ["id"; "lookupName"; "params"; "status"; "addedAtTime"; "remainingTime";
   "duration"; "autoRepeat"].

(** [const { jobId, ...rest } = event; return rest]. *)
Definition rest (e : Event.t) : json :=
  JObj [("id", JStr (Event.id e));
        ("lookupName", JStr (Event.lookupName e));
        ("params", Event.params e);
        ("status", JStr (statusName (Event.status e)));
        ("addedAtTime", JNum (Event.addedAtTime e));
        ("remainingTime", JNum (Event.remainingTime e));
        ("duration", JNum (Event.duration e));
        ("autoRepeat", JBool (Event.autoRepeat e))].

(** The array that [saveEvents] hands to [JSON.stringify]. *)
Definition serializedEvents (s : State) : json :=
  JArr (omap (λ l, rest <$> deref l s) (Map_values (eventMap s))).

(** A member of a parsed value: only an object has members. *)
Definition member (name : string) (eventData : json) : option json :=
  match eventData with
  | JObj members => Map_get name members
  | _ => None
  end.

Definition asString (v : option json) : option string :=
  match v with Some (JStr x) => Some x | _ => None end.

Definition asNumber (v : option json) : option Z :=
  match v with Some (JNum x) => Some x | _ => None end.

Definition asBoolean (v : option json) : option bool :=
  match v with Some (JBool x) => Some x | _ => None end.

(** [{ ...eventData, jobId: undefined }] read at the declared type
    [Event]: an object with the eight members of [memberNames], in any
    order, each of its declared type; a [jobId] member is overwritten.  The
    members are read by name, as the source reads them: the order in which
    a record lists them is not tracked, and [rest] writes them in the order
    of [addEvent].  A parsed value of another shape (a member missing or
    added, a value of another type) is not an [Event]; the source goes on
    with it and the embedding does not follow it ([Untyped]). *)
Definition asEvent (eventData : json) : option Event.t :=
  match eventData with
  | JObj members =>
      let names := (List.filter (λ m, negb (bool_decide (m.1 = "jobId"))) members).*1 in
      if decide (names ≡ₚ memberNames) then
        i ← asString (member "id" eventData);
        n ← asString (member "lookupName" eventData);
        p ← member "params" eventData;
        st ← asString (member "status" eventData) ≫= statusOfName;
        a ← asNumber (member "addedAtTime" eventData);
        r ← asNumber (member "remainingTime" eventData);
        d ← asNumber (member "duration" eventData);
        b ← asBoolean (member "autoRepeat" eventData);
        Some (Event.mk i n p st a r d b None)
      else None
  | _ => None
  end.

(** [event.status === "scheduled" || event.status === "paused"] on the
    spread of a parsed value: only an object has a [status] member. *)
Definition statusIsLoadable (eventData : json) : bool :=
  match member "status" eventData with
  | Some (JStr st) => bool_decide (st = "scheduled" ∨ st = "paused")
  | _ => false
  end.

(** ["remains " + v], line 239, throws a [TypeError] when [v] has no
    primitive value.  No value parsed from JSON is callable, so an object
    with a member [toString] of its own hides [Object.prototype.toString]
    and cannot be converted; an array is converted by [join], which
    converts its elements. *)
Fixpoint noPrimitive (v : json) : bool :=
  match v with
  | JObj members => Map_has "toString" members
  | JArr items => existsb noPrimitive items
  | _ => false
  end.

(** The body of the [forEach] of [loadEvents], lines 234-241: the log of
    line 239 converts [event.remainingTime] to a string before the event
    is scheduled. *)
Definition loadEvent (eventData : json) (s : State) : completion unit * State :=
  if statusIsLoadable eventData then
    if from_option noPrimitive false (member "remainingTime" eventData)
    then (Throw TypeError, s)
    else
      match asEvent eventData with
      | Some event =>
          let '(l, s1) := alloc event s in
          (Normal (), scheduleEvent l (Some (Event.remainingTime event)) s1)
      | None => (Untyped, s)
      end
  else (Normal (), s).

Fixpoint forEach (body : json → State → completion unit * State)
    (items : list json) (s : State) : completion unit * State :=
  match items with
  | [] => (Normal (), s)
  | x :: items' =>
      match body x s with
      | (Normal _, s') => forEach body items' s'
      | stop => stop
      end
  end.

Section Serialisation.
Context `{JSONCodec}.

(** [saveEvents], lines 224-230. *)
Definition saveEvents (s : State) : string :=
  JSON_stringify (serializedEvents s).

(** [loadEvents], lines 231-245.  [JSON.parse] throws a [SyntaxError] on
    text that is not JSON; [events.forEach] throws a [TypeError] when the
    value is not an array. *)
Definition loadEvents (serializedData : string) (s : State) : completion unit * State :=
  match JSON_parse serializedData with
  | None => (Throw SyntaxError, s)
  | Some (JArr events) => forEach loadEvent events s
  | Some _ => (Throw TypeError, s)
  end.

(** ** Runs of the scheduler

    What can happen to a scheduler: a call of a public method (by the
    client or by a handler, which receives the scheduler), the host
    running the callback of a pending timer, and a handler completing or
    rejecting, which resumes or abandons the suspended [runEvent].
    [CallResumeAll] is [resumeAll] up to its first [await]; a suspended
    [resumeAll] goes on by calling [resumeEvent] for its next key, which is
    the step [CallResumeEvent], so that any step can stand between two
    passes. *)
Inductive Step : Type :=
| CallRegisterCallback (lookupName : string) (callback : EventHandler)
| CallAddEvent (i lookupName : string) (params : json) (duration : Z)
    (autoRepeat : bool) (now : Z)
| CallRemoveEvent (i : string)
| CallPauseEvent (i : string) (now : Z)
| CallResumeEvent (i : string) (now : Z)
| CallPauseAll (clock : nat → Z)
| CallRemoveAllByType (type : string)
| CallResumeAll (now : Z)
| CallExecuteImmediately (i : string)
| CallLoadEvents (serializedData : string)
| TimerFires (h : Timeout)
| HandlerCompletes (l : loc) (now : Z)
| HandlerRejects (l : loc).

Definition dropValue {A : Type} (r : completion A * State) : completion unit * State :=
  match r with
  | (Normal _, s) => (Normal (), s)
  | (Throw e, s) => (Throw e, s)
  | (Untyped, s) => (Untyped, s)
  end.

Definition perform (c : Step) (s : State) : completion unit * State :=
  match c with
  | CallRegisterCallback n cb => registerCallback n cb s
  | CallAddEvent i n p d r now => dropValue (addEvent i n p d r now s)
  | CallRemoveEvent i => (Normal (), removeEvent i s)
  | CallPauseEvent i now => (Normal (), pauseEvent i now s)
  | CallResumeEvent i now => (Normal (), resumeEvent i now s)
  | CallPauseAll clock => (Normal (), pauseAll clock s)
  | CallRemoveAllByType ty => (Normal (), removeAllByType ty s)
  | CallResumeAll now => (Normal (), (resumeAll now s).1)
  | CallExecuteImmediately i => executeImmediately i s
  | CallLoadEvents data => loadEvents data s
  | TimerFires h => timerFires h s
  | HandlerCompletes l now => runEvent_resumed l now s
  | HandlerRejects l => (Normal (), runEvent_rejected l s)
  end.

(** A timer fires only while pending, a handler completes only while its
    activation is suspended, and a run is followed only while the values
    it handles have their declared types. *)
Definition possible (c : Step) (s : State) : bool :=
  match c with
  | TimerFires h => bool_decide (h ∈ handle <$> timers s)
  | HandlerCompletes l _ | HandlerRejects l => bool_decide (l ∈ awaiting s)
  | CallLoadEvents data =>
      match loadEvents data s with (Untyped, _) => false | _ => true end
  | _ => true
  end.

Definition after (c : Step) (s : State) : State := (perform c s).2.

Inductive reachable : State → Prop :=
| reachable_constructor : reachable constructor
| reachable_step s c :
    reachable s → possible c s = true → reachable (after c s).

(** Runs a list of steps, checking that each is possible. *)
Fixpoint run (cs : list Step) (s : State) : option State :=
  match cs with
  | [] => Some s
  | c :: cs' => if possible c s then run cs' (after c s) else None
  end.

(** A whole execution of [resumeAll], from the call to the return.  The
    [k]-th pass reads [clock k]; while the method is suspended after its
    [k]-th pass the steps [others k] of other activations run (calls by the
    client or by handlers, handlers completing).  The result is [None]
    when one of these steps is not possible. *)
Fixpoint resumeAll_passes (clock : nat → Z) (others : nat → list Step) (k : nat)
    (eventKeys : list string) (s : State) : option State :=
  match run (others k) s with
  | None => None
  | Some s1 =>
      match eventKeys with
      | [] => Some s1
      | _ :: eventKeys' =>
          resumeAll_passes clock others (S k) eventKeys'
            (resumeAll_resumed eventKeys (clock (S k)) s1).1
      end
  end.

Definition resumeAll_returns (clock : nat → Z) (others : nat → list Step) (s : State)
    : option State :=
  match resumeAll (clock 0%nat) s with
  | (s1, None) => Some s1
  | (s1, Some eventKeys) => resumeAll_passes clock others 0 eventKeys s1
  end.

(** No [executeImmediately] of the run was rejected (which [runEvent]
    does when the handler of the event is not registered). *)
Fixpoint executesCompleted (cs : list Step) (s : State) : Prop :=
  match cs with
  | [] => True
  | c :: cs' =>
      match c with
      | CallExecuteImmediately i => (executeImmediately i s).1 = Normal ()
      | _ => True
      end ∧ executesCompleted cs' (after c s)
  end.
End Serialisation.

(** ** A reference codec

    A reader and a writer for the fragment of JSON text with integer
    numbers and the two-character escapes; on that fragment they agree
    with [JSON.parse] and [JSON.stringify].  They instantiate [JSONCodec]
    where a statement is evaluated on concrete text. *)
Module JSONText.
Local Open Scope char_scope.

Definition dquote : ascii := "034".
Definition backslash : ascii := "\".

Definition isSpace (c : ascii) : bool :=
  bool_decide (c = " " ∨ c = "009" ∨ c = "010" ∨ c = "013").

Definition digitValue (c : ascii) : option Z :=
  let n := Z.of_nat (nat_of_ascii c) in
  if decide (48 ≤ n ≤ 57) then Some (n - 48) else None.

Fixpoint skipSpace (s : string) : string :=
  match s with
  | String c r => if isSpace c then skipSpace r else s
  | EmptyString => s
  end.

Fixpoint stripPrefix (p s : string) : option string :=
  match p, s with
  | EmptyString, _ => Some s
  | String a p', String b s' => if decide (a = b) then stripPrefix p' s' else None
  | _, _ => None
  end.

Fixpoint readDigits (acc : Z) (s : string) : Z * string :=
  match s with
  | String c r =>
      match digitValue c with
      | Some d => readDigits (acc * 10 + d) r
      | None => (acc, s)
      end
  | EmptyString => (acc, s)
  end.

(** [0] or a digit sequence without leading zero; a fraction or an
    exponent is outside the fragment. *)
Definition readNatural (s : string) : option (Z * string) :=
  match s with
  | String c r =>
      match digitValue c with
      | Some d =>
          let '(n, r') := if decide (d = 0) then (0, r) else readDigits d r in
          match r' with
          | String c' _ =>
              if bool_decide (is_Some (digitValue c') ∨ c' = "." ∨ c' = "e" ∨ c' = "E")
              then None else Some (n, r')
          | EmptyString => Some (n, r')
          end
      | None => None
      end
  | EmptyString => None
  end.

Definition unescape (c : ascii) : option ascii :=
  if decide (c = dquote) then Some dquote
  else if decide (c = backslash) then Some backslash
  else if decide (c = "/") then Some "/"
  else if decide (c = "n") then Some "010"
  else if decide (c = "t") then Some "009"
  else if decide (c = "r") then Some "013"
  else if decide (c = "b") then Some "008"
  else if decide (c = "f") then Some "012"
  else None.

(** The characters of a string literal, after its opening quote. *)
Fixpoint readChars (s : string) : option (string * string) :=
  match s with
  | EmptyString => None
  | String c r =>
      if decide (c = dquote) then Some (EmptyString, r)
      else if decide (c = backslash) then
        match r with
        | String e r' =>
            match unescape e, readChars r' with
            | Some c', Some (cs, r'') => Some (String c' cs, r'')
            | _, _ => None
            end
        | EmptyString => None
        end
      else if decide (nat_of_ascii c < 32)%nat then None
      else match readChars r with
           | Some (cs, r') => Some (String c cs, r')
           | None => None
           end
  end.

Fixpoint readValue (fuel : nat) (s : string) : option (json * string) :=
  match fuel with
  | O => None
  | S fuel =>
      match skipSpace s with
      | EmptyString => None
      | String c r =>
          if decide (c = "[") then
            match skipSpace r with
            | String "]" r' => Some (JArr [], r')
            | _ => match readItems fuel r with
                   | Some (xs, r') => Some (JArr xs, r')
                   | None => None
                   end
            end
          else if decide (c = "{") then
            match skipSpace r with
            | String "}" r' => Some (JObj [], r')
            | _ => match readMembers fuel r [] with
                   | Some (ms, r') => Some (JObj ms, r')
                   | None => None
                   end
            end
          else if decide (c = dquote) then
            match readChars r with
            | Some (cs, r') => Some (JStr cs, r')
            | None => None
            end
          else if decide (c = "-") then
            match readNatural r with
            | Some (n, r') => Some (JNum (- n), r')
            | None => None
            end
          else if decide (c = "t") then
            match stripPrefix "rue" r with Some r' => Some (JBool true, r') | None => None end
          else if decide (c = "f") then
            match stripPrefix "alse" r with Some r' => Some (JBool false, r') | None => None end
          else if decide (c = "n") then
            match stripPrefix "ull" r with Some r' => Some (JNull, r') | None => None end
          else
            match readNatural (String c r) with
            | Some (n, r') => Some (JNum n, r')
            | None => None
            end
      end
  end
with readItems (fuel : nat) (s : string) : option (list json * string) :=
  match fuel with
  | O => None
  | S fuel =>
      match readValue fuel s with
      | Some (x, r) =>
          match skipSpace r with
          | String "," r' =>
              match readItems fuel r' with
              | Some (xs, r'') => Some (x :: xs, r'')
              | None => None
              end
          | String "]" r' => Some ([x], r')
          | _ => None
          end
      | None => None
      end
  end
with readMembers (fuel : nat) (s : string) (acc : list (string * json))
    : option (list (string * json) * string) :=
  match fuel with
  | O => None
  | S fuel =>
      match skipSpace s with
      | String c r =>
          if decide (c = dquote) then
            match readChars r with
            | Some (k, r1) =>
                match skipSpace r1 with
                | String ":" r2 =>
                    match readValue fuel r2 with
                    | Some (v, r3) =>
                        (* a repeated key keeps its place and takes the last value *)
                        let acc' := Map_set k v acc in
                        match skipSpace r3 with
                        | String "," r4 => readMembers fuel r4 acc'
                        | String "}" r4 => Some (acc', r4)
                        | _ => None
                        end
                    | None => None
                    end
                | _ => None
                end
            | None => None
            end
          else None
      | EmptyString => None
      end
  end.

Definition parse (s : string) : option json :=
  match readValue (2 * String.length s + 2) s with
  | Some (v, r) => match skipSpace r with EmptyString => Some v | _ => None end
  | None => None
  end.

Fixpoint escape (s : string) : string :=
  match s with
  | EmptyString => EmptyString
  | String c r =>
      if decide (c = dquote) then String backslash (String dquote (escape r))
      else if decide (c = backslash) then String backslash (String backslash (escape r))
      else if decide (c = "010") then String backslash (String "n" (escape r))
      else if decide (c = "009") then String backslash (String "t" (escape r))
      else if decide (c = "013") then String backslash (String "r" (escape r))
      else if decide (c = "008") then String backslash (String "b" (escape r))
      else if decide (c = "012") then String backslash (String "f" (escape r))
      else String c (escape r)
  end.

Definition quote (s : string) : string :=
  String dquote (escape s +:+ String dquote EmptyString).

Local Open Scope string_scope.

Fixpoint stringify (j : json) : string :=
  match j with
  | JNull => "null"
  | JBool true => "true"
  | JBool false => "false"
  | JNum n => pretty n
  | JStr s => quote s
  | JArr xs =>
      "[" +:+
      (fix items (xs : list json) : string :=
         match xs with
         | [] => EmptyString
         | [x] => stringify x
         | x :: xs' => stringify x +:+ "," +:+ items xs'
         end) xs +:+ "]"
  | JObj ms =>
      "{" +:+
      (fix members (ms : list (string * json)) : string :=
         match ms with
         | [] => EmptyString
         | [(k, v)] => quote k +:+ ":" +:+ stringify v
         | (k, v) :: ms' => quote k +:+ ":" +:+ stringify v +:+ "," +:+ members ms'
         end) ms +:+ "}"
  end.

(** Text written with [''] for the double quote, for readable examples. *)
Fixpoint text (s : string) : string :=
  match s with
  | EmptyString => EmptyString
  | String c r => String (if decide (c = "'"%char) then dquote else c) (text r)
  end.

Definition codec : JSONCodec := {| JSON_parse := parse; JSON_stringify := stringify |}.
End JSONText.

(** ** Consistency of a scheduler with its host

    What every run keeps true of the table, the objects, the pending timers
    and the suspended activations.  [resumeEvent] marks its object
    scheduled before [scheduleEvent] decides on its status: [except] names
    the object that is between the two. *)
Record consistent_but (except : option loc) (s : State) : Prop := {
  (* the table is a map, and an object is stored under its own id *)
  keys_distinct : NoDup (Map_keys (eventMap s));
  stored_under_id : ∀ i l, (i, l) ∈ eventMap s →
    ∃ e, heap s !! l = Some e ∧ Event.id e = i;
  (* a pending timer is the one its object holds, and the object is an armed
     event of the table *)
  timers_held : ∀ t, t ∈ timers s →
    ∃ e, heap s !! target t = Some e ∧ Event.jobId e = Some (handle t)
         ∧ Event.status e = scheduled ∧ (Event.id e, target t) ∈ eventMap s;
  (* a suspended activation belongs to a running object with a handler *)
  awaiting_distinct : NoDup (awaiting s);
  awaiting_running : ∀ l, l ∈ awaiting s →
    ∃ e, heap s !! l = Some e ∧ Event.status e = running
         ∧ is_Some (callbackMap s !! Event.lookupName e);
  (* while the scheduler is paused nothing is armed or running *)
  paused_quiet : status s = paused →
    timers s = [] ∧ awaiting s = [] ∧
    ∀ i l e, (i, l) ∈ eventMap s → heap s !! l = Some e → Some l ≠ except →
             Event.status e = paused;
  (* an event of the table that holds a handle is scheduled or running *)
  handle_held : ∀ i l e, (i, l) ∈ eventMap s → heap s !! l = Some e →
    is_Some (Event.jobId e) →
    (Event.status e = scheduled ∨ Event.status e = running) ∧ status s ≠ paused;
  (* every handle in use was issued by [setTimeout] *)
  timers_issued : ∀ t, t ∈ timers s → (handle t < nextTimeout s)%nat;
  jobs_issued : ∀ l e h, heap s !! l = Some e → Event.jobId e = Some h →
    (h < nextTimeout s)%nat;
  (* and no two objects hold the same handle *)
  jobs_distinct : ∀ l1 l2 e1 e2 h, heap s !! l1 = Some e1 → heap s !! l2 = Some e2 →
    Event.jobId e1 = Some h → Event.jobId e2 = Some h → l1 = l2
}.

Definition consistent : State → Prop := consistent_but None.

(** The objects of the table, in table order. *)
Definition tableEvents (s : State) : list Event.t :=
  omap (λ l, deref l s) (Map_values (eventMap s)).

(** A status that [loadEvents] loads. *)
Definition loadable (e : Event.t) : Prop :=
  Event.status e = scheduled ∨ Event.status e = paused.

Global Instance loadable_dec e : Decision (loadable e).
Proof. unfold loadable. apply _. Defined.

(** What [scheduleEvent] makes of the remaining time of an object. *)
Definition rearmed (e : Event.t) : Z :=
  if decide (Event.remainingTime e ≤ 0) then Event.duration e else Event.remainingTime e.

(** The event that [loadEvents] stores for the persisted event [e], up to
    its handle [j]: the status is taken from the scheduler, the remaining
    time goes through the re-arm rule, the other fields are those of [e]. *)
Definition loaded (t : State) (e : Event.t) (j : option Timeout) : Event.t :=
  Event.mk (Event.id e) (Event.lookupName e) (Event.params e)
    (if decide (status t = paused) then paused else scheduled)
    (Event.addedAtTime e) (rearmed e) (Event.duration e) (Event.autoRepeat e) j.

(** ** Counting resumes

    [resumeAll] arms the paused events of the table one after the other;
    when nothing else arms a timer between its passes, the handle an event
    receives is determined by how many paused events precede it in the
    table. *)
Definition pausedEvent (s : State) (i : string) : bool :=
  match getEvent i s with
  | Some (_, e) => bool_decide (Event.status e = paused)
  | None => false
  end.

Definition countPaused (s : State) (ids : list string) : nat :=
  length (List.filter (pausedEvent s) ids).

Definition pausedBefore (s : State) (k : nat) : nat :=
  countPaused s (take k (Map_keys (eventMap s))).

(** Every scheduled event of the table holds a timer handle. *)
Definition armed (s : State) : Prop :=
  ∀ i l e, (i, l) ∈ eventMap s → heap s !! l = Some e →
           Event.status e = scheduled → is_Some (Event.jobId e).

(** [armed], but for the object at [l], which [scheduleEvent] is about to
    decide on. *)
Definition armed_but (l : loc) (s : State) : Prop :=
  ∀ i l' e, (i, l') ∈ eventMap s → heap s !! l' = Some e → l' ≠ l →
            Event.status e = scheduled → is_Some (Event.jobId e).

(** ** Further invariants and closed forms *)

(** Every event of the table is scheduled, running or paused: an event
    that is done has left the table. *)
Definition live (s : State) : Prop :=
  ∀ i l e, (i, l) ∈ eventMap s → heap s !! l = Some e →
           Event.status e = scheduled ∨ Event.status e = running ∨ Event.status e = paused.

(** [live], but for the object at [l]. *)
Definition live_but (l : loc) (s : State) : Prop :=
  ∀ i l' e, (i, l') ∈ eventMap s → heap s !! l' = Some e → l' ≠ l →
            Event.status e = scheduled ∨ Event.status e = running ∨ Event.status e = paused.

(** What [pauseEvent] at time [now] makes of an armed event. *)
Definition pausedAt (now : Z) (e : Event.t) : Event.t :=
  Event.mk (Event.id e) (Event.lookupName e) (Event.params e) paused
    (Event.addedAtTime e) (Event.remainingTime e - (now - Event.addedAtTime e))
    (Event.duration e) (Event.autoRepeat e) None.

(** The events that [pauseEvent] pauses: scheduled, with a handle. *)
Definition pausable (e : Event.t) : Prop :=
  Event.status e = scheduled ∧ is_Some (Event.jobId e).

Global Instance pausable_dec e : Decision (pausable e).
Proof. unfold pausable. apply _. Defined.

(** The steps that write the scheduler status. *)
Definition isResumeAll (c : Step) : bool :=
  match c with CallResumeAll _ => true | _ => false end.

(** The handles of the pending timers are distinct, and were issued. *)
Definition timers_fresh (s : State) : Prop :=
  NoDup (handle <$> timers s) ∧ ∀ t, t ∈ timers s → (handle t < nextTimeout s)%nat.

(** Every scheduled event of the table that holds a handle has the timer
    of that handle pending. *)
Definition pending (s : State) : Prop :=
  ∀ i l e h, getEvent i s = Some (l, e) → Event.status e = scheduled →
             Event.jobId e = Some h → ∃ d, mkTimer h l d ∈ timers s.

Section Rejections.
Context `{JSONCodec}.

(** No [runEvent] of the run was rejected for a missing handler, be it
    started by [executeImmediately] or by a timer. *)
Fixpoint runsCompleted (cs : list Step) (s : State) : Prop :=
  match cs with
  | [] => True
  | c :: cs' =>
      match c with
      | CallExecuteImmediately i => (executeImmediately i s).1 = Normal ()
      | TimerFires h => (timerFires h s).1 = Normal ()
      | _ => True
      end ∧ runsCompleted cs' (after c s)
  end.
End Rejections.

(** ** Sample runs *)
Module Examples.
#[local] Existing Instance JSONText.codec.
Local Open Scope string_scope.

Definition ping : EventHandler := 0%nat.
Definition noParams : json := JObj [].
Definition at_ (now : Z) : nat → Z := λ _, now.

(** One handler registered, the scheduler resumed. *)
Definition started : list Step :=
  [CallRegisterCallback "ping" ping; CallResumeAll 0].

(** [e1] is added for 100 ms at time 0. *)
Definition one_armed : list Step :=
  started ++ [CallAddEvent "e1" "ping" noParams 100 false 0].

(** ... and paused at time 150, before the host ran its timer. *)
Definition paused_late : list Step :=
  one_armed ++ [CallPauseEvent "e1" 150].

(** The timer of [e1] has fired and its handler is executing. *)
Definition handler_running : list Step :=
  one_armed ++ [TimerFires 0%nat].

(** The same with an auto-repeating event. *)
Definition repeating_running : list Step :=
  started ++ [CallAddEvent "e2" "ping" noParams 100 true 0; TimerFires 0%nat].

(** A persisted event whose handler is not registered in this process. *)
Definition ghostData : string :=
  JSONText.text
    "[{'id':'g','lookupName':'ghost','params':{},'status':'paused','addedAtTime':0,'remainingTime':100,'duration':100,'autoRepeat':false}]".

(** It is loaded, armed by [resumeAll], and [executeImmediately] fails on it. *)
Definition ghost_executed : list Step :=
  [CallLoadEvents ghostData; CallResumeAll 0; CallExecuteImmediately "g"].

(** A persisted event whose [remainingTime] is spent. *)
Definition spentData : string :=
  JSONText.text
    "[{'id':'z','lookupName':'ping','params':{},'status':'scheduled','addedAtTime':0,'remainingTime':0,'duration':100,'autoRepeat':false}]".


(** An array whose second record has a [remainingTime] that cannot be
    converted to a string. *)
Definition unloggableData : string :=
  JSONText.text
    "[{'id':'a','lookupName':'ping','params':{},'status':'paused','addedAtTime':0,'remainingTime':5,'duration':5,'autoRepeat':false},{'id':'b','lookupName':'ping','params':{},'status':'paused','addedAtTime':0,'remainingTime':{'toString':1},'duration':5,'autoRepeat':false}]".

(** A record that lists its members in another order. *)
Definition reorderedData : string :=
  JSONText.text
    "[{'status':'paused','id':'a','autoRepeat':false,'duration':5,'remainingTime':5,'addedAtTime':0,'params':{},'lookupName':'ping'}]".

(** Three events, the first and the third paused. *)
Definition mixed : list Step :=
  started ++ [CallAddEvent "e1" "ping" noParams 100 false 0;
              CallAddEvent "e2" "ping" noParams 100 false 0;
              CallAddEvent "e3" "ping" noParams 100 false 0;
              CallPauseEvent "e1" 40; CallPauseEvent "e3" 60].

Definition the (o : option State) : State := default constructor o.
End Examples.

(** ** Further sample runs *)
Module Scenarios.
Import Examples.
Local Open Scope string_scope.

Definition pong : EventHandler := 1%nat.

(** The persisted ghost event is loaded and armed by [resumeAll]. *)
Definition ghost_armed : list Step :=
  [CallLoadEvents ghostData; CallResumeAll 0].

(** The handler of [e1] adds [e1] again while it is executing. *)
Definition readded_running : list Step :=
  handler_running ++ [CallAddEvent "e1" "ping" noParams 100 false 30].

(** Calls made before the first [resumeAll]. *)
Definition not_resumed : list Step :=
  [CallRegisterCallback "ping" ping; CallAddEvent "e1" "ping" noParams 100 false 0;
   CallLoadEvents ghostData; CallResumeEvent "e1" 5; CallExecuteImmediately "g"].

(** Two events are armed and the timer of the first has fired: its
    handler is executing. *)
Definition two_fired : list Step :=
  started ++ [CallAddEvent "e1" "ping" noParams 100 false 0;
              CallAddEvent "e2" "ping" noParams 100 false 0;
              TimerFires 0%nat].

(** Events of two types, all armed. *)
Definition two_types : list Step :=
  [CallRegisterCallback "ping" ping; CallRegisterCallback "pong" pong;
   CallResumeAll 0;
   CallAddEvent "a" "ping" noParams 100 false 0;
   CallAddEvent "b" "pong" noParams 200 true 0;
   CallAddEvent "c" "ping" noParams 300 false 0].

(** All events of [two_types] are paused, another is added, and [resumeAll]
    is called: its first pass has run. *)
Definition resumed_after_pause (clock : nat → Z) : list Step :=
  two_types ++ [CallPauseAll clock; CallAddEvent "d" "ping" noParams 10 false 60;
                CallResumeAll 500].
End Scenarios.

(** * Properties *)

(** Two readings of one object are the same event. *)
Ltac the_same a b := assert (a = b) as -> by congruence.

Section MapFacts.
Context {V : Type}.
Implicit Types (m : list (string * V)) (k : string) (v : V).

Lemma Map_delete_filter k m : Map_delete k m = filter (λ p, p.1 ≠ k) m.
Proof.
  induction m as [|[k' v'] m IH]; [done|]. simpl.
  rewrite filter_cons. simpl. destruct (decide (k' = k)) as [->|Hne].
  - rewrite decide_False by naive_solver. done.
  - rewrite decide_True by done. by rewrite IH.
Qed.

Lemma elem_of_Map_delete k m k' v :
  (k', v) ∈ Map_delete k m ↔ (k', v) ∈ m ∧ k' ≠ k.
Proof. rewrite Map_delete_filter, list_elem_of_filter. naive_solver. Qed.

Lemma Map_keys_delete k m : Map_keys (Map_delete k m) = filter (λ k', k' ≠ k) (Map_keys m).
Proof.
  unfold Map_keys. induction m as [|[k' v'] m IH]; [done|]. simpl.
  rewrite filter_cons. simpl. destruct (decide (k' = k)) as [->|Hne].
  - rewrite decide_False by naive_solver. done.
  - rewrite decide_True by done. rewrite fmap_cons. simpl. f_equal. apply IH.
Qed.

Lemma NoDup_Map_delete k m : NoDup (Map_keys m) → NoDup (Map_keys (Map_delete k m)).
Proof. rewrite Map_keys_delete. apply NoDup_filter. Qed.

Lemma Map_get_None k m : Map_get k m = None ↔ k ∉ Map_keys m.
Proof.
  unfold Map_keys. induction m as [|[k' v'] m IH]; simpl.
  - split; [intros _; apply not_elem_of_nil | done].
  - rewrite not_elem_of_cons. destruct (decide (k' = k)); naive_solver.
Qed.

Lemma Map_get_Some k v m : NoDup (Map_keys m) → Map_get k m = Some v ↔ (k, v) ∈ m.
Proof.
  unfold Map_keys. induction m as [|[k' v'] m IH]; simpl; intros Hnd.
  - split; [done | by intros ?%elem_of_nil].
  - apply NoDup_cons in Hnd as [Hk Hnd]. rewrite elem_of_cons.
    destruct (decide (k' = k)) as [->|Hne].
    + split; [naive_solver|]. intros [?|Hin]; [naive_solver|].
      exfalso. apply Hk. apply list_elem_of_fmap. by exists (k, v).
    + rewrite IH by done. naive_solver.
Qed.

Lemma Map_get_elem_of k v m : Map_get k m = Some v → (k, v) ∈ m.
Proof.
  induction m as [|[k' v'] m IH]; simpl; [done|].
  destruct (decide (k' = k)) as [->|Hne]; intros ?; simplify_eq.
  - left.
  - right. auto.
Qed.

Lemma Map_has_true k m : Map_has k m = true ↔ k ∈ Map_keys m.
Proof.
  unfold Map_has. destruct (Map_get k m) eqn:E.
  - split; [intros _|done]. apply Map_get_elem_of in E.
    apply list_elem_of_fmap. by exists (k, v).
  - apply Map_get_None in E. naive_solver.
Qed.

Lemma Map_set_fresh k v m : k ∉ Map_keys m → Map_set k v m = m ++ [(k, v)].
Proof.
  unfold Map_keys. induction m as [|[k' v'] m IH]; simpl; [done|].
  rewrite not_elem_of_cons. intros [Hne Hk].
  rewrite decide_False by done. by rewrite IH.
Qed.

Lemma Map_delete_absent k m : k ∉ Map_keys (Map_delete k m).
Proof. rewrite Map_keys_delete, list_elem_of_filter. naive_solver. Qed.
End MapFacts.
(** ** Frame lemmas for the host primitives *)

Lemma alter_lookup_Some (f : Event.t → Event.t) l (h : list Event.t) l' e' :
  alter f l h !! l' = Some e' →
  (l' = l ∧ ∃ e, h !! l = Some e ∧ e' = f e) ∨ (l' ≠ l ∧ h !! l' = Some e').
Proof.
  destruct (decide (l = l')) as [->|Hne].
  - rewrite list_lookup_alter_eq. destruct (h !! l') as [e|] eqn:E; simpl; [|done].
    intros [= <-]. left. eauto.
  - rewrite list_lookup_alter_ne by done. right. auto.
Qed.

Lemma alter_lookup_of (f : Event.t → Event.t) l (h : list Event.t) l' e :
  h !! l' = Some e →
  alter f l h !! l' = Some (if decide (l' = l) then f e else e).
Proof.
  intros He. destruct (decide (l' = l)) as [->|Hne].
  - by rewrite list_lookup_alter_eq, He.
  - by rewrite list_lookup_alter_ne.
Qed.

Lemma Map_functional {V} (m : list (string * V)) k v v' :
  NoDup (Map_keys m) → (k, v) ∈ m → (k, v') ∈ m → v = v'.
Proof.
  intros Hnd H1 H2. apply (Map_get_Some _ _ _ Hnd) in H1, H2. congruence.
Qed.

Lemma consistent_weaken x s : consistent s → consistent_but x s.
Proof.
  intros [Hk Hs Ht Had Har Hp Hh Hti Hji Hjd]. split; try done.
  intros Hpa. destruct (Hp Hpa) as (-> & -> & Hall). eauto.
Qed.

Lemma consistent_update x l f s :
  consistent_but x s →
  (∀ e, heap s !! l = Some e →
     Event.id (f e) = Event.id e ∧
     Event.lookupName (f e) = Event.lookupName e ∧
     ((∃ t, t ∈ timers s ∧ target t = l) →
        Event.jobId (f e) = Event.jobId e ∧ Event.status (f e) = scheduled) ∧
     (l ∈ awaiting s → Event.status (f e) = running) ∧
     ((Event.id e, l) ∈ eventMap s →
        (status s = paused → Some l ≠ x → Event.status (f e) = paused) ∧
        (is_Some (Event.jobId (f e)) →
           (Event.status (f e) = scheduled ∨ Event.status (f e) = running)
           ∧ status s ≠ paused))) →
  (∀ e h, Event.jobId (f e) = Some h → Event.jobId e = Some h) →
  consistent_but x (update l f s).
Proof.
  intros [Hk Hs Ht Had Har Hp Hh Hti Hji Hjd] Hf Hfj. split; simpl.
  - done.
  - intros i l' Hin. destruct (Hs _ _ Hin) as (e & He & Hid).
    rewrite (alter_lookup_of _ _ _ _ _ He). eexists; split; [done|].
    case_decide; [subst l'|done]. destruct (Hf _ He) as (-> & _). done.
  - intros t Hin. destruct (Ht _ Hin) as (e & He & Hj & Hst & Htab).
    rewrite (alter_lookup_of _ _ _ _ _ He). eexists; split; [done|].
    case_decide as Heq; [|done].
    destruct (Hf e) as (-> & _ & Htm & _); [by rewrite <- Heq|].
    destruct Htm as [-> ->]; [by exists t|]. done.
  - done.
  - intros l' Hin. destruct (Har _ Hin) as (e & He & Hst & Hcb).
    rewrite (alter_lookup_of _ _ _ _ _ He). eexists; split; [done|].
    case_decide as Heq; [subst l'|done].
    destruct (Hf _ He) as (_ & -> & _ & Haw & _). by rewrite Haw.
  - intros Hpa. destruct (Hp Hpa) as (-> & -> & Hall). do 2 (split; [done|]).
    intros i l' e' Hin [[-> (e & He & ->)]|[Hne He]]%alter_lookup_Some Hx.
    + destruct (Hs _ _ Hin) as (e0 & He0 & Hid).
      the_same e0 e. subst i.
      destruct (Hf _ He) as (_ & _ & _ & _ & Htab).
      destruct (Htab Hin) as [H1 H2]; auto.
    + eauto.
  - intros i l' e' Hin [[-> (e & He & ->)]|[Hne He]]%alter_lookup_Some.
    + destruct (Hs _ _ Hin) as (e0 & He0 & Hid).
      the_same e0 e. subst i.
      destruct (Hf _ He) as (_ & _ & _ & _ & Htab).
      destruct (Htab Hin) as [H1 H2]; auto.
    + eauto.
  - done.
  - intros l' e' h [[-> (e & He & ->)]|[Hne He]]%alter_lookup_Some Hj; eauto.
  - intros l1 l2 e1 e2 h [[-> (e1' & He1 & ->)]|[Hne1 He1]]%alter_lookup_Some
      [[-> (e2' & He2 & ->)]|[Hne2 He2]]%alter_lookup_Some Hj1 Hj2; eauto.
Qed.

Lemma consistent_clearTimeout x h s :
  consistent_but x s → consistent_but x (clearTimeout h s).
Proof.
  intros [Hk Hs Ht Had Har Hp Hh Hti Hji Hjd]. split; simpl; try done.
  - intros t [_ Hin]%list_elem_of_filter. auto.
  - intros Hpa. destruct (Hp Hpa) as (-> & -> & Hall). done.
  - intros t [_ Hin]%list_elem_of_filter. auto.
Qed.

(** Deleting a key under which no armed object is stored. *)
Lemma consistent_delete x i s :
  consistent_but x s →
  (∀ t, t ∈ timers s → (i, target t) ∉ eventMap s) →
  consistent_but x (set_eventMap (Map_delete i (eventMap s)) s).
Proof.
  intros [Hk Hs Ht Had Har Hp Hh Hti Hji Hjd] Hno. split; simpl; try done.
  - by apply NoDup_Map_delete.
  - intros i' l [Hin _]%elem_of_Map_delete. auto.
  - intros t Hin. destruct (Ht _ Hin) as (e & He & Hj & Hst & Htab).
    exists e. repeat split; try done. apply elem_of_Map_delete. split; [done|].
    intros Heq. apply (Hno _ Hin). by rewrite <- Heq.
  - intros Hpa. destruct (Hp Hpa) as (-> & -> & Hall). do 2 (split; [done|]).
    intros i' l e [Hin _]%elem_of_Map_delete. eauto.
  - intros i' l e [Hin _]%elem_of_Map_delete. eauto.
Qed.

Lemma getEvent_Some i s l e :
  getEvent i s = Some (l, e) ↔ Map_get i (eventMap s) = Some l ∧ heap s !! l = Some e.
Proof.
  unfold getEvent, deref. destruct (Map_get i (eventMap s)) as [l0|]; [|naive_solver].
  destruct (heap s !! l0) as [e0|] eqn:E; naive_solver.
Qed.

Lemma removeEvent_consistent x i s :
  consistent_but x s → consistent_but x (removeEvent i s).
Proof.
  intros Hc. unfold removeEvent.
  destruct (getEvent i s) as [[l e]|] eqn:Hg; [|done].
  apply getEvent_Some in Hg as [Hl He].
  apply Map_get_elem_of in Hl.
  apply consistent_delete.
  - destruct (Event.jobId e); [by apply consistent_clearTimeout | done].
  - intros t Hin Htab.
    assert (t ∈ timers s) as Hin'.
    { destruct (Event.jobId e); [|done]. simpl in Hin.
      by apply list_elem_of_filter in Hin as [_ ?]. }
    assert ((i, target t) ∈ eventMap s) as Htab' by (by destruct (Event.jobId e)).
    destruct (timers_held _ _ Hc _ Hin') as (e' & He' & Hj & _).
    assert (target t = l) as Heq by (eapply Map_functional; eauto using keys_distinct).
    rewrite Heq in He'. the_same e' e.
    rewrite Hj in Hin. simpl in Hin. apply list_elem_of_filter in Hin as [Hne _]. done.
Qed.

(** An object that is neither in the table nor awaited can be changed
    freely, as long as it keeps its id and handler name. *)
Lemma consistent_update_detached x l f s :
  consistent_but x s →
  (∀ i, (i, l) ∉ eventMap s) → l ∉ awaiting s →
  (∀ e, Event.id (f e) = Event.id e ∧ Event.lookupName (f e) = Event.lookupName e) →
  (∀ e h, Event.jobId (f e) = Some h → Event.jobId e = Some h) →
  consistent_but x (update l f s).
Proof.
  intros Hc Hno Haw Hf Hfj. apply consistent_update; [done| |done].
  intros e He. destruct (Hf e) as [-> ->]. do 2 (split; [done|]).
  split; [|split]; [| done |].
  - intros (t & Hin & <-). destruct (timers_held _ _ Hc _ Hin) as (e' & _ & _ & _ & Htab).
    by apply Hno in Htab.
  - intros Htab. by apply Hno in Htab.
Qed.

Lemma consistent_store l e s :
  consistent_but (Some l) s →
  Event.id e ∉ Map_keys (eventMap s) → heap s !! l = Some e →
  (status s = paused → Event.status e = paused) →
  (is_Some (Event.jobId e) →
     (Event.status e = scheduled ∨ Event.status e = running) ∧ status s ≠ paused) →
  consistent (set_eventMap (eventMap s ++ [(Event.id e, l)]) s).
Proof.
  intros [Hk Hs Ht Had Har Hp Hh Hti Hji Hjd] Hfresh He Hpe Hje.
  assert (∀ i, (i, l) ∉ eventMap s) as Hno.
  { intros i Hin. destruct (Hs _ _ Hin) as (e' & He' & <-).
    the_same e' e.
    apply Hfresh. apply list_elem_of_fmap. by exists (Event.id e, l). }
  split; simpl; try done.
  - unfold Map_keys in *. rewrite fmap_app. apply NoDup_app. split; [done|]. split.
    + intros k Hin ->%list_elem_of_singleton. done.
    + apply NoDup_singleton.
  - intros i l' [Hin|Heq%list_elem_of_singleton]%elem_of_app; [eauto|].
    injection Heq as -> ->. eauto.
  - intros t Hin. destruct (Ht _ Hin) as (e' & He' & Hj & Hst & Htab).
    exists e'. repeat split; try done. apply elem_of_app. by left.
  - intros Hpa. destruct (Hp Hpa) as (-> & -> & Hall). do 2 (split; [done|]).
    intros i l' e' [Hin|Heq%list_elem_of_singleton]%elem_of_app He' _.
    + eapply Hall; [done..|]. intros [= ->]. by apply Hno in Hin.
    + injection Heq as -> ->. the_same e' e. auto.
  - intros i l' e' [Hin|Heq%list_elem_of_singleton]%elem_of_app He'.
    + eauto.
    + injection Heq as -> ->. the_same e' e. auto.
Qed.

Lemma consistent_arm l d e s :
  consistent s → heap s !! l = Some e → Event.jobId e = None →
  Event.status e = scheduled → (Event.id e, l) ∈ eventMap s → status s ≠ paused →
  consistent (update l (Event.set_jobId (Some (nextTimeout s))) (setTimeout l d s).2).
Proof.
  intros [Hk Hs Ht Had Har Hp Hh Hti Hji Hjd] He Hj Hst Htab Hact.
  assert (∀ t, t ∈ timers s → target t ≠ l) as Hno.
  { intros t Hin Heq. destruct (Ht _ Hin) as (e' & He' & Hj' & _).
    rewrite Heq in He'. congruence. }
  split; simpl; try done.
  - intros i l' Hin. destruct (Hs _ _ Hin) as (e' & He' & Hid).
    rewrite (alter_lookup_of _ _ _ _ _ He'). eexists; split; [done|].
    by case_decide.
  - intros t [Hin|Heq%list_elem_of_singleton]%elem_of_app; [|subst t].
    + destruct (Ht _ Hin) as (e' & He' & Hj' & Hst' & Htab').
      rewrite list_lookup_alter_ne by (by apply not_eq_sym, Hno). eauto.
    + simpl. rewrite list_lookup_alter_eq, He. simpl. eexists; split; [done|]. done.
  - intros l' Hin. destruct (Har _ Hin) as (e' & He' & Hst' & Hcb).
    rewrite (alter_lookup_of _ _ _ _ _ He'). eexists; split; [done|].
    by case_decide.
  - intros i l' e' Hin [[-> (e0 & He0 & ->)]|[Hne He']]%alter_lookup_Some Hsome.
    + the_same e0 e. simpl. split; [by left | done].
    + eauto.
  - intros t [Hin|Heq%list_elem_of_singleton]%elem_of_app; [|subst t; simpl; lia].
    specialize (Hti _ Hin). lia.
  - intros l' e' h [[-> (e0 & He0 & ->)]|[Hne He']]%alter_lookup_Some Hj'.
    + simpl in Hj'. injection Hj' as <-. lia.
    + specialize (Hji _ _ _ He' Hj'). lia.
  - intros l1 l2 e1 e2 h [[-> (e1' & He1 & ->)]|[Hne1 He1]]%alter_lookup_Some
      [[-> (e2' & He2 & ->)]|[Hne2 He2]]%alter_lookup_Some Hj1 Hj2; [done| | |eauto].
    + simpl in Hj1. injection Hj1 as <-. specialize (Hji _ _ _ He2 Hj2). lia.
    + simpl in Hj2. injection Hj2 as <-. specialize (Hji _ _ _ He1 Hj1). lia.
Qed.

(** ** [removeEvent] and [scheduleEvent] *)

Lemma alter_as_insert (f : Event.t → Event.t) l (h : list Event.t) e :
  h !! l = Some e → alter f l h = <[l := f e]> h.
Proof.
  intros He. apply list_eq. intros l'. destruct (decide (l = l')) as [<-|Hne].
  - rewrite list_lookup_alter_eq, He, list_lookup_insert_eq; [done|].
    by eapply lookup_lt_Some.
  - by rewrite list_lookup_alter_ne, list_lookup_insert_ne.
Qed.

Lemma removeEvent_frame i s :
  heap (removeEvent i s) = heap s ∧ callbackMap (removeEvent i s) = callbackMap s
  ∧ status (removeEvent i s) = status s ∧ nextTimeout (removeEvent i s) = nextTimeout s
  ∧ awaiting (removeEvent i s) = awaiting s.
Proof.
  unfold removeEvent. destruct (getEvent i s) as [[l e]|]; [|done].
  by destruct (Event.jobId e).
Qed.

Lemma removeEvent_heap i s : heap (removeEvent i s) = heap s.
Proof. apply removeEvent_frame. Qed.

Lemma removeEvent_status i s : status (removeEvent i s) = status s.
Proof. apply removeEvent_frame. Qed.

Lemma removeEvent_absent i s : Map_has i (eventMap s) = false → removeEvent i s = s.
Proof.
  unfold Map_has, removeEvent, getEvent.
  by destruct (Map_get i (eventMap s)).
Qed.

Lemma Map_delete_fresh {V} k (m : list (string * V)) :
  k ∉ Map_keys m → Map_delete k m = m.
Proof.
  unfold Map_keys. induction m as [|[k' v] m IH]; simpl; [done|].
  rewrite not_elem_of_cons. intros [Hne Hk].
  rewrite decide_False by done. by rewrite IH.
Qed.

Lemma removeEvent_eventMap x i s :
  consistent_but x s → eventMap (removeEvent i s) = Map_delete i (eventMap s).
Proof.
  intros Hc. unfold removeEvent, getEvent, deref.
  destruct (Map_get i (eventMap s)) as [l|] eqn:Hl.
  - apply Map_get_elem_of in Hl.
    destruct (stored_under_id _ _ Hc _ _ Hl) as (e & -> & _).
    by destruct (Event.jobId e).
  - apply Map_get_None in Hl. by rewrite Map_delete_fresh.
Qed.

(** The two outcomes of [scheduleEvent] on the object [e] at [l]. *)
Lemma scheduleEvent_result l delay s e :
  heap s !! l = Some e →
  let remaining := if decide (Event.remainingTime e ≤ 0)
                   then Event.duration e else Event.remainingTime e in
  let s1 := removeEvent (Event.id e) s in
  scheduleEvent l delay s =
  if decide (status s = paused) then
    mkState (Map_set (Event.id e) l (eventMap s1)) (callbackMap s) (status s)
      (<[l := Event.set_status paused (Event.set_remainingTime remaining e)]> (heap s))
      (timers s1) (nextTimeout s) (awaiting s)
  else
    mkState (Map_set (Event.id e) l (eventMap s1)) (callbackMap s) (status s)
      (<[l := Event.set_jobId (Some (nextTimeout s))
               (Event.set_status scheduled (Event.set_remainingTime remaining e))]> (heap s))
      (timers s1 ++ [mkTimer (nextTimeout s) l (default remaining delay)])
      (S (nextTimeout s)) (awaiting s).
Proof.
  intros He remaining s1. unfold scheduleEvent, deref. rewrite He.
  assert ((if Map_has (Event.id e) (eventMap s) then removeEvent (Event.id e) s else s) = s1)
    as ->.
  { destruct (Map_has _ _) eqn:Hh; [done|]. symmetry. by apply removeEvent_absent. }
  destruct (removeEvent_frame (Event.id e) s) as (Hheap & Hcb & Hst & Hnt & Haw).
  fold s1 in Hheap, Hcb, Hst, Hnt, Haw.
  assert (heap s1 !! l = Some e) as He1 by (by rewrite Hheap).
  assert (Event.set_remainingTime remaining e =
          if decide (Event.remainingTime e ≤ 0)
          then Event.set_remainingTime (Event.duration e) e else e) as Hrem.
  { subst remaining. case_decide; [done|]. by destruct e. }
  clearbody s1. destruct s1 as [m1 cb1 st1 h1 ts1 n1 aw1]. simpl in *. subst.
  destruct (decide (Event.remainingTime e ≤ 0)) as [Hle|Hgt]; simpl;
    destruct (decide (status s = paused)) as [Hpa|Hact]; simpl;
    unfold update, set_eventMap, set_heap; simpl; f_equal;
    rewrite ?list_alter_alter_eq; rewrite (alter_as_insert _ _ _ _ He1); simpl;
    try rewrite Hrem; done.
Qed.

Lemma scheduleEvent_consistent l delay s e :
  consistent_but (Some l) s → heap s !! l = Some e → Event.jobId e = None →
  l ∉ awaiting s → consistent (scheduleEvent l delay s).
Proof.
  intros Hc He Hj Hnaw. rewrite (scheduleEvent_result _ _ _ _ He). cbv zeta.
  set (rem := if decide (Event.remainingTime e ≤ 0)
              then Event.duration e else Event.remainingTime e).
  pose proof (removeEvent_consistent _ (Event.id e) _ Hc) as Hc1.
  pose proof (removeEvent_eventMap _ (Event.id e) _ Hc) as Hm1.
  destruct (removeEvent_frame (Event.id e) s) as (Hheap & Hcb & Hst & Hnt & Haw).
  set (s1 := removeEvent (Event.id e) s) in *.
  assert (Event.id e ∉ Map_keys (eventMap s1)) as Hfresh.
  { rewrite Hm1. apply Map_delete_absent. }
  assert (heap s1 !! l = Some e) as He1 by (by rewrite Hheap).
  assert (∀ i, (i, l) ∉ eventMap s1) as Hno.
  { intros i Hin. destruct (stored_under_id _ _ Hc1 _ _ Hin) as (e' & He' & <-).
    the_same e' e.
    apply Hfresh. apply list_elem_of_fmap. by exists (Event.id e, l). }
  rewrite (Map_set_fresh _ _ _ Hfresh).
  destruct (decide (status s = paused)) as [Hpa|Hact].
  - set (F := λ e, Event.set_status paused (Event.set_remainingTime rem e)).
    replace (mkState _ _ _ _ _ _ _)
      with (set_eventMap (eventMap (update l F s1) ++ [(Event.id (F e), l)]) (update l F s1)).
    2:{ unfold set_eventMap, update, set_heap. simpl.
        rewrite (alter_as_insert _ _ _ _ He1). by rewrite Hheap, Hcb, Hst, Hnt, Haw. }
    apply consistent_store.
    + apply consistent_update_detached; [done| done | by rewrite Haw | done | done].
    + done.
    + simpl. by rewrite list_lookup_alter_eq, He1.
    + done.
    + simpl. rewrite Hj. by intros [? ?].
  - set (G := λ e, Event.set_status scheduled (Event.set_remainingTime rem e)).
    set (S' := set_eventMap (eventMap (update l G s1) ++ [(Event.id (G e), l)]) (update l G s1)).
    replace (mkState _ _ _ _ _ _ _)
      with (update l (Event.set_jobId (Some (nextTimeout S'))) (setTimeout l (default rem delay) S').2).
    2:{ unfold S', set_eventMap, update, set_heap, setTimeout. simpl.
        rewrite list_alter_alter_eq, (alter_as_insert _ _ _ _ He1).
        by rewrite Hheap, Hcb, Hst, Hnt, Haw. }
    apply consistent_arm with (e := G e).
    + apply consistent_store.
      * apply consistent_update_detached; [done| done | by rewrite Haw | done | done].
      * done.
      * simpl. by rewrite list_lookup_alter_eq, He1.
      * simpl. by rewrite Hst.
      * simpl. rewrite Hj. by intros [? ?].
    + simpl. by rewrite list_lookup_alter_eq, He1.
    + done.
    + done.
    + simpl. apply elem_of_app. right. by apply list_elem_of_singleton.
    + simpl. by rewrite Hst.
Qed.

(** ** Every method keeps the scheduler consistent *)

Lemma awaiting_valid x s l : consistent_but x s → l ∈ awaiting s → (l < length (heap s))%nat.
Proof.
  intros Hc Hin. destruct (awaiting_running _ _ Hc _ Hin) as (e & He & _).
  by eapply lookup_lt_Some.
Qed.

Lemma consistent_alloc x e s :
  consistent_but x s → Event.jobId e = None → consistent_but x (alloc e s).2.
Proof.
  intros [Hk Hs Ht Had Har Hp Hh Hti Hji Hjd] Hnone. split; simpl; try done.
  - intros i l Hin. destruct (Hs _ _ Hin) as (e' & He' & Hid).
    exists e'. split; [|done]. by apply lookup_app_l_Some.
  - intros t Hin. destruct (Ht _ Hin) as (e' & He' & Hrest).
    exists e'. split; [|done]. by apply lookup_app_l_Some.
  - intros l Hin. destruct (Har _ Hin) as (e' & He' & Hrest).
    exists e'. split; [|done]. by apply lookup_app_l_Some.
  - intros Hpa. destruct (Hp Hpa) as (-> & -> & Hall). do 2 (split; [done|]).
    intros i l e' Hin He' Hx. destruct (Hs _ _ Hin) as (e0 & He0 & Hid).
    rewrite (lookup_app_l_Some _ _ _ _ He0) in He'. injection He' as <-. eauto.
  - intros i l e' Hin He'. destruct (Hs _ _ Hin) as (e0 & He0 & Hid).
    rewrite (lookup_app_l_Some _ _ _ _ He0) in He'. injection He' as <-. eauto.
  - intros l e' h [He'|[_ He']]%lookup_app_Some Hj; [eauto|].
    apply list_lookup_singleton_Some in He' as [_ <-]. congruence.
  - intros l1 l2 e1 e2 h [He1|[_ He1]]%lookup_app_Some [He2|[_ He2]]%lookup_app_Some Hj1 Hj2;
      [eauto|..].
    all: try (apply list_lookup_singleton_Some in He1 as [_ <-]; congruence).
    all: try (apply list_lookup_singleton_Some in He2 as [_ <-]; congruence).
Qed.

Lemma alloc_lookup e s : heap (alloc e s).2 !! (alloc e s).1 = Some e.
Proof. simpl. by rewrite lookup_app_r, Nat.sub_diag. Qed.

Lemma registerCallback_consistent n cb s :
  consistent s → consistent (registerCallback n cb s).2.
Proof.
  intros Hc. unfold registerCallback.
  destruct (callbackMap s !! n) eqn:Hn; [done|]. simpl.
  destruct Hc as [Hk Hs Ht Had Har Hp Hh Hti Hji Hjd]. split; simpl; try done.
  intros l Hin. destruct (Har _ Hin) as (e & He & Hst & Hcb).
  exists e. do 2 (split; [done|]). by apply lookup_insert_is_Some'; right.
Qed.

Lemma addEvent_consistent i n p d r now s :
  consistent s → consistent (addEvent i n p d r now s).2.
Proof.
  intros Hc. unfold addEvent. destruct (callbackMap s !! n); [|done].
  set (e := Event.mk _ _ _ _ _ _ _ _ _).
  change (consistent (scheduleEvent (alloc e s).1 None (alloc e s).2)).
  apply scheduleEvent_consistent with (e := e).
  - by apply consistent_alloc; [apply consistent_weaken|].
  - apply alloc_lookup.
  - done.
  - simpl. intros Hin%(awaiting_valid _ _ _ Hc). lia.
Qed.

Lemma pauseEvent_consistent i now s : consistent s → consistent (pauseEvent i now s).
Proof.
  intros Hc. unfold pauseEvent.
  destruct (getEvent i s) as [[l e]|] eqn:Hg; [|done].
  apply getEvent_Some in Hg as [Hl He]. apply Map_get_elem_of in Hl.
  destruct (decide (Event.status e ≠ scheduled)) as [|Hst%dec_stable]; [done|].
  destruct (Event.jobId e) as [h|] eqn:Hj; [|done].
  apply consistent_update; [by apply consistent_clearTimeout| |by intros ? ?].
  simpl. intros e' He'. the_same e' e.
  do 2 (split; [done|]). split; [|split].
  - intros (t & [Hne Hin]%list_elem_of_filter & Htg).
    destruct (timers_held _ _ Hc _ Hin) as (e' & Ht & Hj' & _).
    rewrite Htg in Ht. the_same e' e. congruence.
  - intros Hin. destruct (awaiting_running _ _ Hc _ Hin) as (e' & Ht & Hst' & _).
    the_same e' e. congruence.
  - intros _. split; [done|]. by intros [? ?].
Qed.

Lemma resumeEvent_consistent i now s : consistent s → consistent (resumeEvent i now s).
Proof.
  intros Hc. unfold resumeEvent.
  destruct (getEvent i s) as [[l e]|] eqn:Hg; [|done].
  apply getEvent_Some in Hg as [Hl He]. apply Map_get_elem_of in Hl.
  destruct (decide (Event.status e ≠ paused)) as [|Hst%dec_stable]; [done|].
  assert (Event.jobId e = None) as Hj.
  { destruct (Event.jobId e) eqn:Hj; [|done].
    destruct (handle_held _ _ Hc _ _ _ Hl He) as [[?|?] _]; [by rewrite Hj|congruence..]. }
  set (f := λ e, Event.set_addedAtTime now (Event.set_status scheduled e)).
  apply scheduleEvent_consistent with (e := f e).
  - apply consistent_update; [by apply consistent_weaken| |by intros ? ?].
    intros e' He'. the_same e' e.
    do 2 (split; [done|]). split; [|split].
    + intros (t & Hin & Htg).
      destruct (timers_held _ _ Hc _ Hin) as (e' & Ht & _ & Hst' & _).
      rewrite Htg in Ht. the_same e' e. congruence.
    + intros Hin. destruct (awaiting_running _ _ Hc _ Hin) as (e' & Ht & Hst' & _).
      the_same e' e. congruence.
    + intros _. split; [done|]. simpl. rewrite Hj. by intros [? ?].
  - simpl. by rewrite list_lookup_alter_eq, He.
  - done.
  - simpl. intros Hin. destruct (awaiting_running _ _ Hc _ Hin) as (e' & Ht & Hst' & _).
    the_same e' e. congruence.
Qed.

Lemma forEachAt_preserves {A} (P : State → Prop) (body : nat → A → State → State) :
  (∀ k x s, P s → P (body k x s)) →
  ∀ xs k s, P s → P (forEachAt body k xs s).
Proof. intros Hb xs. induction xs as [|x xs IH]; simpl; auto. Qed.

Lemma pauseAll_consistent clock s : consistent s → consistent (pauseAll clock s).
Proof.
  intros Hc. unfold pauseAll. apply forEachAt_preserves; [|done].
  intros. by apply pauseEvent_consistent.
Qed.

Lemma set_status_running_consistent s : consistent s → consistent (set_status running s).
Proof.
  intros [Hk Hs Ht Had Har Hp Hh Hti Hji Hjd]. split; simpl; try done.
  intros i l e Hin He Hj. destruct (Hh _ _ _ Hin He Hj) as [? _]. done.
Qed.

Lemma resumeAll_preserves (P : State → Prop) now s :
  P (set_status running s) → (∀ i t, P t → P (resumeEvent i now t)) →
  P (resumeAll now s).1.
Proof.
  intros Hs Hr. unfold resumeAll. destruct (Map_keys _); simpl; auto.
Qed.

Lemma resumeAll_consistent now s : consistent s → consistent (resumeAll now s).1.
Proof.
  intros Hc. apply resumeAll_preserves.
  - by apply set_status_running_consistent.
  - intros. by apply resumeEvent_consistent.
Qed.

Lemma removeAllByType_consistent ty s : consistent s → consistent (removeAllByType ty s).
Proof.
  intros Hc. unfold removeAllByType.
  generalize (List.filter
    (λ i, match getEvent i s with
          | Some (_, e) => bool_decide (Event.lookupName e = ty)
          | None => false
          end) (Map_keys (eventMap s))).
  intros ids. revert s Hc. induction ids as [|i ids IH]; simpl; [done|].
  intros s Hc. apply IH. by apply removeEvent_consistent.
Qed.

(** [runEvent] is entered on a scheduled object whose timer is no longer
    pending, in a scheduler that is not paused. *)
Lemma runEvent_consistent l s e :
  consistent s → heap s !! l = Some e → Event.status e = scheduled →
  (∀ t, t ∈ timers s → target t ≠ l) → status s ≠ paused →
  consistent (runEvent l s).2.
Proof.
  intros Hc He Hst Hno Hact. unfold runEvent, deref. rewrite He.
  destruct (callbackMap s !! Event.lookupName e) as [cb|] eqn:Hcb; [|done]. simpl.
  assert (l ∉ awaiting s) as Hnaw.
  { intros Hin. destruct (awaiting_running _ _ Hc _ Hin) as (e' & He' & Hst' & _).
    the_same e' e. congruence. }
  assert (consistent (update l (Event.set_status running) s)) as Hc'.
  { apply consistent_update; [done| |by intros ? ?]. intros e' He'.
    the_same e' e. do 2 (split; [done|]). split; [|split].
    - intros (t & Hin & Htg). by apply Hno in Hin.
    - done.
    - intros _. split; [done|]. intros _. split; [by right | done]. }
  destruct Hc' as [Hk Hs Ht Had Har Hp Hh Hti Hji Hjd]. split; simpl in *; try done.
  - apply NoDup_app. split; [done|]. split; [|apply NoDup_singleton].
    intros l' Hin Heq%list_elem_of_singleton. by subst l'.
  - intros l' [Hin|Heq%list_elem_of_singleton]%elem_of_app; [by apply Har|]. subst l'.
    rewrite list_lookup_alter_eq, He. simpl. eexists. split; [done|]. simpl.
    split; [done|]. by rewrite Hcb.
Qed.

Lemma dropFirst_NoDup l ls :
  NoDup ls → NoDup (dropFirst l ls) ∧ ∀ l', l' ∈ dropFirst l ls ↔ l' ∈ ls ∧ l' ≠ l.
Proof.
  induction ls as [|a ls IH]; simpl; intros Hnd.
  - split; [done|]. intros l'. split; [by intros ?%elem_of_nil | by intros [?%elem_of_nil _]].
  - apply NoDup_cons in Hnd as [Ha Hnd]. destruct (IH Hnd) as [IH1 IH2].
    destruct (decide (a = l)) as [->|Hne].
    + split; [done|]. intros l'. rewrite elem_of_cons. naive_solver.
    + split.
      * apply NoDup_cons. split; [|done]. rewrite IH2. naive_solver.
      * intros l'. rewrite !elem_of_cons, IH2. naive_solver.
Qed.

Lemma runEvent_rejected_consistent l s :
  consistent s → l ∈ awaiting s → consistent (runEvent_rejected l s).
Proof.
  intros [Hk Hs Ht Had Har Hp Hh Hti Hji Hjd] Hin. destruct (dropFirst_NoDup l _ Had) as [Hnd Hel].
  split; simpl; try done.
  - intros l' [Hin' _]%Hel. auto.
  - intros Hpa. destruct (Hp Hpa) as (_ & Haw & _). rewrite Haw in Hin.
    by apply elem_of_nil in Hin.
Qed.

Lemma runEvent_resumed_consistent l now s :
  consistent s → l ∈ awaiting s → consistent (runEvent_resumed l now s).2.
Proof.
  intros Hc Hin. unfold runEvent_resumed.
  pose proof (runEvent_rejected_consistent _ _ Hc Hin) as Hc1.
  unfold runEvent_rejected in Hc1.
  set (s1 := set_awaiting (dropFirst l (awaiting s)) s) in *.
  destruct (awaiting_running _ _ Hc _ Hin) as (e & He & Hst & Hcb).
  assert (status s ≠ paused) as Hact.
  { intros Hpa. destruct (paused_quiet _ _ Hc Hpa) as (_ & Haw & _).
    rewrite Haw in Hin. by apply elem_of_nil in Hin. }
  set (f := λ e, Event.set_jobId None (Event.set_status done e)).
  assert (consistent (update l f s1)) as Hc2.
  { apply consistent_update; [done| |by intros ? ?]. intros e' He'.
    assert (e' = e) as -> by (simpl in He'; congruence).
    do 2 (split; [done|]). split; [|split].
    - intros (t & Hint & Htg).
      destruct (timers_held _ _ Hc _ Hint) as (e' & Ht & _ & Hst' & _).
      rewrite Htg in Ht. the_same e' e. congruence.
    - simpl. intros Hin'.
      apply (dropFirst_NoDup l _ (awaiting_distinct _ _ Hc)) in Hin'. naive_solver.
    - intros _. split; [done|]. simpl. by intros [? ?]. }
  unfold deref. simpl. rewrite list_lookup_alter_eq, He. simpl.
  destruct (Event.autoRepeat e).
  - pose proof (addEvent_consistent (Event.id e) (Event.lookupName e) (Event.params e)
                  (Event.duration e) true now _ Hc2) as Hadd.
    by destruct (addEvent _ _ _ _ _ _ _) as [[?|?|] ?].
  - simpl. by apply removeEvent_consistent.
Qed.

Lemma executeImmediately_consistent i s :
  consistent s → consistent (executeImmediately i s).2.
Proof.
  intros Hc. unfold executeImmediately.
  destruct (getEvent i s) as [[l e]|] eqn:Hg; [|done].
  apply getEvent_Some in Hg as [Hl He]. apply Map_get_elem_of in Hl.
  destruct (decide (Event.status e ≠ scheduled)) as [|Hst%dec_stable]; [done|].
  assert (status s ≠ paused) as Hact.
  { intros Hpa. destruct (paused_quiet _ _ Hc Hpa) as (_ & _ & Hall).
    specialize (Hall _ _ _ Hl He). rewrite Hst in Hall. by discriminate Hall. }
  destruct (Event.jobId e) as [h|] eqn:Hj.
  - apply runEvent_consistent with (e := Event.set_jobId None e); try done.
    + apply consistent_update; [by apply consistent_clearTimeout| |by intros ? ?].
      simpl. intros e' He'. the_same e' e.
      do 2 (split; [done|]). split; [|split].
      * intros (t & [Hne Hin]%list_elem_of_filter & Htg).
        destruct (timers_held _ _ Hc _ Hin) as (e' & Ht & Hj' & _).
        rewrite Htg in Ht. the_same e' e. congruence.
      * intros Hin. destruct (awaiting_running _ _ Hc _ Hin) as (e' & Ht & Hst' & _).
        the_same e' e. congruence.
      * intros _. split; [done|]. simpl. by intros [? ?].
    + simpl. by rewrite list_lookup_alter_eq, He.
    + simpl. intros t [Hne Hin]%list_elem_of_filter Htg.
      destruct (timers_held _ _ Hc _ Hin) as (e' & Ht & Hj' & _).
      rewrite Htg in Ht. the_same e' e. congruence.
  - apply runEvent_consistent with (e := e); try done.
    intros t Hin Htg. destruct (timers_held _ _ Hc _ Hin) as (e' & Ht & Hj' & _).
    rewrite Htg in Ht. the_same e' e. congruence.
Qed.

Lemma timerFires_consistent h s : consistent s → consistent (timerFires h s).2.
Proof.
  intros Hc. unfold timerFires.
  destruct (List.find _ _) as [t|] eqn:Hf; [|done].
  apply find_some in Hf as [Hin%list_elem_of_In Hh%bool_decide_eq_true].
  destruct (timers_held _ _ Hc _ Hin) as (e & He & Hj & Hst & Htab).
  apply runEvent_consistent with (e := e); try done.
  - by apply consistent_clearTimeout.
  - simpl. intros t' [Hne Hin']%list_elem_of_filter Htg.
    destruct (timers_held _ _ Hc _ Hin') as (e' & He' & Hj' & _).
    rewrite Htg in He'. the_same e' e. congruence.
  - simpl. intros Hpa. destruct (paused_quiet _ _ Hc Hpa) as (Hts & _).
    rewrite Hts in Hin. by apply elem_of_nil in Hin.
Qed.

Lemma asEvent_jobId j e : asEvent j = Some e → Event.jobId e = None.
Proof.
  unfold asEvent. destruct j as [| | | | |ms]; try done.
  case_decide; [|done]. intros He. by simplify_option_eq.
Qed.

Lemma loadEvent_consistent j s : consistent s → consistent (loadEvent j s).2.
Proof.
  intros Hc. unfold loadEvent. destruct (statusIsLoadable j); [|done].
    destruct (from_option _ _ _); [done|].
  destruct (asEvent j) as [e|] eqn:Hj; [|done].
  change (consistent (scheduleEvent (alloc e s).1 (Some (Event.remainingTime e)) (alloc e s).2)).
  apply scheduleEvent_consistent with (e := e).
  - apply consistent_alloc; [by apply consistent_weaken | by eapply asEvent_jobId].
  - apply alloc_lookup.
  - by eapply asEvent_jobId.
  - simpl. intros Hin%(awaiting_valid _ _ _ Hc). lia.
Qed.

Lemma forEach_loadEvent_consistent js s :
  consistent s → consistent (forEach loadEvent js s).2.
Proof.
  revert s. induction js as [|j js IH]; simpl; [done|]. intros s Hc.
  pose proof (loadEvent_consistent j _ Hc) as Hc1.
  destruct (loadEvent j s) as [[[]|?|] s1]; simpl in *; auto.
Qed.

Create HintDb scheduler.

Section Reachable.
Context `{JSONCodec}.

Lemma loadEvents_consistent data s : consistent s → consistent (loadEvents data s).2.
Proof.
  intros Hc. unfold loadEvents. destruct (JSON_parse data) as [[]|]; try done.
  by apply forEach_loadEvent_consistent.
Qed.

Lemma constructor_consistent : consistent constructor.
Proof.
  split; simpl; try done; try apply NoDup_nil_2;
    try (by intros ? ?%elem_of_nil); try (by intros ? ? ?%elem_of_nil).
Qed.

Hint Extern 1 (consistent (removeEvent _ _)) => apply removeEvent_consistent : scheduler.
Hint Resolve registerCallback_consistent pauseEvent_consistent
  resumeEvent_consistent pauseAll_consistent removeAllByType_consistent
  resumeAll_consistent executeImmediately_consistent timerFires_consistent
  loadEvents_consistent runEvent_resumed_consistent runEvent_rejected_consistent
  : scheduler.

Lemma after_consistent c s :
  consistent s → possible c s = true → consistent (after c s).
Proof.
  intros Hc Hp. unfold after.
  destruct c; simpl in *; try apply bool_decide_eq_true in Hp; auto with scheduler.
  pose proof (addEvent_consistent i lookupName params duration autoRepeat now _ Hc).
  by destruct (addEvent _ _ _ _ _ _ _) as [[?|?|] ?].
Qed.

Lemma reachable_consistent s : reachable s → consistent s.
Proof.
  induction 1 as [|s c _ IH Hp]; [apply constructor_consistent|].
  by apply after_consistent.
Qed.

Lemma run_reachable cs s s' : reachable s → run cs s = Some s' → reachable s'.
Proof.
  revert s. induction cs as [|c cs IH]; simpl; intros s Hr.
  - by intros [= <-].
  - destruct (possible c s) eqn:Hp; [|done]. apply IH. by apply reachable_step.
Qed.
End Reachable.

(** ** What [addEvent] does *)

Lemma Map_get_set_eq {V} k (v : V) m : Map_get k (Map_set k v m) = Some v.
Proof.
  induction m as [|[k' v'] m IH]; simpl.
  - by rewrite decide_True.
  - destruct (decide (k' = k)); simpl.
    + by rewrite decide_True.
    + by rewrite decide_False.
Qed.

Lemma removeEvent_alloc_timers i e s :
  Event.jobId e = None → timers (removeEvent i (alloc e s).2) = timers (removeEvent i s).
Proof.
  intros Hj. unfold removeEvent, getEvent, deref. simpl.
  destruct (Map_get i (eventMap s)) as [l0|]; [|done].
  destruct (heap s !! l0) as [e0|] eqn:E0.
  - rewrite (lookup_app_l_Some _ _ _ _ E0). by destruct (Event.jobId e0).
  - destruct ((heap s ++ [e]) !! l0) as [e1|] eqn:E1; [|done].
    apply lookup_app_Some in E1 as [E1|[_ E1]]; [congruence|].
    apply list_lookup_singleton_Some in E1 as [_ <-]. by rewrite Hj.
Qed.

(** The call succeeds on a registered name; the new object is stored under
    [i], paused in a paused scheduler and armed for [d] otherwise. *)
Lemma addEvent_registered i n p d r now s cb :
  callbackMap s !! n = Some cb →
  ∃ s', addEvent i n p d r now s = (Normal i, s') ∧
    status s' = status s ∧ callbackMap s' = callbackMap s ∧ awaiting s' = awaiting s ∧
    (∀ l', (l' < length (heap s))%nat → heap s' !! l' = heap s !! l') ∧
    if decide (status s = paused) then
      getEvent i s' = Some (length (heap s), Event.mk i n p paused now d d r None)
      ∧ timers s' = timers (removeEvent i s) ∧ nextTimeout s' = nextTimeout s
    else
      getEvent i s' =
        Some (length (heap s), Event.mk i n p scheduled now d d r (Some (nextTimeout s)))
      ∧ timers s' = timers (removeEvent i s) ++ [mkTimer (nextTimeout s) (length (heap s)) d]
      ∧ nextTimeout s' = S (nextTimeout s).
Proof.
  intros Hcb. unfold addEvent. rewrite Hcb.
  set (e := Event.mk _ _ _ _ _ _ _ _ _).
  change (let '(l, s1) := alloc e s in (Normal i, scheduleEvent l None s1))
    with (Normal i, scheduleEvent (alloc e s).1 None (alloc e s).2).
  eexists. split; [done|].
  rewrite (scheduleEvent_result _ _ _ e (alloc_lookup e s)). cbv zeta.
  assert ((if decide (Event.remainingTime e ≤ 0)
           then Event.duration e else Event.remainingTime e) = d) as ->
    by (by case_decide).
  pose proof (removeEvent_alloc_timers i e s eq_refl) as Hts.
  change (Event.id e) with i. change (status (alloc e s).2) with (status s).
  unfold getEvent, deref.
  destruct (decide (status s = paused)) as [Hpa|Hact]; simpl.
  - do 3 (split; [done|]). split.
    { intros l' Hl'. rewrite list_lookup_insert_ne by lia. by apply lookup_app_l. }
    rewrite Map_get_set_eq, list_lookup_insert_eq by (rewrite length_app; simpl; lia).
    done.
  - do 3 (split; [done|]). split.
    { intros l' Hl'. rewrite list_lookup_insert_ne by lia. by apply lookup_app_l. }
    rewrite Map_get_set_eq, list_lookup_insert_eq by (rewrite length_app; simpl; lia).
    simpl in *. by rewrite Hts.
Qed.

(** ** The scheduler status is written by [resumeAll] only *)

Lemma scheduleEvent_status l delay s : status (scheduleEvent l delay s) = status s.
Proof.
  destruct (heap s !! l) as [e|] eqn:He.
  - rewrite (scheduleEvent_result _ _ _ _ He). cbv zeta. by case_decide.
  - unfold scheduleEvent, deref. by rewrite He.
Qed.

Lemma addEvent_status i n p d r now s : status (addEvent i n p d r now s).2 = status s.
Proof.
  unfold addEvent. destruct (callbackMap s !! n); [|done].
  simpl. by rewrite scheduleEvent_status.
Qed.

Lemma pauseEvent_status i now s : status (pauseEvent i now s) = status s.
Proof.
  unfold pauseEvent. destruct (getEvent i s) as [[l e]|]; [|done].
  case_decide; [done|]. by destruct (Event.jobId e).
Qed.

Lemma resumeEvent_status i now s : status (resumeEvent i now s) = status s.
Proof.
  unfold resumeEvent. destruct (getEvent i s) as [[l e]|]; [|done].
  case_decide; [done|]. by rewrite scheduleEvent_status.
Qed.

Lemma forEachAt_status {A} (body : nat → A → State → State) :
  (∀ k x s, status (body k x s) = status s) →
  ∀ xs k s, status (forEachAt body k xs s) = status s.
Proof.
  intros Hb xs. induction xs as [|x xs IH]; simpl; [done|].
  intros k s. by rewrite IH, Hb.
Qed.

Lemma pauseAll_status clock s : status (pauseAll clock s) = status s.
Proof. unfold pauseAll. apply forEachAt_status. intros. apply pauseEvent_status. Qed.

Lemma resumeAll_status now s : status (resumeAll now s).1 = running.
Proof.
  apply (resumeAll_preserves (λ t, status t = running)); [done|].
  intros i t Ht. by rewrite resumeEvent_status.
Qed.

Lemma removeAllByType_status ty s : status (removeAllByType ty s) = status s.
Proof.
  unfold removeAllByType.
  generalize (List.filter
    (λ i, match getEvent i s with
          | Some (_, e) => bool_decide (Event.lookupName e = ty)
          | None => false
          end) (Map_keys (eventMap s))).
  intros ids. revert s. induction ids as [|i ids IH]; simpl; [done|].
  intros s. by rewrite IH, removeEvent_status.
Qed.

Lemma runEvent_status l s : status (runEvent l s).2 = status s.
Proof.
  unfold runEvent. destruct (deref l s) as [e|]; [|done].
  by destruct (callbackMap s !! Event.lookupName e).
Qed.

Lemma runEvent_resumed_status l now s : status (runEvent_resumed l now s).2 = status s.
Proof.
  unfold runEvent_resumed. destruct (deref l _) as [e|]; [|done].
  destruct (Event.autoRepeat e).
  - pose proof (addEvent_status (Event.id e) (Event.lookupName e) (Event.params e)
                  (Event.duration e) true now
                  (update l (λ e, Event.set_jobId None (Event.set_status done e))
                     (set_awaiting (dropFirst l (awaiting s)) s))) as Hs.
    by destruct (addEvent _ _ _ _ _ _ _) as [[?|?|] ?].
  - simpl. by rewrite removeEvent_status.
Qed.

Lemma executeImmediately_status i s : status (executeImmediately i s).2 = status s.
Proof.
  unfold executeImmediately. destruct (getEvent i s) as [[l e]|]; [|done].
  case_decide; [done|]. rewrite runEvent_status. by destruct (Event.jobId e).
Qed.

Lemma timerFires_status h s : status (timerFires h s).2 = status s.
Proof.
  unfold timerFires. destruct (List.find _ _); [|done]. by rewrite runEvent_status.
Qed.

Lemma forEach_loadEvent_status js s : status (forEach loadEvent js s).2 = status s.
Proof.
  revert s. induction js as [|j js IH]; simpl; [done|]. intros s.
  assert (status (loadEvent j s).2 = status s) as Hs.
  { unfold loadEvent. destruct (statusIsLoadable j); [|done].
    destruct (from_option _ _ _); [done|].
    destruct (asEvent j); [|done]. simpl. by rewrite scheduleEvent_status. }
  destruct (loadEvent j s) as [[[]|?|] s1]; simpl in *; [|done..].
  by rewrite IH.
Qed.

Section StatusWrites.
Context `{JSONCodec}.

Lemma loadEvents_status data s : status (loadEvents data s).2 = status s.
Proof.
  unfold loadEvents. destruct (JSON_parse data) as [[]|]; try done.
  apply forEach_loadEvent_status.
Qed.

Lemma after_status c s : status (after c s) = status s ∨ status (after c s) = running.
Proof.
  unfold after. destruct c; simpl;
    rewrite ?pauseEvent_status, ?resumeEvent_status, ?removeEvent_status,
      ?pauseAll_status, ?removeAllByType_status, ?resumeAll_status,
      ?executeImmediately_status, ?loadEvents_status, ?timerFires_status,
      ?runEvent_resumed_status; auto.
  - left. unfold registerCallback. by destruct (callbackMap s !! lookupName).
  - left. pose proof (addEvent_status i lookupName params duration autoRepeat now s).
    by destruct (addEvent _ _ _ _ _ _ _) as [[?|?|] ?].
Qed.

(** Once resumed, a scheduler is never paused again. *)
Lemma run_stays_active cs s s' :
  status s ≠ paused → run cs s = Some s' → status s' ≠ paused.
Proof.
  revert s. induction cs as [|c cs IH]; simpl; intros s Hact.
  - by intros [= <-].
  - destruct (possible c s); [|done]. apply IH.
    destruct (after_status c s) as [-> | ->]; done.
Qed.

Lemma run_stays_running cs s s' :
  status s = running → run cs s = Some s' → status s' = running.
Proof.
  revert s. induction cs as [|c cs IH]; simpl; intros s Hact.
  - by intros [= <-].
  - destruct (possible c s); [|done]. apply IH.
    destruct (after_status c s) as [-> | ->]; done.
Qed.
End StatusWrites.

(** ** The timers that [clearTimeout] cancels *)

Lemma filter_ext_elem {A} (P1 P2 : A → Prop)
    `{!∀ x, Decision (P1 x), !∀ x, Decision (P2 x)} (l : list A) :
  (∀ x, x ∈ l → (P1 x ↔ P2 x)) → filter P1 l = filter P2 l.
Proof.
  induction l as [|a l IH]; [done|]. intros Hiff.
  assert (filter P1 l = filter P2 l) as IH'.
  { apply IH. intros x Hx. apply Hiff. by right. }
  destruct (decide (P1 a)) as [Ha|Ha].
  - rewrite !filter_cons_True; [by rewrite IH'| |done]. apply Hiff; [left|done].
  - rewrite !filter_cons_False; [done| |done]. intros Ha2. apply Ha, Hiff; [left|done].
Qed.

(** In a consistent scheduler a handle belongs to one object: clearing the
    handle of the object at [l] cancels the timers of [l] and no other. *)
Lemma clearTimeout_own x s l e h :
  consistent_but x s → heap s !! l = Some e → Event.jobId e = Some h →
  filter (λ t, handle t ≠ h) (timers s) = filter (λ t, target t ≠ l) (timers s).
Proof.
  intros Hc He Hj. apply filter_ext_elem. intros t Hin.
  destruct (timers_held _ _ Hc _ Hin) as (e' & He' & Hj' & _). split.
  - intros Hne Heq. rewrite Heq in He'. congruence.
  - intros Hne Heq. apply Hne. rewrite <- Heq in Hj.
    by eapply (jobs_distinct _ _ Hc).
Qed.

Lemma no_handle_no_timer x s l e t :
  consistent_but x s → heap s !! l = Some e → Event.jobId e = None →
  t ∈ timers s → target t ≠ l.
Proof.
  intros Hc He Hj Hin Heq. destruct (timers_held _ _ Hc _ Hin) as (e' & He' & Hj' & _).
  rewrite Heq in He'. congruence.
Qed.


(** * The claims *)

Section Claims.
Context `{JSONCodec}.

(** C6.  For every name that is not in the handler registry, [addEvent]
    with that name throws and leaves the scheduler as it was: no event is
    created, and the event stored under the supplied id, if any, is
    neither removed nor replaced. *)
Theorem addEvent_unregistered i n p d r now s :
  callbackMap s !! n = None →
  addEvent i n p d r now s
  = (Throw (Error ("No callback registered for '" +:+ n +:+ "'.")), s)
  ∧ getEvent i (addEvent i n p d r now s).2 = getEvent i s
  ∧ eventMap (addEvent i n p d r now s).2 = eventMap s.
Proof. intros Hn. unfold addEvent. by rewrite Hn. Qed.

(** C10, amended.  For every [addEvent] call with a registered handler
    and a non-positive duration the call succeeds, and the re-arm rule
    resets [remainingTime] to [duration], the same non-positive value.  On
    a scheduler that is not paused a timer is armed whose delay is that
    duration; on a paused scheduler the event is stored paused and no
    timer is armed. *)
Theorem addEvent_nonpositive_duration i n p d r now s cb :
  callbackMap s !! n = Some cb → d ≤ 0 →
  ∃ s' l e,
    addEvent i n p d r now s = (Normal i, s') ∧
    getEvent i s' = Some (l, e) ∧
    Event.remainingTime e = d ∧ Event.duration e = d ∧
    if decide (status s = paused) then
      Event.status e = paused ∧ Event.jobId e = None ∧
      timers s' = timers (removeEvent i s)
    else
      Event.status e = scheduled ∧
      ∃ t, Event.jobId e = Some (handle t) ∧ last (timers s') = Some t ∧
           target t = l ∧ delay t = d ∧ delay t ≤ 0 ∧ handle t = nextTimeout s.
Proof.
  intros Hcb Hd.
  destruct (addEvent_registered i n p d r now s cb Hcb) as (s' & Hadd & _ & _ & _ & _ & Hres).
  exists s', (length (heap s)).
  destruct (decide (status s = paused)) as [Hpa|Hact]; destruct Hres as (Hget & Hts & _).
  - eexists. do 4 (split; [done|]). done.
  - eexists. do 4 (split; [done|]). split; [done|].
    exists (mkTimer (nextTimeout s) (length (heap s)) d).
    split; [done|]. split; [|done]. rewrite Hts. apply last_snoc.
Qed.

(** C9.  [pauseAll] does not write the scheduler status.  If the
    scheduler was active before, it is active after the loop and after
    any further steps [cs] (calls by handlers, timers firing and handlers
    completing while [pauseAll] waits, or later); an event added then is
    armed as scheduled, not created paused, and so is the re-add of an
    auto-repeating event whose handler completes then. *)
Theorem pauseAll_leaves_status clock s cs s1 :
  status s ≠ paused → run cs (pauseAll clock s) = Some s1 →
  status (pauseAll clock s) = status s ∧ status s1 ≠ paused ∧
  (∀ i n p d r now cb, callbackMap s1 !! n = Some cb →
     ∃ s2 l e h, addEvent i n p d r now s1 = (Normal i, s2) ∧
       getEvent i s2 = Some (l, e) ∧ Event.status e = scheduled ∧
       Event.jobId e = Some h ∧ mkTimer h l d ∈ timers s2) ∧
  (∀ l e now, heap s1 !! l = Some e → Event.autoRepeat e = true →
     is_Some (callbackMap s1 !! Event.lookupName e) →
     ∃ s2 l' e' h, runEvent_resumed l now s1 = (Normal (), s2) ∧
       getEvent (Event.id e) s2 = Some (l', e') ∧ Event.status e' = scheduled ∧
       Event.jobId e' = Some h ∧ mkTimer h l' (Event.duration e) ∈ timers s2).
Proof.
  intros Hact Hrun. split; [apply pauseAll_status|].
  assert (status s1 ≠ paused) as Hact1.
  { eapply run_stays_active; [|done]. by rewrite pauseAll_status. }
  split; [done|]. split.
  - intros i n p d r now cb Hcb.
    destruct (addEvent_registered i n p d r now s1 cb Hcb)
      as (s2 & Hadd & _ & _ & _ & _ & Hres).
    rewrite decide_False in Hres by done. destruct Hres as (Hget & Hts & _).
    eexists s2, _, _, _. split; [done|]. split; [done|]. do 2 (split; [done|]).
    rewrite Hts. apply elem_of_app. right. by apply list_elem_of_singleton.
  - intros l e now He Hrep [cb Hcb]. unfold runEvent_resumed, deref. simpl.
    rewrite list_lookup_alter_eq, He. simpl. rewrite Hrep.
    set (s' := update l _ _).
    destruct (addEvent_registered (Event.id e) (Event.lookupName e) (Event.params e)
                (Event.duration e) true now s' cb Hcb)
      as (s2 & Hadd & _ & _ & _ & _ & Hres).
    rewrite decide_False in Hres by done. destruct Hres as (Hget & Hts & _).
    rewrite Hadd. eexists s2, _, _, _. split; [done|]. split; [done|].
    do 2 (split; [done|]).
    rewrite Hts. apply elem_of_app. right. by apply list_elem_of_singleton.
Qed.

End Claims.

(** C7, amended.  [pauseEvent] changes nothing unless the event exists, its
    status is scheduled and it holds a timer handle.  When it applies it
    cancels the timer of that handle, subtracts [now - addedAtTime] from
    [remainingTime], sets the status to paused and clears the handle; the
    other fields of the event, the other objects, the table and the rest of
    the scheduler are unchanged, and in a consistent scheduler the timers
    cancelled are exactly those of this event. *)
Theorem pauseEvent_effect i now s :
  (∀ l e h, getEvent i s = Some (l, e) → Event.status e = scheduled →
     Event.jobId e = Some h →
     let s' := pauseEvent i now s in
     timers s' = filter (λ t, handle t ≠ h) (timers s)
     ∧ (consistent s → timers s' = filter (λ t, target t ≠ l) (timers s))
     ∧ heap s' !! l =
         Some (Event.mk (Event.id e) (Event.lookupName e) (Event.params e) paused
                 (Event.addedAtTime e)
                 (Event.remainingTime e - (now - Event.addedAtTime e))
                 (Event.duration e) (Event.autoRepeat e) None)
     ∧ (∀ l', l' ≠ l → heap s' !! l' = heap s !! l')
     ∧ eventMap s' = eventMap s ∧ callbackMap s' = callbackMap s
     ∧ status s' = status s ∧ nextTimeout s' = nextTimeout s
     ∧ awaiting s' = awaiting s)
  ∧ ((¬ ∃ l e h, getEvent i s = Some (l, e) ∧ Event.status e = scheduled
                 ∧ Event.jobId e = Some h) →
     pauseEvent i now s = s).
Proof.
  split.
  - intros l e h Hg Hst Hj. unfold pauseEvent. rewrite Hg.
    rewrite decide_False by (by rewrite Hst; intros ?). rewrite Hj.
    apply getEvent_Some in Hg as [Hl He]. simpl.
    split; [done|]. split; [intros Hc; by eapply clearTimeout_own|].
    split; [by rewrite list_lookup_alter_eq, He; destruct e|].
    split; [|done]. intros l' Hne. by apply list_lookup_alter_ne.
  - intros Hno. unfold pauseEvent.
    destruct (getEvent i s) as [[l e]|] eqn:Hg; [|done].
    case_decide as Hst; [done|].
    destruct (Event.jobId e) as [h|] eqn:Hj; [|done].
    destruct Hno. by exists l, e, h.
Qed.

(** * Instances on the sample runs *)

Section Samples.
#[local] Existing Instance JSONText.codec.

Lemma run_the cs s :
  run cs constructor = Some s → reachable s.
Proof. intros Hrun. eapply run_reachable; [apply reachable_constructor | exact Hrun]. Qed.

Lemma addEvent_unregistered_witness :
  callbackMap constructor !! "ghost" = None ∧
  addEvent "e1" "ghost" Examples.noParams 100 false 0 constructor
  = (Throw (Error "No callback registered for 'ghost'."), constructor).
Proof.
  split; [reflexivity|].
  apply (addEvent_unregistered "e1" "ghost" Examples.noParams 100 false 0 constructor).
  reflexivity.
Defined.

Lemma addEvent_nonpositive_duration_witness :
  let s := Examples.the (run Examples.started constructor) in
  ∃ s' l e,
    addEvent "e1" "ping" Examples.noParams (-5) false 0 s = (Normal "e1", s') ∧
    getEvent "e1" s' = Some (l, e) ∧
    Event.remainingTime e = -5 ∧ Event.duration e = -5 ∧
    if decide (status s = paused) then
      Event.status e = paused ∧ Event.jobId e = None ∧
      timers s' = timers (removeEvent "e1" s)
    else
      Event.status e = scheduled ∧
      ∃ t, Event.jobId e = Some (handle t) ∧ last (timers s') = Some t ∧
           target t = l ∧ delay t = -5 ∧ delay t ≤ 0 ∧ handle t = nextTimeout s.
Proof.
  intros s.
  apply (addEvent_nonpositive_duration "e1" "ping" Examples.noParams (-5) false 0 s
           Examples.ping).
  - vm_compute. reflexivity.
  - lia.
Defined.

(** C10, as stated, fails on a paused scheduler: the call succeeds and no
    timer is armed. *)
Lemma addEvent_paused_arms_nothing :
  let s := Examples.the (run [CallRegisterCallback "ping" Examples.ping] constructor) in
  callbackMap s !! "ping" = Some Examples.ping ∧
  ∃ s', addEvent "e1" "ping" Examples.noParams (-5) false 0 s = (Normal "e1", s')
        ∧ timers s' = [].
Proof. split; [vm_compute; reflexivity|]. eexists. split; vm_compute; reflexivity. Qed.

Lemma pauseAll_leaves_status_witness :
  let s := Examples.the (run Examples.one_armed constructor) in
  let s0 := pauseAll (Examples.at_ 40) s in
  let s1 := Examples.the (run [CallRemoveEvent "e1"] s0) in
  status s0 = status s ∧ status s1 ≠ paused.
Proof.
  intros s s0 s1.
  destruct (pauseAll_leaves_status (Examples.at_ 40) s [CallRemoveEvent "e1"] s1)
    as (H1 & H2 & _).
  - vm_compute. discriminate.
  - vm_compute. reflexivity.
  - split; assumption.
Defined.

(** C3, as stated, fails while a handler runs: the event of a timer that
    fired is running and still holds its handle. *)
Lemma running_event_holds_handle :
  ∃ s l e, run Examples.handler_running constructor = Some s ∧
           getEvent "e1" s = Some (l, e) ∧ Event.jobId e = Some 0%nat ∧
           Event.status e = running ∧ Event.status e ≠ scheduled.
Proof.
  eexists _, _, _. split; [vm_compute; reflexivity|].
  split; [vm_compute; reflexivity|]. simpl. done.
Qed.



(** C5, as stated, fails on an array whose second record cannot be logged:
    [loadEvents] throws, and the first record has been loaded. *)
Lemma loadEvents_throws_after_partial_load :
  ∃ first bad s' l e,
    JSON_parse Examples.unloggableData = Some (JArr [first; bad]) ∧
    loadEvents Examples.unloggableData constructor = (Throw TypeError, s') ∧
    getEvent "a" s' = Some (l, e) ∧ getEvent "a" constructor = None ∧
    getEvent "b" s' = None.
Proof.
  eexists _, _, _, _, _. split; [vm_compute; reflexivity|].
  split; [vm_compute; reflexivity|]. split; [vm_compute; reflexivity|].
  split; vm_compute; reflexivity.
Qed.

(** The members of a record are read by name: the record is loaded
    whatever the order in which it lists them. *)
Lemma loadEvents_reads_by_name :
  ∃ s', loadEvents Examples.reorderedData constructor = (Normal (), s') ∧
        getEvent "a" s'
        = Some (0%nat, Event.mk "a" "ping" Examples.noParams paused 0 5 5 false None).
Proof. eexists. split; vm_compute; reflexivity. Qed.

(** C7, as stated, fails on a scheduled event without a handle, which
    [executeImmediately] leaves behind when the handler is missing:
    [pauseEvent] does not pause it. *)
Lemma pauseEvent_scheduled_without_handle :
  ∃ s l e, run Examples.ghost_executed constructor = Some s ∧
           getEvent "g" s = Some (l, e) ∧ Event.status e = scheduled ∧
           Event.jobId e = None ∧ pauseEvent "g" 10 s = s ∧
           ∃ e', getEvent "g" (pauseEvent "g" 10 s) = Some (l, e') ∧ Event.status e' ≠ paused.
Proof.
  eexists _, _, _. split; [vm_compute; reflexivity|].
  split; [vm_compute; reflexivity|]. do 3 (split; [vm_compute; reflexivity|]).
  eexists. split; [vm_compute; reflexivity|]. simpl. done.
Qed.

(** C1.  The delay that [resumeEvent] and [loadEvents] hand to
    [scheduleEvent] is read before the re-arm rule runs: an event paused
    after its time was spent is resumed with [remainingTime] reset to 100
    and a timer armed for -50, and a persisted event with [remainingTime] 0
    is loaded with [remainingTime] 100 and a timer armed for 0. *)
Lemma rearm_rule_misses_delay :
  (∃ s0 s l e e0,
     run Examples.paused_late constructor = Some s0 ∧
     getEvent "e1" s0 = Some (l, e0) ∧ Event.remainingTime e0 = -50 ∧
     Event.duration e0 = 100 ∧
     resumeEvent "e1" 200 s0 = s ∧
     getEvent "e1" s = Some (l, e) ∧ Event.remainingTime e = 100 ∧
     timers s = [mkTimer 1%nat l (-50)])
  ∧
  (∃ s0 s l e,
     run Examples.started constructor = Some s0 ∧
     loadEvents Examples.spentData s0 = (Normal (), s) ∧
     getEvent "z" s = Some (l, e) ∧ Event.remainingTime e = 100 ∧
     timers s = [mkTimer 0%nat l 0]).
Proof.
  split.
  - eexists _, _, _, _, _. split; [vm_compute; reflexivity|].
    split; [vm_compute; reflexivity|]. do 2 (split; [reflexivity|]).
    split; [reflexivity|]. split; [vm_compute; reflexivity|].
    split; [reflexivity|]. vm_compute. reflexivity.
  - eexists _, _, _, _. split; [vm_compute; reflexivity|].
    split; [vm_compute; reflexivity|]. split; [vm_compute; reflexivity|].
    split; [reflexivity|]. vm_compute. reflexivity.
Qed.
End Samples.

(** ** The firing path *)

Lemma Map_get_delete_eq {V} k (m : list (string * V)) : Map_get k (Map_delete k m) = None.
Proof. apply Map_get_None, Map_delete_absent. Qed.

Lemma getEvent_removeEvent i s : getEvent i (removeEvent i s) = None.
Proof.
  unfold removeEvent. destruct (getEvent i s) as [[l e]|] eqn:Hg; [|done].
  unfold getEvent. simpl.
  assert (eventMap (match Event.jobId e with
                    | Some h => clearTimeout h s
                    | None => s
                    end) = eventMap s) as -> by (by destruct (Event.jobId e)).
  by rewrite Map_get_delete_eq.
Qed.

Section Firing.
Context `{JSONCodec}.

(** C8.  When the handler of an event completes, in any reachable state,
    the status of the event object is set to done and its timer handle is
    cleared; then, if [autoRepeat] is true, an event with the same id,
    name, params and duration and [autoRepeat = true] is stored under the
    id, scheduled and armed with a timer of a handle never issued before;
    otherwise no event is stored under the id. *)
Theorem runEvent_resumed_postcondition s l now :
  reachable s → l ∈ awaiting s →
  ∃ e s', heap s !! l = Some e ∧
    runEvent_resumed l now s = (Normal (), s') ∧
    heap s' !! l = Some (Event.set_jobId None (Event.set_status done e)) ∧
    if Event.autoRepeat e then
      ∃ l', l' ≠ l ∧
        getEvent (Event.id e) s'
        = Some (l', Event.mk (Event.id e) (Event.lookupName e) (Event.params e) scheduled
                      now (Event.duration e) (Event.duration e) true
                      (Some (nextTimeout s))) ∧
        mkTimer (nextTimeout s) l' (Event.duration e) ∈ timers s' ∧
        (∀ t, t ∈ timers s → handle t ≠ nextTimeout s) ∧
        (∀ l0 e0, heap s !! l0 = Some e0 → Event.jobId e0 ≠ Some (nextTimeout s))
    else Map_get (Event.id e) (eventMap s') = None.
Proof.
  intros Hc%reachable_consistent Hin.
  pose proof (runEvent_resumed_consistent l now s Hc Hin) as Hc'.
  destruct (awaiting_running _ _ Hc _ Hin) as (e & He & Hst & [cb Hcb]).
  assert (status s ≠ paused) as Hact.
  { intros Hpa. destruct (paused_quiet _ _ Hc Hpa) as (_ & Haw & _).
    rewrite Haw in Hin. by apply elem_of_nil in Hin. }
  exists e. unfold runEvent_resumed, deref. simpl.
  rewrite list_lookup_alter_eq, He. simpl.
  set (s2 := update l _ _).
  assert (heap s2 !! l = Some (Event.set_jobId None (Event.set_status done e))) as He2.
  { unfold s2. simpl. by rewrite list_lookup_alter_eq, He. }
  assert (length (heap s2) = length (heap s)) as Hlen.
  { unfold s2. simpl. by rewrite length_alter. }
  pose proof (lookup_lt_Some _ _ _ He) as Hl.
  destruct (Event.autoRepeat e) eqn:Hrep.
  - destruct (addEvent_registered (Event.id e) (Event.lookupName e) (Event.params e)
                (Event.duration e) true now s2 cb Hcb)
      as (s' & Hadd & _ & _ & _ & Hframe & Hres).
    rewrite decide_False in Hres by done. destruct Hres as (Hget & Hts & _).
    rewrite Hadd. exists s'. split; [done|]. split; [done|].
    split; [by rewrite Hframe; [|lia]|].
    exists (length (heap s2)). split; [lia|]. split; [exact Hget|]. split.
    { rewrite Hts. apply elem_of_app. right. by apply list_elem_of_singleton. }
    split.
    + intros t Ht. pose proof (timers_issued _ _ Hc _ Ht). lia.
    + intros l0 e0 He0 Hj. pose proof (jobs_issued _ _ Hc _ _ _ He0 Hj). lia.
  - unfold runEvent_resumed, deref in Hc'. simpl in Hc'.
    rewrite list_lookup_alter_eq, He in Hc'. simpl in Hc'. rewrite Hrep in Hc'.
    simpl in Hc'. fold s2 in Hc'.
    eexists. split; [done|]. split; [done|].
    rewrite removeEvent_heap. split; [done|].
    pose proof (getEvent_removeEvent (Event.id e) s2) as Hnone.
    destruct (Map_get (Event.id e) (eventMap (removeEvent (Event.id e) s2)))
      as [l0|] eqn:Hl0; [|done].
    apply Map_get_elem_of in Hl0 as Hin0.
    destruct (stored_under_id _ _ Hc' _ _ Hin0) as (e0 & He0 & _).
    unfold getEvent, deref in Hnone. by rewrite Hl0, He0 in Hnone.
Qed.
End Firing.

Section FiringSample.
#[local] Existing Instance JSONText.codec.

Lemma runEvent_resumed_postcondition_witness :
  let s := Examples.the (run Examples.repeating_running constructor) in
  ∃ e s', heap s !! 0%nat = Some e ∧
    runEvent_resumed 0%nat 130 s = (Normal (), s') ∧
    heap s' !! 0%nat = Some (Event.set_jobId None (Event.set_status done e)) ∧
    if Event.autoRepeat e then
      ∃ l', l' ≠ 0%nat ∧
        getEvent (Event.id e) s'
        = Some (l', Event.mk (Event.id e) (Event.lookupName e) (Event.params e) scheduled
                      130 (Event.duration e) (Event.duration e) true
                      (Some (nextTimeout s))) ∧
        mkTimer (nextTimeout s) l' (Event.duration e) ∈ timers s' ∧
        (∀ t, t ∈ timers s → handle t ≠ nextTimeout s) ∧
        (∀ l0 e0, heap s !! l0 = Some e0 → Event.jobId e0 ≠ Some (nextTimeout s))
    else Map_get (Event.id e) (eventMap s') = None.
Proof.
  intros s. apply (runEvent_resumed_postcondition s 0%nat 130).
  - apply (run_the Examples.repeating_running). vm_compute. reflexivity.
  - vm_compute. left.
Defined.
End FiringSample.

(** ** [resumeEvent] and [resumeAll] *)

Lemma insert_alter_eq (f : Event.t → Event.t) l (h : list Event.t) x :
  <[l := x]> (alter f l h) = <[l := x]> h.
Proof.
  apply list_eq. intros l'. destruct (decide (l = l')) as [<-|Hne].
  - destruct (decide (l < length h)%nat).
    + rewrite !list_lookup_insert_eq; [done..|by rewrite length_alter].
    + rewrite !list_insert_ge by (rewrite ?length_alter; lia).
      rewrite list_lookup_alter_eq. rewrite (lookup_ge_None_2 h l) by lia. done.
  - by rewrite !list_lookup_insert_ne, list_lookup_alter_ne.
Qed.

Lemma paused_no_handle x s i l e :
  consistent_but x s → (i, l) ∈ eventMap s → heap s !! l = Some e →
  Event.status e = paused → Event.jobId e = None.
Proof.
  intros Hc Hl He Hst. destruct (Event.jobId e) eqn:Hj; [|done].
  destruct (handle_held _ _ Hc _ _ _ Hl He) as [[?|?] _]; [by rewrite Hj|congruence..].
Qed.

(** The state in which [resumeEvent] leaves a paused event of an active
    scheduler: the key moves to the end of the table and a timer is armed
    for the [remainingTime] the event had. *)
Lemma resumeEvent_paused i now s l e :
  consistent s → status s ≠ paused → getEvent i s = Some (l, e) →
  Event.status e = paused →
  resumeEvent i now s =
  mkState (Map_delete i (eventMap s) ++ [(i, l)]) (callbackMap s) (status s)
    (<[l := Event.mk i (Event.lookupName e) (Event.params e) scheduled now (rearmed e)
              (Event.duration e) (Event.autoRepeat e) (Some (nextTimeout s))]> (heap s))
    (timers s ++ [mkTimer (nextTimeout s) l (Event.remainingTime e)])
    (S (nextTimeout s)) (awaiting s).
Proof.
  intros Hc Hact Hg Hst. unfold resumeEvent. rewrite Hg.
  rewrite decide_False by (by rewrite Hst; intros ?).
  apply getEvent_Some in Hg as [Hl He]. pose proof (Map_get_elem_of _ _ _ Hl) as Hin.
  destruct (stored_under_id _ _ Hc _ _ Hin) as (e0 & He0 & Hid).
  the_same e0 e.
  pose proof (paused_no_handle _ _ _ _ _ Hc Hin He Hst) as Hj.
  set (g := λ e, Event.set_addedAtTime now (Event.set_status scheduled e)).
  set (s1 := update l g s).
  assert (heap s1 !! l = Some (g e)) as He1.
  { unfold s1. simpl. by rewrite list_lookup_alter_eq, He. }
  assert (consistent s1) as Hc1.
  { apply consistent_update; [done| |by intros ? ?].
    intros e' He'. the_same e' e.
    do 2 (split; [done|]). split; [|split].
    - intros (t & Ht & Htg). by eapply (no_handle_no_timer _ _ _ _ _ Hc He Hj) in Ht.
    - intros Haw. destruct (awaiting_running _ _ Hc _ Haw) as (e' & Ht & Hst' & _).
      the_same e' e. congruence.
    - intros _. split; [done|]. simpl. rewrite Hj. by intros [? ?]. }
  rewrite (scheduleEvent_result _ _ _ _ He1). cbv zeta.
  rewrite decide_False by done.
  change (Event.id (g e)) with (Event.id e). rewrite Hid.
  rewrite (removeEvent_eventMap _ i _ Hc1).
  rewrite (Map_set_fresh _ _ _ (Map_delete_absent _ _)).
  assert (timers (removeEvent i s1) = timers s) as ->.
  { unfold removeEvent, getEvent, deref. change (eventMap s1) with (eventMap s).
    rewrite Hl, He1. simpl. by rewrite Hj. }
  unfold s1. simpl. rewrite insert_alter_eq. f_equal.
  destruct e; simpl in *. by subst.
Qed.

Lemma Map_get_delete_ne {V} k k' (m : list (string * V)) :
  k' ≠ k → Map_get k' (Map_delete k m) = Map_get k' m.
Proof.
  intros Hne. induction m as [|[k0 v] m IH]; simpl; [done|].
  destruct (decide (k0 = k)) as [->|Hk]; simpl.
  - by rewrite decide_False.
  - by rewrite IH.
Qed.

Lemma Map_get_snoc_ne {V} k k' (v : V) m :
  k' ≠ k → Map_get k' (m ++ [(k, v)]) = Map_get k' m.
Proof.
  intros Hne. induction m as [|[k0 v0] m IH]; simpl.
  - by rewrite decide_False.
  - by rewrite IH.
Qed.

Lemma table_injective x s i i' l :
  consistent_but x s → (i, l) ∈ eventMap s → (i', l) ∈ eventMap s → i = i'.
Proof.
  intros Hc H1 H2.
  destruct (stored_under_id _ _ Hc _ _ H1) as (e & He & <-).
  destruct (stored_under_id _ _ Hc _ _ H2) as (e' & He' & <-). congruence.
Qed.

(** One pass of the loop of [resumeAll]. *)
Lemma resumeEvent_step i0 now t :
  consistent t → status t ≠ paused →
  let t1 := resumeEvent i0 now t in
  consistent t1 ∧ status t1 ≠ paused ∧
  (∀ i, i ≠ i0 → getEvent i t1 = getEvent i t) ∧
  nextTimeout t1 = (nextTimeout t + (if pausedEvent t i0 then 1 else 0))%nat ∧
  (∀ tm, tm ∈ timers t → tm ∈ timers t1) ∧
  (∀ tm, tm ∈ timers t1 →
     tm ∈ timers t ∨ ∃ l e, getEvent i0 t = Some (l, e) ∧ Event.status e = paused
                            ∧ target tm = l) ∧
  (∀ l e, getEvent i0 t = Some (l, e) →
     if decide (Event.status e = paused) then
       getEvent i0 t1
       = Some (l, Event.mk i0 (Event.lookupName e) (Event.params e) scheduled now
                    (rearmed e) (Event.duration e) (Event.autoRepeat e)
                    (Some (nextTimeout t)))
       ∧ mkTimer (nextTimeout t) l (Event.remainingTime e) ∈ timers t1
     else t1 = t).
Proof.
  intros Hc Hact t1.
  split; [by apply resumeEvent_consistent|].
  split; [by unfold t1; rewrite resumeEvent_status|].
  destruct (getEvent i0 t) as [[l e]|] eqn:Hg.
  2:{ assert (t1 = t) as -> by (by unfold t1, resumeEvent; rewrite Hg).
      unfold pausedEvent. rewrite Hg.
      split_and!; [done | lia | done | by left | done]. }
  destruct (decide (Event.status e = paused)) as [Hst|Hst].
  2:{ assert (t1 = t) as ->.
      { unfold t1, resumeEvent. rewrite Hg. by rewrite decide_True. }
      unfold pausedEvent. rewrite Hg. rewrite bool_decide_eq_false_2 by done.
      split_and!; [done | lia | done | by left |].
      intros l' e' [= <- <-]. by rewrite decide_False. }
  pose proof (resumeEvent_paused i0 now t l e Hc Hact Hg Hst) as Heq.
  fold t1 in Heq. apply getEvent_Some in Hg as [Hl He].
  pose proof (Map_get_elem_of _ _ _ Hl) as Hin.
  pose proof (lookup_lt_Some _ _ _ He) as Hlt.
  split; [|split; [|split; [|split]]].
  - intros i Hne. rewrite Heq. unfold getEvent, deref. simpl.
    rewrite Map_get_snoc_ne, Map_get_delete_ne by done.
    destruct (Map_get i (eventMap t)) as [l'|] eqn:Hl'; [|done].
    rewrite list_lookup_insert_ne; [done|].
    intros <-. apply Hne. apply Map_get_elem_of in Hl'.
    by eapply table_injective.
  - rewrite Heq. simpl. unfold pausedEvent, getEvent, deref. rewrite Hl, He.
    rewrite bool_decide_eq_true_2 by done. lia.
  - intros tm Htm. rewrite Heq. simpl. apply elem_of_app. by left.
  - intros tm. rewrite Heq. simpl.
    intros [Htm|Htm%list_elem_of_singleton]%elem_of_app; [by left|].
    right. exists l, e. subst tm. done.
  - intros l' e' [= <- <-]. rewrite decide_True by done. rewrite Heq. split.
    + unfold getEvent, deref. simpl.
      assert (Map_get i0 (Map_delete i0 (eventMap t) ++ [(i0, l)]) = Some l) as ->.
      { rewrite <- (Map_set_fresh _ _ _ (Map_delete_absent i0 (eventMap t))).
        apply Map_get_set_eq. }
      by rewrite list_lookup_insert_eq.
    + simpl. apply elem_of_app. right. by apply list_elem_of_singleton.
Qed.

Lemma countPaused_frame t t1 ids :
  (∀ i, i ∈ ids → getEvent i t1 = getEvent i t) → countPaused t1 ids = countPaused t ids.
Proof.
  unfold countPaused. induction ids as [|i ids IH]; [done|]. intros Hf. simpl.
  assert (pausedEvent t1 i = pausedEvent t i) as ->.
  { unfold pausedEvent. rewrite Hf; [done|left]. }
  assert (length (List.filter (pausedEvent t1) ids)
          = length (List.filter (pausedEvent t) ids)) as IH'.
  { apply IH. intros i' Hi'. apply Hf. by right. }
  destruct (pausedEvent t i); simpl; by rewrite IH'.
Qed.

(** The loop of [resumeAll], from any point of the table. *)
Lemma resume_loop clock ks :
  NoDup ks → ∀ k0 t, consistent t → status t ≠ paused →
  let t' := forEachAt (λ k i, resumeEvent i (clock k)) k0 ks t in
  (∀ i, i ∉ ks → getEvent i t' = getEvent i t) ∧
  (∀ tm, tm ∈ timers t → tm ∈ timers t') ∧
  (∀ tm, tm ∈ timers t' →
     tm ∈ timers t ∨ ∃ i l e, i ∈ ks ∧ getEvent i t = Some (l, e)
                              ∧ Event.status e = paused ∧ target tm = l) ∧
  (∀ j i l e, ks !! j = Some i → getEvent i t = Some (l, e) →
     if decide (Event.status e = paused) then
       getEvent i t'
       = Some (l, Event.mk i (Event.lookupName e) (Event.params e) scheduled
                    (clock (k0 + j)%nat) (rearmed e) (Event.duration e)
                    (Event.autoRepeat e)
                    (Some (nextTimeout t + countPaused t (take j ks))%nat))
       ∧ mkTimer (nextTimeout t + countPaused t (take j ks))%nat l
           (Event.remainingTime e) ∈ timers t'
     else getEvent i t' = Some (l, e)).
Proof.
  induction ks as [|i0 ks IH]; intros Hnd k0 t Hc Hact; simpl.
  { split_and!; [done | done | by left |]. intros j i l e Hj. by rewrite lookup_nil in Hj. }
  apply NoDup_cons in Hnd as [Hi0 Hnd].
  destruct (resumeEvent_step i0 (clock k0) t Hc Hact)
    as (Hc1 & Hact1 & Hf1 & Hn1 & Hsub1 & Hnew1 & He1).
  set (t1 := resumeEvent i0 (clock k0) t) in *.
  destruct (IH Hnd (S k0) t1 Hc1 Hact1) as (Hf & Hsub & Hnew & He).
  set (t' := forEachAt _ (S k0) ks t1) in *.
  split_and!.
  - intros i [Hne Hi]%not_elem_of_cons. rewrite Hf by done. by apply Hf1.
  - intros tm Htm. by apply Hsub, Hsub1.
  - intros tm [Htm|(i & l & e & Hi & Hg & Hst & Htg)]%Hnew.
    + apply Hnew1 in Htm as [Htm|(l & e & Hg & Hst & Htg)]; [by left|].
      right. exists i0, l, e. split; [left|done].
    + right. exists i, l, e. split; [by right|]. split; [|done].
      rewrite <- Hg. symmetry. apply Hf1. intros ->. done.
  - intros [|j] i l e Hj Hg.
    + simpl in Hj. injection Hj as <-. specialize (He1 _ _ Hg).
      rewrite Nat.add_0_r. unfold countPaused at 1 2. simpl. rewrite Nat.add_0_r.
      destruct (decide (Event.status e = paused)) as [Hst|Hst].
      * destruct He1 as [Hg1 Htm]. split; [|by apply Hsub].
        by rewrite Hf.
      * rewrite Hf by done. fold t1. by rewrite He1.
    + simpl in Hj.
      assert (i ≠ i0) as Hne.
      { intros ->. apply Hi0. by eapply list_elem_of_lookup_2. }
      assert (getEvent i t1 = Some (l, e)) as Hg1 by (by rewrite Hf1).
      specialize (He _ _ _ _ Hj Hg1).
      assert ((nextTimeout t1 + countPaused t1 (take j ks))%nat
              = (nextTimeout t + countPaused t (take (S j) (i0 :: ks)))%nat) as Hcount.
      { rewrite Hn1. rewrite (countPaused_frame t t1).
        - simpl. unfold countPaused. simpl. destruct (pausedEvent t i0); simpl; lia.
        - intros i' (n & Hn & _)%elem_of_take. apply Hf1. intros ->.
          apply Hi0. by eapply list_elem_of_lookup_2. }
      rewrite Hcount in He. by replace (k0 + S j)%nat with (S k0 + j)%nat by lia.
Qed.

Section ResumeAll.
Context `{JSONCodec}.

(** When no other activation runs between its passes, [resumeAll] is the
    loop over the keys. *)
Lemma resumeAll_passes_alone clock ks :
  ∀ k s, resumeAll_passes clock (λ _, []) k ks s
         = Some (forEachAt (λ j i, resumeEvent i (clock j)) (S k) ks s).
Proof. induction ks as [|i ks IH]; intros k s; simpl; [done|]. apply IH. Qed.

Lemma resumeAll_returns_alone clock s :
  resumeAll_returns clock (λ _, []) s
  = Some (forEachAt (λ k i, resumeEvent i (clock k)) 0 (Map_keys (eventMap s))
            (set_status running s)).
Proof.
  unfold resumeAll_returns, resumeAll. simpl.
  destruct (Map_keys (eventMap s)) as [|i ks]; [done|]. apply resumeAll_passes_alone.
Qed.

(** Whatever runs between the passes, the scheduler stays a reachable one
    and stays running. *)
Lemma resumeAll_passes_reachable clock others ks :
  ∀ k s s', reachable s → status s = running →
    resumeAll_passes clock others k ks s = Some s' →
    reachable s' ∧ status s' = running.
Proof.
  induction ks as [|i ks IH]; intros k s s' Hr Hst; simpl;
    destruct (run (others k) s) as [s1|] eqn:Hrun; try done.
  - intros [= <-]. split; [by eapply run_reachable|by eapply run_stays_running].
  - apply IH.
    + apply (reachable_step s1 (CallResumeEvent i (clock (S k)))); [|done].
      by eapply run_reachable.
    + rewrite resumeEvent_status. by eapply run_stays_running.
Qed.

(** C4, amended.  [resumeAll] sets the scheduler status to running,
    copies the keys of the table and calls [resumeEvent] for every key of
    the copy, in table order.  Each call is awaited: the first pass runs
    with the call, and before every later pass the method is suspended, so
    that other calls and handler completions can run between two passes.
    A pass acts on the scheduler as it is when the pass begins.  It re-arms
    its event only if the event is then in the table with status paused:
    the event becomes scheduled, [addedAtTime] is the time of the pass, and
    a timer is armed for the stored [remainingTime] with the next handle.
    An event of any other status, or one that has left the table, is left
    as it is.  Whatever runs in between, the scheduler stays running.  When
    nothing runs in between, the [k]-th event of the table, if paused, is
    armed at the [k]-th pass with the handle that follows those of the
    paused events before it, and an event of any other status keeps its
    state and gets no timer. *)
Theorem resumeAll_effect clock s k i l e :
  reachable s →
  Map_keys (eventMap s) !! k = Some i → getEvent i s = Some (l, e) →
  (∃ i0 ks, Map_keys (eventMap s) = i0 :: ks ∧
     resumeAll (clock 0%nat) s
     = (resumeEvent i0 (clock 0%nat) (set_status running s), Some ks) ∧
     status (resumeAll (clock 0%nat) s).1 = running) ∧
  (∀ t j ks now, reachable t → status t ≠ paused →
     resumeAll_resumed (j :: ks) now t = (resumeEvent j now t, Some ks) ∧
     status (resumeEvent j now t) = status t ∧
     (∀ j', j' ≠ j → getEvent j' (resumeEvent j now t) = getEvent j' t) ∧
     (getEvent j t = None → resumeEvent j now t = t) ∧
     ∀ l' e', getEvent j t = Some (l', e') →
       if decide (Event.status e' = paused) then
         getEvent j (resumeEvent j now t)
         = Some (l', Event.mk j (Event.lookupName e') (Event.params e') scheduled now
                       (rearmed e') (Event.duration e') (Event.autoRepeat e')
                       (Some (nextTimeout t)))
         ∧ mkTimer (nextTimeout t) l' (Event.remainingTime e')
             ∈ timers (resumeEvent j now t)
       else resumeEvent j now t = t) ∧
  (∀ others s', resumeAll_returns clock others s = Some s' →
     status s' = running ∧ reachable s') ∧
  ∃ s', resumeAll_returns clock (λ _, []) s = Some s' ∧
    if decide (Event.status e = paused) then
      getEvent i s'
      = Some (l, Event.mk i (Event.lookupName e) (Event.params e) scheduled (clock k)
                   (rearmed e) (Event.duration e) (Event.autoRepeat e)
                   (Some (nextTimeout s + pausedBefore s k)%nat))
      ∧ mkTimer (nextTimeout s + pausedBefore s k)%nat l (Event.remainingTime e) ∈ timers s'
    else
      getEvent i s' = Some (l, e) ∧ ∀ tm, tm ∈ timers s' → target tm = l → tm ∈ timers s.
Proof.
  intros Hr Hk Hg. pose proof (reachable_consistent _ Hr) as Hc. split_and!.
  - destruct (Map_keys (eventMap s)) as [|i0 ks] eqn:Hks.
    { by rewrite lookup_nil in Hk. }
    exists i0, ks. split_and!; [done| |apply resumeAll_status].
    unfold resumeAll. simpl. by rewrite Hks.
  - intros t j ks now Ht%reachable_consistent Hact.
    destruct (resumeEvent_step j now t Ht Hact) as (_ & _ & Hf & _ & _ & _ & He).
    split_and!; [done|apply resumeEvent_status|done| |done].
    intros Hn. unfold resumeEvent. by rewrite Hn.
  - intros others s'. unfold resumeAll_returns.
    pose proof (resumeAll_status (clock 0%nat) s) as Hst.
    assert (reachable (resumeAll (clock 0%nat) s).1) as Hr1
      by apply (reachable_step s (CallResumeAll (clock 0%nat)) Hr eq_refl).
    destruct (resumeAll (clock 0%nat) s) as [s1 [ks|]]; simpl in *.
    + intros [? ?]%resumeAll_passes_reachable; done.
    + by intros [= <-].
  - rewrite resumeAll_returns_alone. eexists. split; [done|].
    set (t := set_status running s).
    assert (consistent t) as Hct by (by apply set_status_running_consistent).
    assert (status t ≠ paused) as Hat by done.
    destruct (resume_loop clock (Map_keys (eventMap s)) (keys_distinct _ _ Hc) 0%nat t Hct Hat)
      as (_ & _ & Hnew & He).
    set (s' := forEachAt _ 0%nat (Map_keys (eventMap s)) t) in *.
    specialize (He k i l e Hk Hg). simpl in He.
    assert (countPaused t (take k (Map_keys (eventMap s))) = pausedBefore s k) as Hcount.
    { unfold pausedBefore. by apply countPaused_frame. }
    rewrite Hcount in He. change (nextTimeout t) with (nextTimeout s) in He.
    destruct (decide (Event.status e = paused)) as [Hst|Hst]; [done|].
    split; [done|]. intros tm [Htm|(i' & l' & e' & _ & Hg' & Hst' & Htg)]%Hnew Hl; [done|].
    change (getEvent i' t) with (getEvent i' s) in Hg'.
    apply getEvent_Some in Hg as [_ He0]. apply getEvent_Some in Hg' as [_ He'].
    rewrite Htg in Hl. subst l'. congruence.
Qed.
End ResumeAll.

Section ResumeAllSample.
#[local] Existing Instance JSONText.codec.

Lemma resumeAll_effect_witness :
  let s := Examples.the (run Examples.mixed constructor) in
  let clock := λ k, 70 + Z.of_nat k in
  let e := Event.mk "e3" "ping" Examples.noParams paused 0 40 100 false None in
  resumeAll (clock 0%nat) s
  = (resumeEvent "e1" (clock 0%nat) (set_status running s), Some ["e2"; "e3"]) ∧
  ∃ s', resumeAll_returns clock (λ _, []) s = Some s' ∧
    getEvent "e3" s'
    = Some (2%nat, Event.mk "e3" "ping" Examples.noParams scheduled 72 40 100 false
                     (Some 4%nat))
    ∧ mkTimer 4%nat 2%nat 40 ∈ timers s'.
Proof.
  intros s clock e.
  destruct (resumeAll_effect clock s 2%nat "e3" 2%nat e) as (Hcall & _ & _ & s' & Hret & He).
  - apply (run_the Examples.mixed). vm_compute. reflexivity.
  - vm_compute. reflexivity.
  - vm_compute. reflexivity.
  - split.
    + destruct Hcall as (i0 & ks & Hks & Hcall & _). rewrite Hcall.
      assert (i0 :: ks = ["e1"; "e2"; "e3"]) as Heq by (rewrite <- Hks; vm_compute; reflexivity).
      by injection Heq as -> ->.
    + exists s'. split; [exact Hret|]. exact He.
Defined.

(** C4, as stated, fails on an event that is scheduled: [resumeAll] changes
    nothing, the event keeps its handle and no timer is armed. *)
Lemma resumeAll_skips_scheduled :
  ∃ s l e, run Examples.one_armed constructor = Some s ∧
           getEvent "e1" s = Some (l, e) ∧ Event.status e = scheduled ∧
           resumeAll 50 s = (s, Some []) ∧
           resumeAll_returns (Examples.at_ 50) (λ _, []) s = Some s.
Proof.
  eexists _, _, _. split; [vm_compute; reflexivity|].
  split; [vm_compute; reflexivity|]. split; [reflexivity|].
  split; vm_compute; reflexivity.
Qed.

(** What runs between two passes is seen by the passes that follow: the
    client calls [resumeAll] without waiting, then pauses [e2] and removes
    [e3].  The second pass arms [e2], which was scheduled when [resumeAll]
    was called; the third finds no [e3]. *)
Lemma resumeAll_passes_see_others :
  let s := Examples.the (run Examples.mixed constructor) in
  let others := λ k, match k with
                     | O => [CallPauseEvent "e2" 71; CallRemoveEvent "e3"]
                     | _ => []
                     end in
  ∃ s' l e, resumeAll_returns (λ k, 80 + Z.of_nat k) others s = Some s' ∧
    getEvent "e2" s' = Some (l, e) ∧ Event.addedAtTime e = 81 ∧
    Event.remainingTime e = 29 ∧ mkTimer 4%nat l 29 ∈ timers s' ∧
    getEvent "e3" s' = None.
Proof.
  intros s others. eexists _, _, _. split; [vm_compute; reflexivity|].
  split; [vm_compute; reflexivity|]. do 2 (split; [reflexivity|]).
  split; [|vm_compute; reflexivity].
  apply list_elem_of_lookup_2 with 1%nat. vm_compute. reflexivity.
Qed.
End ResumeAllSample.

(** ** Saving and loading *)

Lemma omap_fmap_inner {A B C} (g : A → option B) (f : B → C) (ls : list A) :
  omap (λ l, f <$> g l) ls = f <$> omap g ls.
Proof.
  induction ls as [|l ls IH]; [done|]. csimpl.
  destruct (g l); csimpl; by rewrite IH.
Qed.

Lemma serializedEvents_table s : serializedEvents s = JArr (rest <$> tableEvents s).
Proof. unfold serializedEvents, tableEvents. by rewrite omap_fmap_inner. Qed.

Lemma tableEvents_spec x s :
  consistent_but x s →
  NoDup (Event.id <$> tableEvents s) ∧
  ∀ e, e ∈ tableEvents s ↔ ∃ l, getEvent (Event.id e) s = Some (l, e).
Proof.
  intros Hc. unfold tableEvents, getEvent, deref.
  pose proof (keys_distinct _ _ Hc) as Hnd. pose proof (stored_under_id _ _ Hc) as Hs.
  unfold Map_keys, Map_values in *.
  induction (eventMap s) as [|[i l] m IH].
  - split; [apply NoDup_nil_2|]. intros e. split; [by intros ?%elem_of_nil|by intros [? ?]].
  - rewrite fmap_cons in Hnd. apply NoDup_cons in Hnd as [Hi Hnd].
    destruct IH as [IH1 IH2]; [done| |].
    { intros i' l' Hin. apply Hs. by right. }
    destruct (Hs i l) as (e0 & He0 & Hid); [left|].
    assert (∀ e, e ∈ omap (λ l, heap s !! l) m.*2 → Event.id e ∈ m.*1) as Hids.
    { intros e (l' & Hg)%IH2. destruct (Map_get (Event.id e) m) as [l1|] eqn:Hl1; [|done].
      apply Map_get_elem_of in Hl1. apply list_elem_of_fmap. by exists (Event.id e, l1). }
    assert (omap (λ l, heap s !! l) ((i, l) :: m).*2
            = e0 :: omap (λ l, heap s !! l) m.*2) as ->.
    { rewrite fmap_cons. change ((i, l).2) with l.
      change (omap ?f (l :: ?r)) with (match f l with Some y => y :: omap f r
                                       | None => omap f r end).
      cbv beta. by rewrite He0. }
    split.
    + rewrite fmap_cons. apply NoDup_cons. split; [|done].
      intros (e & Heq & He)%list_elem_of_fmap. apply Hi. rewrite <- Hid, Heq. by apply Hids.
    + intros e. rewrite elem_of_cons, IH2. cbn [Map_get]. split.
      * intros [Heq|(l' & Hg)].
        -- subst e. exists l. rewrite decide_True by done. by rewrite He0.
        -- exists l'. rewrite decide_False; [done|]. intros Heq.
           apply Hi. rewrite Heq. apply Hids, IH2. eauto.
      * intros (l' & Hg). destruct (decide (i = Event.id e)) as [Heq|Hne].
        -- left. rewrite He0 in Hg. congruence.
        -- right. eauto.
Qed.

Lemma asEvent_rest e : asEvent (rest e) = Some (Event.set_jobId None e).
Proof. destruct e as [i n p st a r d b j]. by destruct st. Qed.

Lemma statusIsLoadable_rest e : statusIsLoadable (rest e) = bool_decide (loadable e).
Proof. destruct e as [i n p st a r d b j]. by destruct st. Qed.

Lemma loadEvent_rest e t :
  loadEvent (rest e) t =
  if decide (loadable e)
  then (Normal (), scheduleEvent (length (heap t)) (Some (Event.remainingTime e))
                     (alloc (Event.set_jobId None e) t).2)
  else (Normal (), t).
Proof.
  unfold loadEvent. rewrite statusIsLoadable_rest, asEvent_rest.
  destruct (decide (loadable e)).
  - by rewrite bool_decide_eq_true_2.
  - by rewrite bool_decide_eq_false_2.
Qed.

Lemma Map_elem_of_get x s i l :
  consistent_but x s → (i, l) ∈ eventMap s ↔ Map_get i (eventMap s) = Some l.
Proof. intros Hc. symmetry. apply Map_get_Some. apply (keys_distinct _ _ Hc). Qed.

(** Loading one persisted event into a consistent scheduler. *)
Lemma load_step e t :
  consistent t →
  let l := length (heap t) in
  let t1 := scheduleEvent l (Some (Event.remainingTime e)) (alloc (Event.set_jobId None e) t).2 in
  consistent t1 ∧ status t1 = status t ∧
  getEvent (Event.id e) t1
  = Some (l, loaded t e (if decide (status t = paused) then None else Some (nextTimeout t))) ∧
  (status t ≠ paused → mkTimer (nextTimeout t) l (Event.remainingTime e) ∈ timers t1) ∧
  (∀ i', i' ≠ Event.id e → getEvent i' t1 = getEvent i' t) ∧
  (∀ tm i0, tm ∈ timers t → (i0, target tm) ∈ eventMap t → i0 ≠ Event.id e →
            tm ∈ timers t1).
Proof.
  intros Hc l.
  set (e0 := Event.set_jobId None e). set (ta := (alloc e0 t).2). intros t1.
  assert (consistent ta) as Hca by (by apply consistent_alloc).
  assert (heap ta !! l = Some e0) as He0 by apply alloc_lookup.
  assert (consistent t1) as Hc1.
  { apply scheduleEvent_consistent with (e := e0); [by apply consistent_weaken|done..|].
    simpl. intros Hin%(awaiting_valid _ _ _ Hc). lia. }
  split; [done|]. split; [by unfold t1; rewrite scheduleEvent_status|].
  pose proof (scheduleEvent_result l (Some (Event.remainingTime e)) ta e0 He0) as Heq.
  cbv zeta in Heq. fold t1 in Heq. change (Event.id e0) with (Event.id e) in Heq.
  rewrite (removeEvent_eventMap _ _ _ Hca) in Heq.
  rewrite (Map_set_fresh _ _ _ (Map_delete_absent _ _)) in Heq.
  change (eventMap ta) with (eventMap t) in Heq.
  change (status ta) with (status t) in Heq.
  change (nextTimeout ta) with (nextTimeout t) in Heq.
  assert (∀ tm i0, tm ∈ timers t → (i0, target tm) ∈ eventMap t → i0 ≠ Event.id e →
                   tm ∈ timers (removeEvent (Event.id e) ta)) as Hkeep.
  { intros tm i0 Htm Htab Hne. unfold removeEvent.
    destruct (getEvent (Event.id e) ta) as [[l0 eo]|] eqn:Hg; [|done].
    apply getEvent_Some in Hg as [Hl0 Heo]. simpl.
    destruct (Event.jobId eo) as [h|] eqn:Hj; [|done]. simpl.
    change (timers t) with (timers ta).
    rewrite (clearTimeout_own _ _ _ _ _ Hca Heo Hj). apply list_elem_of_filter.
    split; [|done]. intros Htg. apply Hne.
    apply Map_get_elem_of in Hl0. rewrite <- Htg in Hl0.
    by eapply (table_injective _ t). }
  assert (∀ l', (l' < l)%nat → ∀ y, <[l := y]> (heap ta) !! l' = heap t !! l') as Hold.
  { intros l' Hl' y. rewrite list_lookup_insert_ne by lia. simpl. by apply lookup_app_l. }
  assert (length (heap ta) = S l) as Hlen by (simpl; rewrite length_app; simpl; lia).
  split; [|split; [|split]].
  - rewrite Heq. unfold getEvent, deref.
    destruct (decide (status t = paused)); simpl;
      rewrite <- (Map_set_fresh _ _ _ (Map_delete_absent (Event.id e) (eventMap t))),
        Map_get_set_eq;
      (rewrite list_lookup_insert_eq by (rewrite length_app; simpl; lia));
      unfold loaded; by destruct (decide (status t = paused)).
  - intros Hact. rewrite Heq. rewrite decide_False by done. simpl.
    apply elem_of_app. right. by apply list_elem_of_singleton.
  - intros i' Hne. rewrite Heq. unfold getEvent, deref.
    destruct (decide (status t = paused)); simpl;
      rewrite Map_get_snoc_ne, Map_get_delete_ne by done;
      (destruct (Map_get i' (eventMap t)) as [l'|] eqn:Hl'; [|done]);
      apply Map_get_elem_of in Hl';
      destruct (stored_under_id _ _ Hc _ _ Hl') as (e' & He' & _);
      pose proof (lookup_lt_Some _ _ _ He') as Hlt;
      (rewrite list_lookup_insert_ne by (unfold l; lia));
      by rewrite (lookup_app_l _ _ _ Hlt).
  - intros tm i0 Htm Htab Hne. specialize (Hkeep tm i0 Htm Htab Hne). rewrite Heq.
    destruct (decide (status t = paused)); simpl; [done|].
    apply elem_of_app. by left.
Qed.

(** Loading the persisted events [evs], whose ids are distinct. *)
Lemma load_loop evs :
  NoDup (Event.id <$> evs) → ∀ t, consistent t →
  ∃ t', forEach loadEvent (rest <$> evs) t = (Normal (), t') ∧
    consistent t' ∧ status t' = status t ∧
    (∀ i, (∀ e, e ∈ evs → loadable e → Event.id e ≠ i) → getEvent i t' = getEvent i t) ∧
    (∀ tm i0, tm ∈ timers t → (i0, target tm) ∈ eventMap t →
       (∀ e, e ∈ evs → loadable e → Event.id e ≠ i0) → tm ∈ timers t') ∧
    (∀ e, e ∈ evs → loadable e →
       ∃ l' j, getEvent (Event.id e) t' = Some (l', loaded t e j) ∧
         if decide (status t = paused) then j = None
         else ∃ h, j = Some h ∧ mkTimer h l' (Event.remainingTime e) ∈ timers t').
Proof.
  induction evs as [|e evs IH]; intros Hnd t Hc.
  { exists t. split_and!; try done. by intros e ?%elem_of_nil. }
  rewrite fmap_cons in Hnd. apply NoDup_cons in Hnd as [Hid Hnd].
  rewrite fmap_cons. cbn [forEach]. rewrite loadEvent_rest.
  destruct (decide (loadable e)) as [Hload|Hload].
  - destruct (load_step e t Hc) as (Hc1 & Hst1 & Hg1 & Htm1 & Hf1 & Hk1).
    set (l := length (heap t)) in *.
    set (t1 := scheduleEvent l _ _) in *.
    destruct (IH Hnd t1 Hc1) as (t' & Hrun & Hc' & Hst' & Hf & Hk & He).
    exists t'. split; [done|]. split; [done|]. split; [congruence|].
    assert (∀ e', e' ∈ evs → Event.id e' ≠ Event.id e) as Hfresh.
    { intros e' Hin Heq. apply Hid. rewrite <- Heq. apply list_elem_of_fmap. eauto. }
    split_and!.
    + intros i Hi. rewrite Hf.
      * apply Hf1. intros ->. by apply (Hi e); [left|..].
      * intros e' Hin. apply Hi. by right.
    + intros tm i0 Htm Htab Hi.
      assert (i0 ≠ Event.id e) as Hne by (intros ->; by apply (Hi e); [left|..]).
      apply (Hk tm i0).
      * by apply (Hk1 tm i0).
      * apply (Map_elem_of_get _ _ _ _ Hc1). apply (Map_elem_of_get _ _ _ _ Hc) in Htab.
        destruct (stored_under_id _ _ Hc i0 (target tm)) as (e0 & He0 & _);
          [by apply (Map_elem_of_get _ _ _ _ Hc)|].
        assert (getEvent i0 t1 = Some (target tm, e0)) as Hg.
        { rewrite Hf1 by done. by apply getEvent_Some. }
        by apply getEvent_Some in Hg as [? _].
      * intros e' Hin. apply Hi. by right.
    + intros e' [->|Hin]%elem_of_cons Hl'.
      * eexists l, _. split.
        { rewrite Hf; [exact Hg1|]. intros e'' Hin _. by apply Hfresh. }
        destruct (decide (status t = paused)) as [Hpa|Hact]; [done|].
        eexists. split; [done|]. apply (Hk _ (Event.id e)).
        -- by apply Htm1.
        -- apply getEvent_Some in Hg1 as [Hl1 _]. by apply Map_get_elem_of in Hl1.
        -- intros e'' Hin _. by apply Hfresh.
      * destruct (He e' Hin Hl') as (l' & j & Hg & Hj).
        exists l', j. unfold loaded in *. rewrite Hst1 in Hg, Hj. done.
  - destruct (IH Hnd t Hc) as (t' & Hrun & Hc' & Hst' & Hf & Hk & He).
    exists t'. split; [done|]. split; [done|]. split; [done|]. split_and!.
    + intros i Hi. apply Hf. intros e' Hin. apply Hi. by right.
    + intros tm i0 Htm Htab Hi. apply (Hk tm i0); [done..|].
      intros e' Hin. apply Hi. by right.
    + intros e' [->|Hin]%elem_of_cons Hl'; [done|]. by apply He.
Qed.

(** The object whose handler completed is marked done. *)
Lemma done_consistent l s :
  consistent s → l ∈ awaiting s →
  consistent (update l (λ e, Event.set_jobId None (Event.set_status done e))
                (set_awaiting (dropFirst l (awaiting s)) s)).
Proof.
  intros Hc Hin. destruct (awaiting_running _ _ Hc _ Hin) as (e & He & Hst & _).
  apply consistent_update; [by apply runEvent_rejected_consistent| |by intros ? ?].
  intros e' He'. assert (e' = e) as -> by (simpl in He'; congruence).
  do 2 (split; [done|]). split; [|split].
  - intros (t & Hint & Htg).
    destruct (timers_held _ _ Hc _ Hint) as (e' & Ht & _ & Hst' & _).
    rewrite Htg in Ht. the_same e' e. congruence.
  - simpl. intros Hin'.
    apply (dropFirst_NoDup l _ (awaiting_distinct _ _ Hc)) in Hin'. naive_solver.
  - intros _. split; [|simpl; by intros [? ?]].
    intros Hpa. destruct (paused_quiet _ _ Hc Hpa) as (_ & Haw & _).
    rewrite Haw in Hin. by apply elem_of_nil in Hin.
Qed.

Section RoundTrip.
Context `{JSONCodec}.

(** C2, amended.  Let [s] be a scheduler whose table is consistent with
    its host, [t] the reachable scheduler that loads what [s] saved ([s]
    itself, or another one, such as a fresh one), and let [JSON.parse]
    invert [JSON.stringify] on the saved array.  Every reachable scheduler
    is consistent, and so is the scheduler in which [runEvent] has marked
    an event done and has not yet removed it: the statement covers a table
    that holds an event that is done.  Then [loadEvents(saveEvents())]
    completes, and for every event [e] of [s]:
    - if [e] is scheduled or paused, [t] stores under its id an event with
      the [lookupName], [params], [addedAtTime], [duration] and
      [autoRepeat] of [e]; its [remainingTime] is that of [e] when
      positive and [duration] otherwise; its status is not that of [e] but
      paused, without handle, when [t] is paused, and scheduled, with a
      timer armed for the [remainingTime] of [e], when it is not;
    - if [e] has another status (done, running), it is not loaded: what
      [t] stores under its id is left as it was (nothing, in a fresh
      scheduler).
    A persisted record whose status is neither scheduled nor paused is
    skipped wherever it comes from. *)
Theorem loadEvents_saveEvents s t i l e :
  consistent s → reachable t →
  JSON_parse (JSON_stringify (serializedEvents s)) = Some (serializedEvents s) →
  getEvent i s = Some (l, e) →
  (∃ t', loadEvents (saveEvents s) t = (Normal (), t') ∧ status t' = status t ∧
    if decide (loadable e) then
      ∃ l' j, getEvent i t' = Some (l', loaded t e j) ∧
        (0 < Event.remainingTime e →
           Event.remainingTime (loaded t e j) = Event.remainingTime e) ∧
        (Event.remainingTime e ≤ 0 →
           Event.remainingTime (loaded t e j) = Event.duration e) ∧
        if decide (status t = paused)
        then Event.status (loaded t e j) = paused ∧ j = None
        else Event.status (loaded t e j) = scheduled ∧
             ∃ h, j = Some h ∧ mkTimer h l' (Event.remainingTime e) ∈ timers t'
    else getEvent i t' = getEvent i t) ∧
  (∀ e0 t0, ¬ loadable e0 → loadEvent (rest e0) t0 = (Normal (), t0)).
Proof.
  intros Hcs Hct%reachable_consistent Hcodec Hg.
  split; [|intros e0 t0 Hno; rewrite loadEvent_rest; by rewrite decide_False].
  destruct (tableEvents_spec _ _ Hcs) as [Hnd Hev].
  destruct (load_loop (tableEvents s) Hnd t Hct) as (t' & Hrun & _ & Hst & Hf & _ & He).
  exists t'. unfold loadEvents, saveEvents. rewrite Hcodec, serializedEvents_table.
  split; [done|]. split; [done|].
  assert (Event.id e = i) as Hid.
  { apply getEvent_Some in Hg as [Hl He0]. apply Map_get_elem_of in Hl.
    destruct (stored_under_id _ _ Hcs _ _ Hl) as (e0 & He0' & Hid). congruence. }
  assert (e ∈ tableEvents s) as Hin by (apply Hev; exists l; by rewrite Hid).
  destruct (decide (loadable e)) as [Hl|Hl].
  - destruct (He e Hin Hl) as (l' & j & Hg' & Hj). rewrite Hid in Hg'.
    exists l', j. split; [done|]. unfold loaded, rearmed. simpl.
    split; [intros ?; by rewrite decide_False by lia|].
    split; [intros ?; by rewrite decide_True|].
    destruct (decide (status t = paused)); done.
  - apply Hf. intros e' Hin' Hl' Heq. apply Hl.
    apply Hev in Hin' as (l' & Hg'). rewrite Heq in Hg'. congruence.
Qed.
End RoundTrip.

Section RoundTripSample.
#[local] Existing Instance JSONText.codec.

(** The scheduler in which the handler of [e1] has completed and
    [runEvent] has marked [e1] done, before it removes it; [e2] is armed. *)
Lemma loadEvents_saveEvents_witness :
  let s0 := Examples.the (run Scenarios.two_fired constructor) in
  let s := update 0%nat (λ e, Event.set_jobId None (Event.set_status done e))
             (set_awaiting (dropFirst 0%nat (awaiting s0)) s0) in
  getEvent "e1" s
  = Some (0%nat, Event.mk "e1" "ping" Examples.noParams done 0 100 100 false None) ∧
  JSON_parse (JSON_stringify (serializedEvents s)) = Some (serializedEvents s) ∧
  ∃ t', loadEvents (saveEvents s) constructor = (Normal (), t') ∧
        status t' = status constructor ∧
        getEvent "e1" t' = None ∧
        ∃ l' j, getEvent "e2" t' = Some (l', j) ∧ Event.status j = paused.
Proof.
  intros s0 s.
  assert (getEvent "e1" s
          = Some (0%nat, Event.mk "e1" "ping" Examples.noParams done 0 100 100 false None))
    as Hg1 by (vm_compute; reflexivity).
  assert (JSON_parse (JSON_stringify (serializedEvents s)) = Some (serializedEvents s))
    as Hcodec by (vm_compute; reflexivity).
  assert (consistent s) as Hc.
  { apply done_consistent.
    - apply reachable_consistent, (run_the Scenarios.two_fired). vm_compute. reflexivity.
    - apply list_elem_of_lookup_2 with 0%nat. vm_compute. reflexivity. }
  split; [exact Hg1|]. split; [exact Hcodec|].
  destruct (loadEvents_saveEvents s constructor "e1" 0%nat _ Hc reachable_constructor
              Hcodec Hg1) as [(t' & Hrun & Hst & Hres) _].
  destruct (loadEvents_saveEvents s constructor "e2" 1%nat
              (Event.mk "e2" "ping" Examples.noParams scheduled 0 100 100 false
                 (Some 1%nat)) Hc reachable_constructor Hcodec)
    as [(t2 & Hrun2 & _ & Hres2) _]; [vm_compute; reflexivity|].
  rewrite Hrun in Hrun2. injection Hrun2 as <-.
  exists t'. split; [exact Hrun|]. split; [exact Hst|]. split; [exact Hres|].
  destruct Hres2 as (l' & j & Hg & _ & _ & Hj & _). eauto.
Defined.

(** C2, as stated, fails on an event paused after its time was spent, in a
    scheduler that is not paused: saved and loaded back, it is scheduled,
    not paused, and its [remainingTime] is 100, not -50. *)
Lemma loadEvents_saveEvents_not_exact :
  ∃ s s' l e l' e',
    run Examples.paused_late constructor = Some s ∧
    getEvent "e1" s = Some (l, e) ∧
    Event.status e = paused ∧ Event.remainingTime e = -50 ∧
    loadEvents (saveEvents s) s = (Normal (), s') ∧
    getEvent "e1" s' = Some (l', e') ∧
    Event.status e' = scheduled ∧ Event.remainingTime e' = 100.
Proof.
  eexists _, _, _, _, _, _. split; [vm_compute; reflexivity|].
  split; [vm_compute; reflexivity|]. do 2 (split; [reflexivity|]).
  split; [vm_compute; reflexivity|]. split; [vm_compute; reflexivity|].
  split; reflexivity.
Qed.
End RoundTripSample.

(** ** Scheduled events hold a handle *)

Lemma elem_of_Map_set {V} k (v : V) m k' v' :
  (k', v') ∈ Map_set k v m → (k', v') = (k, v) ∨ (k', v') ∈ m.
Proof.
  induction m as [|[k0 v0] m IH]; simpl.
  - intros ?%list_elem_of_singleton. by left.
  - destruct (decide (k0 = k)) as [->|Hne].
    + intros [?|?]%elem_of_cons; [by left | right; by right].
    + intros [Heq|Hin]%elem_of_cons; [right; rewrite Heq; left|].
      destruct (IH Hin); [by left | right; by right].
Qed.

Lemma removeEvent_eventMap_subset i s k l :
  (k, l) ∈ eventMap (removeEvent i s) → (k, l) ∈ eventMap s.
Proof.
  unfold removeEvent. destruct (getEvent i s) as [[l0 e]|]; [|done].
  simpl. intros [Hin _]%elem_of_Map_delete. by destruct (Event.jobId e).
Qed.

Lemma armed_weaken l s : armed s → armed_but l s.
Proof. intros Ha i l' e Hin He _. by apply (Ha i l'). Qed.

Lemma armed_update l f s :
  armed_but l s →
  (∀ e, heap s !! l = Some e → Event.status (f e) = scheduled → is_Some (Event.jobId (f e))) →
  armed (update l f s).
Proof.
  intros Ha Hf i l' e' Hin [[-> (e & He & ->)]|[Hne He]]%alter_lookup_Some Hst.
  - by apply (Hf e).
  - by apply (Ha i l').
Qed.

Lemma armed_but_update l f s : armed_but l s → armed_but l (update l f s).
Proof.
  intros Ha i l' e' Hin [[-> _]|[Hne He]]%alter_lookup_Some Hl Hst; [done|].
  by apply (Ha i l').
Qed.

Lemma scheduleEvent_armed l delay s : armed_but l s → armed (scheduleEvent l delay s).
Proof.
  intros Ha. destruct (heap s !! l) as [e|] eqn:He.
  2:{ unfold scheduleEvent, deref. rewrite He. intros i l' e' Hin He' Hst.
      apply (Ha i l'); try done. intros ->. congruence. }
  rewrite (scheduleEvent_result _ _ _ _ He). cbv zeta.
  pose proof (lookup_lt_Some _ _ _ He) as Hlt.
  destruct (decide (status s = paused)); intros i l' e' Hin He' Hst; simpl in *.
  - destruct (decide (l' = l)) as [->|Hne].
    + rewrite list_lookup_insert_eq in He' by done. by injection He' as <-.
    + rewrite list_lookup_insert_ne in He' by done.
      apply elem_of_Map_set in Hin as [[= -> ->]|Hin]; [done|].
      apply removeEvent_eventMap_subset in Hin. by apply (Ha i l').
  - destruct (decide (l' = l)) as [->|Hne].
    + rewrite list_lookup_insert_eq in He' by done. injection He' as <-. simpl. eauto.
    + rewrite list_lookup_insert_ne in He' by done.
      apply elem_of_Map_set in Hin as [[= -> ->]|Hin]; [done|].
      apply removeEvent_eventMap_subset in Hin. by apply (Ha i l').
Qed.

Lemma armed_alloc x e s :
  consistent_but x s → armed s → armed_but (length (heap s)) (alloc e s).2.
Proof.
  intros Hc Ha i l' e' Hin He' Hl Hst. simpl in *.
  destruct (stored_under_id _ _ Hc _ _ Hin) as (e0 & He0 & _).
  rewrite (lookup_app_l_Some _ _ _ _ He0) in He'. injection He' as <-.
  by apply (Ha i l').
Qed.

Lemma addEvent_armed i n p d r now s :
  consistent s → armed s → armed (addEvent i n p d r now s).2.
Proof.
  intros Hc Ha. unfold addEvent. destruct (callbackMap s !! n); [|done].
  simpl. apply scheduleEvent_armed. by eapply (armed_alloc _ _ _ Hc).
Qed.

Lemma removeEvent_armed i s : armed s → armed (removeEvent i s).
Proof.
  intros Ha k l e Hin He. rewrite removeEvent_heap in He.
  apply removeEvent_eventMap_subset in Hin. by apply (Ha k l).
Qed.

Lemma pauseEvent_armed i now s : armed s → armed (pauseEvent i now s).
Proof.
  intros Ha. unfold pauseEvent. destruct (getEvent i s) as [[l e]|]; [|done].
  case_decide; [done|]. destruct (Event.jobId e); [|done].
  apply armed_update; [|done]. by apply armed_weaken.
Qed.

Lemma resumeEvent_armed i now s : armed s → armed (resumeEvent i now s).
Proof.
  intros Ha. unfold resumeEvent. destruct (getEvent i s) as [[l e]|]; [|done].
  case_decide; [done|]. apply scheduleEvent_armed, armed_but_update.
  by apply armed_weaken.
Qed.

Lemma runEvent_armed l s :
  armed_but l s → (runEvent l s).1 = Normal () → armed (runEvent l s).2.
Proof.
  intros Ha. unfold runEvent. destruct (deref l s) as [e|] eqn:He.
  2:{ intros _ i l' e' Hin He' Hst. simpl in *. apply (Ha i l'); try done.
      intros ->. unfold deref in He. congruence. }
  destruct (callbackMap s !! Event.lookupName e); [|done]. intros _.
  by apply (armed_update l (Event.set_status running) s).
Qed.

Lemma executeImmediately_armed i s :
  armed s → (executeImmediately i s).1 = Normal () → armed (executeImmediately i s).2.
Proof.
  intros Ha. unfold executeImmediately. destruct (getEvent i s) as [[l e]|]; [|done].
  case_decide; [done|]. apply runEvent_armed.
  destruct (Event.jobId e); [|by apply armed_weaken].
  apply armed_but_update. by apply armed_weaken.
Qed.

Lemma timerFires_armed h s : armed s → armed (timerFires h s).2.
Proof.
  intros Ha. unfold timerFires. destruct (List.find _ _) as [t|]; [|done].
  unfold runEvent. destruct (deref (target t) (clearTimeout h s)) as [e|]; [|done].
  destruct (callbackMap _ !! _); [|done].
  apply (armed_update (target t) (Event.set_status running) (clearTimeout h s)); [|done].
  apply armed_weaken. exact Ha.
Qed.

Lemma runEvent_resumed_armed l now s :
  consistent s → l ∈ awaiting s → armed s → armed (runEvent_resumed l now s).2.
Proof.
  intros Hc Hin Ha. unfold runEvent_resumed.
  set (s1 := set_awaiting _ s).
  set (f := λ e, Event.set_jobId None (Event.set_status done e)).
  assert (armed (update l f s1)) as Ha2.
  { apply armed_update; [|done]. by apply armed_weaken. }
  assert (consistent (update l f s1)) as Hc2.
  { destruct (awaiting_running _ _ Hc _ Hin) as (e & He & Hst & _).
    apply consistent_update; [by apply runEvent_rejected_consistent| |by intros ? ?].
    intros e' He'. assert (e' = e) as -> by (simpl in He'; congruence).
    do 2 (split; [done|]). split; [|split].
    - intros (t & Hint & Htg).
      destruct (timers_held _ _ Hc _ Hint) as (e' & Ht & _ & Hst' & _).
      rewrite Htg in Ht. the_same e' e. congruence.
    - simpl. intros Hin'.
      apply (dropFirst_NoDup l _ (awaiting_distinct _ _ Hc)) in Hin'. naive_solver.
    - intros _. split; [|simpl; by intros [? ?]].
      intros Hpa. destruct (paused_quiet _ _ Hc Hpa) as (_ & Haw & _).
      rewrite Haw in Hin. by apply elem_of_nil in Hin. }
  destruct (deref l (update l f s1)) as [e|]; [|done].
  destruct (Event.autoRepeat e).
  - pose proof (addEvent_armed (Event.id e) (Event.lookupName e) (Event.params e)
                  (Event.duration e) true now _ Hc2 Ha2) as Hadd.
    by destruct (addEvent _ _ _ _ _ _ _) as [[?|?|] ?].
  - simpl. by apply removeEvent_armed.
Qed.

Lemma forEach_loadEvent_armed js s :
  consistent s → armed s → armed (forEach loadEvent js s).2.
Proof.
  revert s. induction js as [|j js IH]; simpl; [done|]. intros s Hc Ha.
  pose proof (loadEvent_consistent j _ Hc) as Hc1.
  assert (armed (loadEvent j s).2) as Ha1.
  { unfold loadEvent. destruct (statusIsLoadable j); [|done].
    destruct (from_option _ _ _); [done|].
    destruct (asEvent j) as [e|]; [|done]. simpl.
    apply scheduleEvent_armed. by eapply (armed_alloc _ _ _ Hc). }
  destruct (loadEvent j s) as [[[]|?|] s1]; simpl in *; auto.
Qed.

Section Armed.
Context `{JSONCodec}.

Lemma after_armed c s :
  consistent s → possible c s = true →
  match c with
  | CallExecuteImmediately i => (executeImmediately i s).1 = Normal ()
  | _ => True
  end →
  armed s → armed (after c s).
Proof.
  intros Hc Hp Hex Ha. unfold after. destruct c; simpl in *.
  - unfold registerCallback. by destruct (callbackMap s !! lookupName).
  - pose proof (addEvent_armed i lookupName params duration autoRepeat now _ Hc Ha).
    by destruct (addEvent _ _ _ _ _ _ _) as [[?|?|] ?].
  - by apply removeEvent_armed.
  - by apply pauseEvent_armed.
  - by apply resumeEvent_armed.
  - unfold pauseAll. apply forEachAt_preserves; [|done]. intros. by apply pauseEvent_armed.
  - unfold removeAllByType.
    generalize (List.filter
      (λ i, match getEvent i s with
            | Some (_, e) => bool_decide (Event.lookupName e = type)
            | None => false
            end) (Map_keys (eventMap s))).
    intros ids. revert s Hc Hp Ha. induction ids as [|i ids IH]; simpl; [done|].
    intros s Hc Hp Ha. apply IH; [by apply removeEvent_consistent|done|].
    by apply removeEvent_armed.
  - apply resumeAll_preserves; [done|]. intros. by apply resumeEvent_armed.
  - by apply executeImmediately_armed.
  - unfold loadEvents. destruct (JSON_parse serializedData) as [[]|]; try done.
    by apply forEach_loadEvent_armed.
  - by apply timerFires_armed.
  - apply bool_decide_eq_true in Hp. by apply runEvent_resumed_armed.
  - done.
Qed.

Lemma run_armed cs s s' :
  reachable s → armed s → run cs s = Some s' → executesCompleted cs s → armed s'.
Proof.
  revert s. induction cs as [|c cs IH]; simpl; intros s Hr Ha.
  - by intros [= <-].
  - destruct (possible c s) eqn:Hp; [|done]. intros Hrun [Hex Hrest].
    apply (IH (after c s)); [by apply reachable_step| |done..].
    apply after_armed; [by apply reachable_consistent|done..].
Qed.
End Armed.

Section HandleInvariant.
Context `{JSONCodec}.

(** C3, amended.  In every state that a run [cs] reaches, an event of the
    table that holds a timer handle ([jobId]) has status scheduled or
    running, and the scheduler is not paused: the handle of a timer that
    fired stays on its event while the handler runs.  Conversely an event
    of the table whose status is scheduled holds a handle, and the
    scheduler is not paused, as long as no [executeImmediately] of the run
    was rejected for a missing handler. *)
Theorem handle_iff_armed cs s i l e :
  run cs constructor = Some s → getEvent i s = Some (l, e) →
  (is_Some (Event.jobId e) →
     (Event.status e = scheduled ∨ Event.status e = running) ∧ status s ≠ paused) ∧
  (executesCompleted cs constructor → Event.status e = scheduled →
     is_Some (Event.jobId e) ∧ status s ≠ paused).
Proof.
  intros Hrun [Hl He]%getEvent_Some. apply Map_get_elem_of in Hl.
  pose proof (run_reachable _ _ _ reachable_constructor Hrun) as Hc%reachable_consistent.
  assert (is_Some (Event.jobId e) →
          (Event.status e = scheduled ∨ Event.status e = running) ∧ status s ≠ paused) as H1.
  { intros Hj. by eapply (handle_held _ _ Hc). }
  split; [done|]. intros Hex Hst.
  assert (armed constructor) as Ha0 by (by intros ? ? ? ?%elem_of_nil).
  pose proof (run_armed _ _ _ reachable_constructor Ha0 Hrun Hex) as Ha.
  assert (is_Some (Event.jobId e)) as Hj by (by eapply Ha).
  split; [done|]. by apply H1.
Qed.
End HandleInvariant.

Section HandleInvariantSample.
#[local] Existing Instance JSONText.codec.

Lemma handle_iff_armed_witness :
  let s := Examples.the (run Examples.one_armed constructor) in
  ∃ l e, getEvent "e1" s = Some (l, e) ∧ Event.status e = scheduled ∧
         is_Some (Event.jobId e) ∧ status s ≠ paused.
Proof.
  intros s.
  assert (getEvent "e1" s
          = Some (0%nat, Event.mk "e1" "ping" Examples.noParams scheduled 0 100 100 false
                           (Some 0%nat))) as Hg by (vm_compute; reflexivity).
  eexists _, _. split; [exact Hg|]. split; [reflexivity|].
  eapply (handle_iff_armed Examples.one_armed s "e1").
  - vm_compute. reflexivity.
  - exact Hg.
  - simpl. tauto.
  - reflexivity.
Defined.
End HandleInvariantSample.

(** * Further properties of the scheduler *)

(** ** The registry of handlers only grows *)

Lemma scheduleEvent_callbackMap l delay s :
  callbackMap (scheduleEvent l delay s) = callbackMap s.
Proof.
  destruct (heap s !! l) as [e|] eqn:He.
  - rewrite (scheduleEvent_result _ _ _ _ He). cbv zeta. by case_decide.
  - unfold scheduleEvent, deref. by rewrite He.
Qed.

Lemma addEvent_callbackMap i n p d r now s :
  callbackMap (addEvent i n p d r now s).2 = callbackMap s.
Proof.
  unfold addEvent. destruct (callbackMap s !! n); [|done].
  simpl. by rewrite scheduleEvent_callbackMap.
Qed.

Lemma removeEvent_callbackMap i s : callbackMap (removeEvent i s) = callbackMap s.
Proof. apply removeEvent_frame. Qed.

Lemma pauseEvent_callbackMap i now s : callbackMap (pauseEvent i now s) = callbackMap s.
Proof.
  unfold pauseEvent. destruct (getEvent i s) as [[l e]|]; [|done].
  case_decide; [done|]. by destruct (Event.jobId e).
Qed.

Lemma resumeEvent_callbackMap i now s : callbackMap (resumeEvent i now s) = callbackMap s.
Proof.
  unfold resumeEvent. destruct (getEvent i s) as [[l e]|]; [|done].
  case_decide; [done|]. by rewrite scheduleEvent_callbackMap.
Qed.

Lemma forEachAt_keeps {A B} (g : State → B) (body : nat → A → State → State) :
  (∀ k x s, g (body k x s) = g s) →
  ∀ xs k s, g (forEachAt body k xs s) = g s.
Proof.
  intros Hb xs. induction xs as [|x xs IH]; simpl; [done|].
  intros k s. by rewrite IH, Hb.
Qed.

Lemma foldl_removeEvent_keeps {B} (g : State → B) :
  (∀ i s, g (removeEvent i s) = g s) →
  ∀ ids s, g (foldl (λ s' i, removeEvent i s') s ids) = g s.
Proof.
  intros Hg ids. induction ids as [|i ids IH]; simpl; [done|].
  intros s. by rewrite IH, Hg.
Qed.

Lemma runEvent_callbackMap l s : callbackMap (runEvent l s).2 = callbackMap s.
Proof.
  unfold runEvent. destruct (deref l s) as [e|]; [|done].
  by destruct (callbackMap s !! Event.lookupName e).
Qed.

Lemma runEvent_resumed_callbackMap l now s :
  callbackMap (runEvent_resumed l now s).2 = callbackMap s.
Proof.
  unfold runEvent_resumed. destruct (deref l _) as [e|]; [|done].
  destruct (Event.autoRepeat e).
  - pose proof (addEvent_callbackMap (Event.id e) (Event.lookupName e) (Event.params e)
                  (Event.duration e) true now
                  (update l (λ e, Event.set_jobId None (Event.set_status done e))
                     (set_awaiting (dropFirst l (awaiting s)) s))) as Hs.
    by destruct (addEvent _ _ _ _ _ _ _) as [[?|?|] ?].
  - simpl. by rewrite removeEvent_callbackMap.
Qed.

Lemma executeImmediately_callbackMap i s :
  callbackMap (executeImmediately i s).2 = callbackMap s.
Proof.
  unfold executeImmediately. destruct (getEvent i s) as [[l e]|]; [|done].
  case_decide; [done|]. rewrite runEvent_callbackMap. by destruct (Event.jobId e).
Qed.

Lemma timerFires_callbackMap h s : callbackMap (timerFires h s).2 = callbackMap s.
Proof.
  unfold timerFires. destruct (List.find _ _); [|done]. by rewrite runEvent_callbackMap.
Qed.

Lemma forEach_loadEvent_callbackMap js s :
  callbackMap (forEach loadEvent js s).2 = callbackMap s.
Proof.
  revert s. induction js as [|j js IH]; simpl; [done|]. intros s.
  assert (callbackMap (loadEvent j s).2 = callbackMap s) as Hs.
  { unfold loadEvent. destruct (statusIsLoadable j); [|done].
    destruct (from_option _ _ _); [done|].
    destruct (asEvent j); [|done]. simpl. by rewrite scheduleEvent_callbackMap. }
  destruct (loadEvent j s) as [[[]|?|] s1]; simpl in *; [|done..].
  by rewrite IH.
Qed.

Section Registry.
Context `{JSONCodec}.

Lemma after_callbackMap c s n cb :
  callbackMap s !! n = Some cb → callbackMap (after c s) !! n = Some cb.
Proof.
  intros Hn. unfold after. destruct c; simpl;
    rewrite ?pauseEvent_callbackMap, ?resumeEvent_callbackMap, ?removeEvent_callbackMap,
      ?executeImmediately_callbackMap, ?timerFires_callbackMap,
      ?runEvent_resumed_callbackMap; try done.
  - unfold registerCallback. destruct (callbackMap s !! lookupName) eqn:Hl; [done|].
    simpl. rewrite lookup_insert_ne; [done|]. intros ->. congruence.
  - pose proof (addEvent_callbackMap i lookupName params duration autoRepeat now s) as Ha.
    destruct (addEvent _ _ _ _ _ _ _) as [[?|?|] ?]; simpl in *; by rewrite Ha.
  - unfold pauseAll. rewrite (forEachAt_keeps callbackMap); [done|].
    intros. apply pauseEvent_callbackMap.
  - unfold removeAllByType.
    by rewrite (foldl_removeEvent_keeps callbackMap removeEvent_callbackMap).
  - apply (resumeAll_preserves (λ t, callbackMap t !! n = Some cb)); [done|].
    intros i t Ht. by rewrite resumeEvent_callbackMap.
  - unfold loadEvents. destruct (JSON_parse serializedData) as [[]|]; try done.
    by rewrite forEach_loadEvent_callbackMap.
Qed.

(** X1.  A registered handler is never unregistered nor replaced: after
    any run from a scheduler in which [n] is bound to [cb], [n] is still
    bound to [cb]; every further [registerCallback] of [n] throws and
    leaves the scheduler as it is, and [addEvent] with [n] returns the id. *)
Theorem registered_handler_stays cs s s' n cb :
  run cs s = Some s' → callbackMap s !! n = Some cb →
  callbackMap s' !! n = Some cb ∧
  (∀ cb', registerCallback n cb' s'
          = (Throw (Error ("Callback for '" +:+ n +:+ "' already registered.")), s')) ∧
  (∀ i p d r now, (addEvent i n p d r now s').1 = Normal i).
Proof.
  intros Hrun Hn.
  assert (callbackMap s' !! n = Some cb) as Hn'.
  { revert s Hrun Hn. induction cs as [|c cs IH]; simpl; intros s.
    - by intros [= <-].
    - destruct (possible c s); [|done]. intros Hrun Hn.
      apply (IH (after c s)); [done|]. by apply after_callbackMap. }
  split; [done|]. split.
  - intros cb'. unfold registerCallback. by rewrite Hn'.
  - intros i p d r now. unfold addEvent. by rewrite Hn'.
Qed.
End Registry.

(** ** Removing *)

Lemma getEvent_removeEvent_ne i i' s :
  i' ≠ i → getEvent i' (removeEvent i s) = getEvent i' s.
Proof.
  intros Hne. unfold removeEvent. destruct (getEvent i s) as [[l e]|]; [|done].
  unfold getEvent, deref. simpl. rewrite Map_get_delete_ne by done.
  by destruct (Event.jobId e).
Qed.

(** X2.  [removeEvent] is idempotent: removing an id a second time changes
    nothing, whatever the scheduler. *)
Theorem removeEvent_idempotent i s :
  removeEvent i (removeEvent i s) = removeEvent i s.
Proof.
  unfold removeEvent at 1. by rewrite getEvent_removeEvent.
Qed.

Lemma filter_all {A} (P : A → Prop) `{!∀ x, Decision (P x)} (l : list A) :
  (∀ x, x ∈ l → P x) → filter P l = l.
Proof.
  induction l as [|a l IH]; [done|]. intros Hall.
  rewrite filter_cons_True by (apply Hall; left). f_equal. apply IH.
  intros x Hx. apply Hall. by right.
Qed.

Lemma removeEvent_timers x i s l e :
  consistent_but x s → getEvent i s = Some (l, e) →
  timers (removeEvent i s) = filter (λ t, target t ≠ l) (timers s).
Proof.
  intros Hc Hg. unfold removeEvent. rewrite Hg.
  apply getEvent_Some in Hg as [Hl He].
  destruct (Event.jobId e) as [h|] eqn:Hj; simpl.
  - by apply (clearTimeout_own x s l e).
  - symmetry. apply filter_all. intros t Hin. by eapply no_handle_no_timer.
Qed.

Section Removing.
Context `{JSONCodec}.

(** X3.  In a reachable scheduler, [removeEvent] of a stored event takes
    its id out of the table, cancels the pending timers of that event and
    no other, and leaves every other event of the table, the order of the
    remaining keys and all objects as they were; the id is then no longer
    scheduled. *)
Theorem removeEvent_cancels_own s i l e :
  reachable s → getEvent i s = Some (l, e) →
  let s' := removeEvent i s in
  getEvent i s' = None ∧ eventIsScheduled i s' = false ∧
  (∀ i', i' ≠ i → getEvent i' s' = getEvent i' s) ∧
  Map_keys (eventMap s') = filter (λ k, k ≠ i) (Map_keys (eventMap s)) ∧
  timers s' = filter (λ t, target t ≠ l) (timers s) ∧
  heap s' = heap s ∧ awaiting s' = awaiting s.
Proof.
  intros Hc%reachable_consistent Hg s'.
  assert (getEvent i s' = None) as Hnone by apply getEvent_removeEvent.
  split_and!.
  - done.
  - unfold eventIsScheduled. by rewrite Hnone.
  - intros i' Hne. by apply getEvent_removeEvent_ne.
  - unfold s'. by rewrite (removeEvent_eventMap _ _ _ Hc), Map_keys_delete.
  - by apply (removeEvent_timers None _ _ _ e).
  - apply removeEvent_heap.
  - apply removeEvent_frame.
Qed.
End Removing.

(** ** Pausing and resuming one event *)

Lemma getEvent_update l f s i l' e :
  getEvent i s = Some (l', e) →
  getEvent i (update l f s) = Some (l', if decide (l' = l) then f e else e).
Proof.
  intros [Hl He]%getEvent_Some. apply getEvent_Some. split; [done|].
  simpl. by apply alter_lookup_of.
Qed.

Lemma pauseEvent_skips i now s :
  (∀ l e, getEvent i s = Some (l, e) → Event.status e = scheduled → Event.jobId e = None) →
  pauseEvent i now s = s.
Proof.
  intros Hskip. unfold pauseEvent. destruct (getEvent i s) as [[l e]|]; [|done].
  case_decide as Hst; [done|]. rewrite (Hskip l e); [done..|].
  by destruct (decide (Event.status e = scheduled)).
Qed.

(** X4.  [pauseEvent] is idempotent: a second [pauseEvent] of the same id,
    at whatever time, changes nothing. *)
Theorem pauseEvent_idempotent i now now' s :
  pauseEvent i now' (pauseEvent i now s) = pauseEvent i now s.
Proof.
  apply pauseEvent_skips. intros l e'. unfold pauseEvent.
  destruct (getEvent i s) as [[l0 e]|] eqn:Hg; [|by rewrite Hg].
  case_decide as Hst; [rewrite Hg; intros [= -> ->]; done|].
  destruct (Event.jobId e) as [h|] eqn:Hj; [|rewrite Hg; intros [= -> ->]; done].
  assert (getEvent i (clearTimeout h s) = Some (l0, e)) as Hg' by done.
  rewrite (getEvent_update _ _ _ _ _ _ Hg'), decide_True by done.
  by intros [= -> <-].
Qed.

Lemma pauseEvent_armed_result x i now s l e h :
  consistent_but x s → getEvent i s = Some (l, e) → Event.status e = scheduled →
  Event.jobId e = Some h →
  pauseEvent i now s =
  mkState (eventMap s) (callbackMap s) (status s)
    (<[l := Event.mk (Event.id e) (Event.lookupName e) (Event.params e) paused
              (Event.addedAtTime e) (Event.remainingTime e - (now - Event.addedAtTime e))
              (Event.duration e) (Event.autoRepeat e) None]> (heap s))
    (filter (λ t, target t ≠ l) (timers s)) (nextTimeout s) (awaiting s).
Proof.
  intros Hc Hg Hst Hj. unfold pauseEvent. rewrite Hg, decide_False, Hj by naive_solver.
  apply getEvent_Some in Hg as [Hl He].
  unfold update, clearTimeout. simpl.
  rewrite (alter_as_insert _ _ _ _ He), (clearTimeout_own _ _ _ _ _ Hc He Hj).
  by destruct s.
Qed.

Section PauseResume.
Context `{JSONCodec}.

(** X5.  Pausing an armed event at [t1] and resuming it at [t2] conserves
    what was left of its delay: the timer of the event is replaced by one
    for [remainingTime - (t1 - addedAtTime)], whatever [t2] is; the event is
    scheduled again with the new handle and [addedAtTime = t2], it moves to
    the end of the table, and its [remainingTime] is that same amount when
    positive and [duration] otherwise. *)
Theorem pause_resume_conserves s i l e h t1 t2 :
  reachable s → getEvent i s = Some (l, e) → Event.status e = scheduled →
  Event.jobId e = Some h →
  let left := Event.remainingTime e - (t1 - Event.addedAtTime e) in
  let s' := resumeEvent i t2 (pauseEvent i t1 s) in
  getEvent i s'
  = Some (l, Event.mk i (Event.lookupName e) (Event.params e) scheduled t2
               (if decide (left ≤ 0) then Event.duration e else left)
               (Event.duration e) (Event.autoRepeat e) (Some (nextTimeout s))) ∧
  timers s' = filter (λ t, target t ≠ l) (timers s) ++ [mkTimer (nextTimeout s) l left] ∧
  Map_keys (eventMap s') = filter (λ k, k ≠ i) (Map_keys (eventMap s)) ++ [i] ∧
  (∀ i', i' ≠ i → getEvent i' s' = getEvent i' s).
Proof.
  intros Hc%reachable_consistent Hg Hst Hj left s'.
  pose proof (pauseEvent_consistent i t1 s Hc) as Hc1.
  pose proof (pauseEvent_armed_result _ i t1 s l e h Hc Hg Hst Hj) as Hp.
  pose proof Hg as [Hl He]%getEvent_Some.
  pose proof (Map_get_elem_of _ _ _ Hl) as Hin.
  destruct (handle_held _ _ Hc i l e Hin He) as [_ Hact]; [by rewrite Hj|].
  set (e1 := Event.mk (Event.id e) (Event.lookupName e) (Event.params e) paused
               (Event.addedAtTime e) left (Event.duration e) (Event.autoRepeat e) None).
  assert (getEvent i (pauseEvent i t1 s) = Some (l, e1)) as Hg1.
  { rewrite Hp. apply getEvent_Some. split; [done|]. simpl.
    apply list_lookup_insert_eq. by eapply lookup_lt_Some. }
  assert (status (pauseEvent i t1 s) ≠ paused) as Hact1 by (by rewrite pauseEvent_status).
  pose proof (resumeEvent_paused i t2 _ l e1 Hc1 Hact1 Hg1 eq_refl) as Hr.
  fold s' in Hr. rewrite Hp in Hr. simpl in Hr. rewrite list_insert_insert_eq in Hr.
  pose proof (lookup_lt_Some _ _ _ He) as Hlt.
  split_and!.
  - rewrite Hr. apply getEvent_Some. simpl. split.
    + rewrite <- (Map_set_fresh _ _ _ (Map_delete_absent i (eventMap s))).
      apply Map_get_set_eq.
    + by rewrite list_lookup_insert_eq.
  - by rewrite Hr.
  - rewrite Hr. simpl. unfold Map_keys. rewrite fmap_app. simpl.
    f_equal. apply Map_keys_delete.
  - intros i' Hne. rewrite Hr. unfold getEvent, deref. simpl.
    rewrite Map_get_snoc_ne, Map_get_delete_ne by done.
    destruct (Map_get i' (eventMap s)) as [l'|] eqn:Hl'; [|done].
    rewrite list_lookup_insert_ne; [done|]. intros <-.
    apply Hne. apply Map_get_elem_of in Hl'. by eapply (table_injective _ s).
Qed.
End PauseResume.

(** ** Running an event *)

Lemma set_jobId_None_id e : Event.jobId e = None → Event.set_jobId None e = e.
Proof. destruct e. simpl. by intros ->. Qed.

(** [executeImmediately] on a scheduled event: the handle is cleared, the
    timers of the event are cancelled, and [runEvent] takes over. *)
Lemma executeImmediately_result x i s l e :
  consistent_but x s → getEvent i s = Some (l, e) → Event.status e = scheduled →
  executeImmediately i s =
  runEvent l (mkState (eventMap s) (callbackMap s) (status s)
                (<[l := Event.set_jobId None e]> (heap s))
                (filter (λ t, target t ≠ l) (timers s)) (nextTimeout s) (awaiting s)).
Proof.
  intros Hc Hg Hst. unfold executeImmediately. rewrite Hg, decide_False by naive_solver.
  apply getEvent_Some in Hg as [Hl He]. f_equal.
  destruct (Event.jobId e) as [h|] eqn:Hj.
  - unfold update, clearTimeout. simpl.
    by rewrite (alter_as_insert _ _ _ _ He), (clearTimeout_own _ _ _ _ _ Hc He Hj).
  - rewrite set_jobId_None_id, list_insert_id by done.
    rewrite filter_all; [by destruct s|].
    intros t Hin. by eapply no_handle_no_timer.
Qed.

Lemma executeImmediately_skips i s :
  (∀ l e, getEvent i s = Some (l, e) → Event.status e ≠ scheduled) →
  executeImmediately i s = (Normal (), s).
Proof.
  intros Hskip. unfold executeImmediately. destruct (getEvent i s) as [[l e]|]; [|done].
  rewrite decide_True; [done|]. by apply (Hskip l).
Qed.

Lemma resumeEvent_skips i now s :
  (∀ l e, getEvent i s = Some (l, e) → Event.status e ≠ paused) →
  resumeEvent i now s = s.
Proof.
  intros Hskip. unfold resumeEvent. destruct (getEvent i s) as [[l e]|]; [|done].
  rewrite decide_True; [done|]. by apply (Hskip l).
Qed.

Section Running.
Context `{JSONCodec}.

(** X6.  [executeImmediately] of a scheduled event whose handler is
    registered cancels the pending timers of the event (and no other),
    clears its handle, marks it running and starts its handler; the table
    and the other objects are as before.  A second [executeImmediately] of
    the id then does nothing. *)
Theorem executeImmediately_starts s i l e cb :
  reachable s → getEvent i s = Some (l, e) → Event.status e = scheduled →
  callbackMap s !! Event.lookupName e = Some cb →
  ∃ s', executeImmediately i s = (Normal (), s') ∧
    getEvent i s' = Some (l, Event.set_jobId None (Event.set_status running e)) ∧
    timers s' = filter (λ t, target t ≠ l) (timers s) ∧
    awaiting s' = awaiting s ++ [l] ∧
    eventMap s' = eventMap s ∧
    (∀ l', l' ≠ l → heap s' !! l' = heap s !! l') ∧
    executeImmediately i s' = (Normal (), s').
Proof.
  intros Hc%reachable_consistent Hg Hst Hcb.
  rewrite (executeImmediately_result _ _ _ _ _ Hc Hg Hst).
  pose proof Hg as [Hl He]%getEvent_Some.
  pose proof (lookup_lt_Some _ _ _ He) as Hlt.
  unfold runEvent, deref. simpl. rewrite list_lookup_insert_eq by done. simpl.
  rewrite Hcb. eexists. split; [done|].
  assert (getEvent i
            (set_awaiting (awaiting s ++ [l])
               (update l (Event.set_status running)
                  (mkState (eventMap s) (callbackMap s) (status s)
                     (<[l := Event.set_jobId None e]> (heap s))
                     (filter (λ t, target t ≠ l) (timers s)) (nextTimeout s) (awaiting s))))
          = Some (l, Event.set_jobId None (Event.set_status running e))) as Hg'.
  { apply getEvent_Some. split; [done|]. simpl.
    rewrite (alter_lookup_of _ _ _ _ (Event.set_jobId None e))
      by (by apply list_lookup_insert_eq).
    by rewrite decide_True. }
  split_and!; try done.
  - intros l' Hne. simpl. by rewrite list_lookup_alter_ne, list_lookup_insert_ne.
  - apply executeImmediately_skips. intros l0 e0. rewrite Hg'. by intros [= <- <-].
Qed.

(** X7.  [executeImmediately] of a scheduled event whose handler is not
    registered (an event that [loadEvents] restored) throws the error of
    [runEvent] after the timer was cancelled and the handle cleared: the
    event stays in the table, scheduled, with no timer that would ever run
    it, and neither [pauseEvent] nor [resumeEvent] changes it. *)
Theorem executeImmediately_strands s i l e :
  reachable s → getEvent i s = Some (l, e) → Event.status e = scheduled →
  callbackMap s !! Event.lookupName e = None →
  ∃ s', executeImmediately i s
        = (Throw (Error ("Callback for '" +:+ Event.lookupName e +:+ "' not found.")), s') ∧
    getEvent i s' = Some (l, Event.set_jobId None e) ∧
    eventIsScheduled i s' = true ∧
    timers s' = filter (λ t, target t ≠ l) (timers s) ∧
    (∀ t, t ∈ timers s' → target t ≠ l) ∧
    (∀ now, pauseEvent i now s' = s') ∧ (∀ now, resumeEvent i now s' = s').
Proof.
  intros Hc%reachable_consistent Hg Hst Hcb.
  rewrite (executeImmediately_result _ _ _ _ _ Hc Hg Hst).
  pose proof Hg as [Hl He]%getEvent_Some.
  pose proof (lookup_lt_Some _ _ _ He) as Hlt.
  unfold runEvent, deref. simpl. rewrite list_lookup_insert_eq by done. simpl.
  rewrite Hcb. eexists. split; [done|].
  set (s' := mkState _ _ _ _ _ _ _).
  assert (getEvent i s' = Some (l, Event.set_jobId None e)) as Hg'.
  { apply getEvent_Some. split; [done|]. simpl. by rewrite list_lookup_insert_eq. }
  split_and!; try done.
  - unfold eventIsScheduled. rewrite Hg'. apply bool_decide_eq_true. by left.
  - simpl. by intros t [? _]%list_elem_of_filter.
  - intros now. apply pauseEvent_skips. intros l0 e0. rewrite Hg'. by intros [= <- <-].
  - intros now. apply resumeEvent_skips. intros l0 e0. rewrite Hg'.
    intros [= <- <-]. simpl. by rewrite Hst.
Qed.

(** X8.  A pending timer belongs to a scheduled event of the table that
    holds its handle.  When the host fires it, the timers of that event are
    gone (no second firing), and, if the handler of the event is
    registered, the event is marked running, keeps the handle of the timer
    that fired, and its handler is started; if it is not, the firing is
    rejected with the error of [runEvent] and the event stays as it is. *)
Theorem timerFires_effect s t :
  reachable s → t ∈ timers s →
  ∃ e, getEvent (Event.id e) s = Some (target t, e) ∧ Event.status e = scheduled ∧
    Event.jobId e = Some (handle t) ∧
    let r := timerFires (handle t) s in
    timers r.2 = filter (λ t', target t' ≠ target t) (timers s) ∧
    eventMap r.2 = eventMap s ∧
    match callbackMap s !! Event.lookupName e with
    | Some _ =>
        r.1 = Normal () ∧ awaiting r.2 = awaiting s ++ [target t] ∧
        getEvent (Event.id e) r.2 = Some (target t, Event.set_status running e)
    | None =>
        r.1 = Throw (Error ("Callback for '" +:+ Event.lookupName e +:+ "' not found.")) ∧
        awaiting r.2 = awaiting s ∧ heap r.2 = heap s
    end.
Proof.
  intros Hc%reachable_consistent Hin.
  destruct (timers_held _ _ Hc _ Hin) as (e & He & Hj & Hst & Htab).
  exists e. pose proof Htab as Hl%(Map_elem_of_get _ _ _ _ Hc).
  split; [by apply getEvent_Some|]. do 2 (split; [done|]).
  unfold timerFires.
  destruct (List.find _ (timers s)) as [t'|] eqn:Hf.
  2:{ eapply List.find_none in Hf; [|by apply list_elem_of_In].
      by apply bool_decide_eq_false in Hf. }
  apply List.find_some in Hf as [Hin'%list_elem_of_In Hh%bool_decide_eq_true].
  assert (target t' = target t) as ->.
  { destruct (timers_held _ _ Hc _ Hin') as (e' & He' & Hj' & _). rewrite Hh in Hj'.
    by eapply (jobs_distinct _ _ Hc). }
  unfold runEvent, deref. simpl. rewrite He.
  assert (filter (λ t0, handle t0 ≠ handle t) (timers s)
          = filter (λ t', target t' ≠ target t) (timers s)) as Hown
    by (by eapply clearTimeout_own).
  destruct (callbackMap s !! Event.lookupName e); simpl.
  - split_and!; try done. apply getEvent_Some. split; [done|]. simpl.
    rewrite (alter_lookup_of _ _ _ _ _ He). by rewrite decide_True.
  - done.
Qed.
End Running.

(** ** What [eventIsScheduled] answers *)

Lemma live_weaken l s : live s → live_but l s.
Proof. intros Ha i l' e Hin He _. by apply (Ha i l'). Qed.

Lemma live_update l f s :
  live_but l s →
  (∀ e, heap s !! l = Some e →
     Event.status (f e) = scheduled ∨ Event.status (f e) = running
     ∨ Event.status (f e) = paused) →
  live (update l f s).
Proof.
  intros Ha Hf i l' e' Hin [[-> (e & He & ->)]|[Hne He]]%alter_lookup_Some.
  - by apply (Hf e).
  - by apply (Ha i l').
Qed.

Lemma live_but_update l f s : live_but l s → live_but l (update l f s).
Proof.
  intros Ha i l' e' Hin [[-> _]|[Hne He]]%alter_lookup_Some Hl; [done|].
  by apply (Ha i l').
Qed.

Lemma live_but_removeEvent l i s : live_but l s → live_but l (removeEvent i s).
Proof.
  intros Ha k l' e Hin He. rewrite removeEvent_heap in He.
  apply removeEvent_eventMap_subset in Hin. by apply (Ha k l').
Qed.

(** [scheduleEvent] decides on the status of its object and takes the
    entry of its id out of the table first. *)
Lemma scheduleEvent_live l delay s e :
  heap s !! l = Some e → live_but l (removeEvent (Event.id e) s) →
  live (scheduleEvent l delay s).
Proof.
  intros He Ha. rewrite (scheduleEvent_result _ _ _ _ He). cbv zeta.
  pose proof (lookup_lt_Some _ _ _ He) as Hlt.
  destruct (decide (status s = paused)); intros i l' e' Hin He'; simpl in *.
  - destruct (decide (l' = l)) as [->|Hne].
    + rewrite list_lookup_insert_eq in He' by done. injection He' as <-. auto.
    + rewrite list_lookup_insert_ne in He' by done.
      apply elem_of_Map_set in Hin as [[= -> ->]|Hin]; [done|].
      apply (Ha i l'); [done| |done]. by rewrite removeEvent_heap.
  - destruct (decide (l' = l)) as [->|Hne].
    + rewrite list_lookup_insert_eq in He' by done. injection He' as <-. auto.
    + rewrite list_lookup_insert_ne in He' by done.
      apply elem_of_Map_set in Hin as [[= -> ->]|Hin]; [done|].
      apply (Ha i l'); [done| |done]. by rewrite removeEvent_heap.
Qed.

Lemma live_alloc x e s :
  consistent_but x s → live s → live_but (length (heap s)) (alloc e s).2.
Proof.
  intros Hc Ha i l' e' Hin He' Hl. simpl in *.
  destruct (stored_under_id _ _ Hc _ _ Hin) as (e0 & He0 & _).
  rewrite (lookup_app_l_Some _ _ _ _ He0) in He'. injection He' as <-.
  by apply (Ha i l').
Qed.

Lemma addEvent_live i n p d r now s :
  consistent s → live s → live (addEvent i n p d r now s).2.
Proof.
  intros Hc Ha. unfold addEvent. destruct (callbackMap s !! n); [|done].
  simpl. eapply scheduleEvent_live; [apply alloc_lookup|].
  apply live_but_removeEvent. by eapply (live_alloc _ _ _ Hc).
Qed.

Lemma removeEvent_live i s : live s → live (removeEvent i s).
Proof.
  intros Ha k l e Hin He. rewrite removeEvent_heap in He.
  apply removeEvent_eventMap_subset in Hin. by apply (Ha k l).
Qed.

Lemma pauseEvent_live i now s : live s → live (pauseEvent i now s).
Proof.
  intros Ha. unfold pauseEvent. destruct (getEvent i s) as [[l e]|]; [|done].
  case_decide; [done|]. destruct (Event.jobId e); [|done].
  apply live_update; [by apply live_weaken|]. simpl. auto.
Qed.

Lemma resumeEvent_live i now s : live s → live (resumeEvent i now s).
Proof.
  intros Ha. unfold resumeEvent. destruct (getEvent i s) as [[l e]|] eqn:Hg; [|done].
  case_decide; [done|]. apply getEvent_Some in Hg as [_ He].
  eapply scheduleEvent_live.
  - simpl. by apply alter_lookup_of.
  - apply live_but_removeEvent, live_but_update. by apply live_weaken.
Qed.

Lemma runEvent_live l s : live s → live (runEvent l s).2.
Proof.
  intros Ha. unfold runEvent. destruct (deref l s) as [e|]; [|done].
  destruct (callbackMap s !! Event.lookupName e); [|done].
  apply (live_update l (Event.set_status running) s); [by apply live_weaken|].
  simpl. auto.
Qed.

Lemma executeImmediately_live i s : live s → live (executeImmediately i s).2.
Proof.
  intros Ha. unfold executeImmediately. destruct (getEvent i s) as [[l e]|] eqn:Hg; [|done].
  case_decide as Hst; [done|]. apply runEvent_live.
  destruct (Event.jobId e); [|done].
  apply live_update; [by apply live_weaken|].
  intros e0 He0. apply getEvent_Some in Hg as [Hl He]. simpl in He0.
  the_same e0 e. simpl. destruct (decide (Event.status e = scheduled)); [auto|done].
Qed.

Lemma timerFires_live h s : live s → live (timerFires h s).2.
Proof.
  intros Ha. unfold timerFires. destruct (List.find _ _) as [t|]; [|done].
  by apply runEvent_live.
Qed.

(** Taking the id of the object at [l] out of the table leaves no entry
    for [l]. *)
Lemma removeEvent_own_live i s l e :
  consistent s → heap s !! l = Some e → Event.id e = i → live_but l s →
  live (removeEvent i s).
Proof.
  intros Hc He Hid Hb k l' e' Hk He'. rewrite removeEvent_heap in He'.
  rewrite (removeEvent_eventMap _ _ _ Hc) in Hk.
  apply elem_of_Map_delete in Hk as [Hk Hne].
  apply (Hb k l'); [done..|]. intros ->.
  destruct (stored_under_id _ _ Hc _ _ Hk) as (e2 & He2 & Hid2). congruence.
Qed.

Lemma addEvent_own_live i n p d r now s l e :
  consistent s → heap s !! l = Some e → Event.id e = i →
  is_Some (callbackMap s !! n) → live_but l s →
  live (addEvent i n p d r now s).2.
Proof.
  intros Hc He Hid [cb Hcb] Hb. unfold addEvent. rewrite Hcb.
  simpl. eapply scheduleEvent_live; [apply alloc_lookup|]. cbn [Event.id].
  apply live_weaken, (removeEvent_own_live _ _ l e); [by apply consistent_alloc| |done|].
  - by apply lookup_app_l_Some.
  - intros k l' e' Hk He' Hne. simpl in Hk, He'.
    destruct (stored_under_id _ _ Hc _ _ Hk) as (e2 & He2 & _).
    rewrite (lookup_app_l_Some _ _ _ _ He2) in He'. injection He' as <-.
    by apply (Hb k l').
Qed.

(** [runEvent] then takes the entry of its id out of the table, or replaces
    it by a new object. *)
Lemma runEvent_resumed_live l now s :
  consistent s → l ∈ awaiting s → live s → live (runEvent_resumed l now s).2.
Proof.
  intros Hc Hin Ha. pose proof (done_consistent l s Hc Hin) as Hc2.
  unfold runEvent_resumed.
  set (s1 := set_awaiting _ s) in *.
  set (f := λ e, Event.set_jobId None (Event.set_status done e)) in *.
  destruct (awaiting_running _ _ Hc _ Hin) as (e0 & He0 & Hst0 & Hcb).
  assert (heap (update l f s1) !! l = Some (f e0)) as Hd.
  { simpl. rewrite (alter_lookup_of _ _ _ _ _ He0). by rewrite decide_True. }
  unfold deref. rewrite Hd. change (Event.autoRepeat (f e0)) with (Event.autoRepeat e0).
  change (Event.id (f e0)) with (Event.id e0).
  assert (live_but l (update l f s1)) as Hb.
  { apply live_but_update. by apply live_weaken. }
  destruct (Event.autoRepeat e0).
  - pose proof (addEvent_own_live (Event.id e0) (Event.lookupName (f e0))
                  (Event.params (f e0)) (Event.duration (f e0)) true now _ l (f e0)
                  Hc2 Hd eq_refl Hcb Hb) as Hadd.
    by destruct (addEvent _ _ _ _ _ _ _) as [[?|?|] ?].
  - simpl. by apply (removeEvent_own_live _ _ l (f e0)).
Qed.

Lemma forEach_loadEvent_live js s :
  consistent s → live s → live (forEach loadEvent js s).2.
Proof.
  revert s. induction js as [|j js IH]; simpl; [done|]. intros s Hc Ha.
  pose proof (loadEvent_consistent j _ Hc) as Hc1.
  assert (live (loadEvent j s).2) as Ha1.
  { unfold loadEvent. destruct (statusIsLoadable j); [|done].
    destruct (from_option _ _ _); [done|].
    destruct (asEvent j) as [e|]; [|done]. simpl.
    eapply scheduleEvent_live; [apply alloc_lookup|].
    apply live_but_removeEvent. by eapply (live_alloc _ _ _ Hc). }
  destruct (loadEvent j s) as [[[]|?|] s1]; simpl in *; auto.
Qed.

Section Live.
Context `{JSONCodec}.

Lemma after_live c s :
  consistent s → possible c s = true → live s → live (after c s).
Proof.
  intros Hc Hp Ha. unfold after. destruct c; simpl in *.
  - unfold registerCallback. by destruct (callbackMap s !! lookupName).
  - pose proof (addEvent_live i lookupName params duration autoRepeat now _ Hc Ha).
    by destruct (addEvent _ _ _ _ _ _ _) as [[?|?|] ?].
  - by apply removeEvent_live.
  - by apply pauseEvent_live.
  - by apply resumeEvent_live.
  - unfold pauseAll. apply forEachAt_preserves; [|done]. intros. by apply pauseEvent_live.
  - unfold removeAllByType.
    generalize (List.filter
      (λ i, match getEvent i s with
            | Some (_, e) => bool_decide (Event.lookupName e = type)
            | None => false
            end) (Map_keys (eventMap s))).
    intros ids. revert s Hc Hp Ha. induction ids as [|i ids IH]; simpl; [done|].
    intros s Hc Hp Ha. apply IH; [by apply removeEvent_consistent|done|].
    by apply removeEvent_live.
  - apply resumeAll_preserves; [done|]. intros. by apply resumeEvent_live.
  - by apply executeImmediately_live.
  - unfold loadEvents. destruct (JSON_parse serializedData) as [[]|]; try done.
    by apply forEach_loadEvent_live.
  - by apply timerFires_live.
  - apply bool_decide_eq_true in Hp. by apply runEvent_resumed_live.
  - done.
Qed.

Lemma reachable_live s : reachable s → live s.
Proof.
  induction 1 as [|s c Hr IH Hp].
  - by intros ? ? ? ?%elem_of_nil.
  - apply after_live; [by apply reachable_consistent|done..].
Qed.

(** X9.  In a reachable scheduler [eventIsScheduled(id)] answers whether
    the table has an event under [id]: every event of the table is
    scheduled, running or paused, since an event that is done has been
    taken out or replaced before [runEvent] returns. *)
Theorem eventIsScheduled_iff_stored s i :
  reachable s → eventIsScheduled i s = Map_has i (eventMap s).
Proof.
  intros Hr. pose proof (reachable_consistent _ Hr) as Hc.
  pose proof (reachable_live _ Hr) as Ha.
  unfold eventIsScheduled, getEvent, Map_has, deref.
  destruct (Map_get i (eventMap s)) as [l|] eqn:Hl; [|done].
  apply Map_get_elem_of in Hl.
  destruct (stored_under_id _ _ Hc _ _ Hl) as (e & He & _). rewrite He.
  apply bool_decide_eq_true. by apply (Ha i l).
Qed.
End Live.

(** ** Pausing every event *)

(** One pass of the loop of [pauseAll]. *)
Lemma pauseEvent_step i0 now t :
  consistent t →
  let t1 := pauseEvent i0 now t in
  consistent t1 ∧ eventMap t1 = eventMap t ∧ awaiting t1 = awaiting t ∧
  (∀ i, i ≠ i0 → getEvent i t1 = getEvent i t) ∧
  (∀ tm, tm ∈ timers t1 → tm ∈ timers t ∧ (i0, target tm) ∉ eventMap t) ∧
  (∀ l e, getEvent i0 t = Some (l, e) →
     getEvent i0 t1 = Some (l, if decide (pausable e) then pausedAt now e else e)).
Proof.
  intros Hc t1. split; [by apply pauseEvent_consistent|].
  destruct (getEvent i0 t) as [[l e]|] eqn:Hg.
  - destruct (decide (pausable e)) as [[Hst [h Hj]]|Hno].
    + pose proof (pauseEvent_armed_result _ i0 now t l e h Hc Hg Hst Hj) as Hp.
      fold t1 in Hp. pose proof Hg as [Hl He]%getEvent_Some.
      pose proof (lookup_lt_Some _ _ _ He) as Hlt.
      pose proof (Map_get_elem_of _ _ _ Hl) as Hin.
      rewrite Hp. split_and!; try done.
      * intros i Hne. unfold getEvent, deref. simpl.
        destruct (Map_get i (eventMap t)) as [l'|] eqn:Hl'; [|done].
        rewrite list_lookup_insert_ne; [done|]. intros <-.
        apply Hne. apply Map_get_elem_of in Hl'. by eapply (table_injective _ t).
      * simpl. intros tm [Hne Htm]%list_elem_of_filter. split; [done|].
        intros Hin'. apply Hne.
        by apply (Map_functional (eventMap t) i0 _ _ (keys_distinct _ _ Hc)).
      * intros l0 e0 [= <- <-]. rewrite decide_True by (split; [done|by rewrite Hj]).
        apply getEvent_Some. split; [done|]. simpl. by rewrite list_lookup_insert_eq.
    + assert (t1 = t) as ->.
      { apply pauseEvent_skips. intros l0 e0. rewrite Hg. intros [= <- <-] Hst.
        destruct (Event.jobId e) eqn:Hj; [|done]. destruct Hno. split; [done|].
        by rewrite Hj. }
      split_and!; try done.
      * intros tm Htm. split; [done|]. intros Hin.
        destruct (timers_held _ _ Hc _ Htm) as (e' & He' & Hj' & Hst' & _).
        apply (Map_elem_of_get _ _ _ _ Hc) in Hin.
        assert (getEvent i0 t = Some (target tm, e')) as Hg' by (by apply getEvent_Some).
        apply Hno. rewrite Hg in Hg'. injection Hg' as _ ->. split; [done|].
        by rewrite Hj'.
      * intros l0 e0 [= <- <-]. by rewrite decide_False.
  - assert (t1 = t) as ->.
    { apply pauseEvent_skips. intros l0 e0. by rewrite Hg. }
    split_and!; try done. intros tm Htm. split; [done|].
    intros Hin%(Map_elem_of_get _ _ _ _ Hc).
    destruct (timers_held _ _ Hc _ Htm) as (e' & He' & _).
    assert (getEvent i0 t = Some (target tm, e')) as Hg' by (by apply getEvent_Some).
    congruence.
Qed.

(** The loop of [pauseAll], from any point of the table. *)
Lemma pause_loop clock ks :
  NoDup ks → ∀ k0 t, consistent t →
  let t' := forEachAt (λ k i, pauseEvent i (clock k)) k0 ks t in
  consistent t' ∧ eventMap t' = eventMap t ∧ awaiting t' = awaiting t ∧
  (∀ i, i ∉ ks → getEvent i t' = getEvent i t) ∧
  (∀ tm, tm ∈ timers t' →
     tm ∈ timers t ∧ ∀ i, i ∈ ks → (i, target tm) ∉ eventMap t) ∧
  (∀ j i l e, ks !! j = Some i → getEvent i t = Some (l, e) →
     getEvent i t'
     = Some (l, if decide (pausable e) then pausedAt (clock (k0 + j)%nat) e else e)).
Proof.
  induction ks as [|i0 ks IH]; intros Hnd k0 t Hc; simpl.
  { split_and!; try done.
    intros tm Htm. split; [done|]. by intros i ?%elem_of_nil. }
  apply NoDup_cons in Hnd as [Hi0 Hnd].
  destruct (pauseEvent_step i0 (clock k0) t Hc) as (Hc1 & Hm1 & Haw1 & Hf1 & Htm1 & He1).
  set (t1 := pauseEvent i0 (clock k0) t) in *.
  destruct (IH Hnd (S k0) t1 Hc1) as (Hc' & Hm & Haw & Hf & Htm & He).
  set (t' := forEachAt _ (S k0) ks t1) in *.
  split_and!.
  - done.
  - congruence.
  - congruence.
  - intros i [Hne Hi]%not_elem_of_cons. rewrite Hf by done. by apply Hf1.
  - intros tm [Hin1 Hks]%Htm. apply Htm1 in Hin1 as [Hin Hi0'].
    split; [done|]. intros i [->|Hi]%elem_of_cons; [done|].
    rewrite <- Hm1. by apply Hks.
  - intros [|j] i l e Hj Hg.
    + simpl in Hj. injection Hj as <-. rewrite Nat.add_0_r.
      rewrite Hf by done. by apply He1.
    + simpl in Hj.
      assert (i ≠ i0) as Hne.
      { intros ->. apply Hi0. by eapply list_elem_of_lookup_2. }
      assert (getEvent i t1 = Some (l, e)) as Hg1 by (by rewrite Hf1).
      specialize (He _ _ _ _ Hj Hg1).
      by replace (k0 + S j)%nat with (S k0 + j)%nat by lia.
Qed.

Lemma someRunning_true s i l e :
  getEvent i s = Some (l, e) → Event.status e = running → someRunning s = true.
Proof.
  intros [Hl He]%getEvent_Some Hst. unfold someRunning. apply existsb_exists.
  exists l. split.
  - apply list_elem_of_In, list_elem_of_fmap. exists (i, l). split; [done|].
    by apply Map_get_elem_of.
  - unfold deref. rewrite He. by apply bool_decide_eq_true.
Qed.

Section PauseAll.
Context `{JSONCodec}.

(** X10.  After the loop of [pauseAll] on a reachable scheduler no timer
    is pending, so nothing fires until events are resumed or added.  The
    [k]-th event of the table, if it was scheduled with a handle, is paused
    with its [remainingTime] reduced by the time it has waited at the
    [k]-th pass; any other event (running, paused) is left as it is, as are
    the table and the handlers that are executing. *)
Theorem pauseAll_effect clock s k i l e :
  reachable s →
  Map_keys (eventMap s) !! k = Some i → getEvent i s = Some (l, e) →
  let s' := pauseAll clock s in
  timers s' = [] ∧ eventMap s' = eventMap s ∧ awaiting s' = awaiting s ∧
  getEvent i s' = Some (l, if decide (pausable e) then pausedAt (clock k) e else e).
Proof.
  intros Hc%reachable_consistent Hk Hg s'.
  destruct (pause_loop clock (Map_keys (eventMap s)) (keys_distinct _ _ Hc) 0%nat s Hc)
    as (Hc' & Hm & Haw & _ & Htm & He).
  change (forEachAt _ 0%nat (Map_keys (eventMap s)) s) with s' in *.
  split_and!; try done.
  - destruct (timers s') as [|tm tms] eqn:Hts; [done|].
    destruct (Htm tm) as [Hin Hno]; [left|].
    destruct (timers_held _ _ Hc _ Hin) as (e' & _ & _ & _ & Htab).
    destruct (Hno (Event.id e')); [|done].
    apply list_elem_of_fmap. by exists (Event.id e', target tm).
  - by apply (He k).
Qed.

(** X11.  [pauseAll] followed by [resumeAll] conserves what was left of
    the delay of an armed event, whatever runs in between ([pauseAll] waits
    in [waitForIdle], [resumeAll] is suspended between its passes): if the
    [k]-th event of the table was armed when the loop of [pauseAll] reached
    it, and is still as that loop left it when a pass of [resumeAll]
    reaches it, this pass schedules it again under the same id, stamped
    with the time of the pass, and arms a timer whose delay is its
    [remainingTime] less the time it had waited when [pauseAll] reached it.
    The pass is the one that [resumeAll] runs with the call, when the event
    is the first of the table, or one that it runs after an [await]. *)
Theorem pauseAll_resumeAll_conserves clock1 s k i l e t ks now :
  reachable s →
  Map_keys (eventMap s) !! k = Some i → getEvent i s = Some (l, e) → pausable e →
  reachable t → getEvent i t = getEvent i (pauseAll clock1 s) →
  let left := Event.remainingTime e - (clock1 k - Event.addedAtTime e) in
  let armed_by (r : State * option (list string)) (h : Timeout) :=
    r.2 = Some ks ∧ status r.1 = running ∧
    getEvent i r.1
    = Some (l, Event.mk i (Event.lookupName e) (Event.params e) scheduled now
                 (if decide (left ≤ 0) then Event.duration e else left)
                 (Event.duration e) (Event.autoRepeat e) (Some h)) ∧
    mkTimer h l left ∈ timers r.1 in
  (status t = running → armed_by (resumeAll_resumed (i :: ks) now t) (nextTimeout t)) ∧
  (Map_keys (eventMap t) = i :: ks → armed_by (resumeAll now t) (nextTimeout t)).
Proof.
  intros Hc%reachable_consistent Hk Hg Hp Ht%reachable_consistent Hsame left armed_by.
  destruct (pause_loop clock1 (Map_keys (eventMap s)) (keys_distinct _ _ Hc) 0%nat s Hc)
    as (_ & _ & _ & _ & _ & He).
  specialize (He k i l e Hk Hg). rewrite decide_True in He by done. simpl in He.
  fold (pauseAll clock1 s) in He. rewrite <- Hsame in He.
  assert (∀ t', consistent t' → status t' = running →
            getEvent i t' = Some (l, pausedAt (clock1 k) e) →
            nextTimeout t' = nextTimeout t →
            armed_by (resumeEvent i now t', Some ks) (nextTimeout t)) as Hpass.
  { intros t' Hc' Hrun Hg' Hn.
    assert (status t' ≠ paused) as Hact by (by rewrite Hrun).
    destruct (resumeEvent_step i now t' Hc' Hact) as (_ & _ & _ & _ & _ & _ & Hev).
    specialize (Hev _ _ Hg'). rewrite decide_True in Hev by done. rewrite Hn in Hev.
    destruct Hev as [Hg2 Htm]. unfold armed_by. simpl.
    split_and!; [done|by rewrite resumeEvent_status|exact Hg2|exact Htm]. }
  split.
  - intros Hrun. by apply Hpass.
  - intros Hks. unfold resumeAll. simpl. rewrite Hks.
    apply Hpass; [by apply set_status_running_consistent|done..].
Qed.

(** X12.  A handler that rejects leaves its event behind: [runEvent] is
    abandoned at its [await], so the event stays in the table with status
    running and no activation that would complete it.  [pauseEvent],
    [resumeEvent] and [executeImmediately] do nothing to it, and the
    condition that [waitForIdle] polls stays true, also after the loop of
    [pauseAll]: [pauseAll] does not return while the event is in the
    table. *)
Theorem rejected_handler_blocks_idle s l e clock :
  reachable s → l ∈ awaiting s → getEvent (Event.id e) s = Some (l, e) →
  let s1 := runEvent_rejected l s in
  getEvent (Event.id e) s1 = Some (l, e) ∧ Event.status e = running ∧
  (l ∉ awaiting s1) ∧
  (∀ now, pauseEvent (Event.id e) now s1 = s1) ∧
  (∀ now, resumeEvent (Event.id e) now s1 = s1) ∧
  executeImmediately (Event.id e) s1 = (Normal (), s1) ∧
  someRunning s1 = true ∧ someRunning (pauseAll clock s1) = true.
Proof.
  intros Hc%reachable_consistent Hin Hg s1.
  assert (getEvent (Event.id e) s1 = Some (l, e)) as Hg1 by done.
  pose proof Hg as [Hl He]%getEvent_Some.
  destruct (awaiting_running _ _ Hc _ Hin) as (e' & He' & Hst & _). the_same e' e.
  pose proof (runEvent_rejected_consistent l s Hc Hin) as Hc1. fold s1 in Hc1.
  split_and!; try done.
  - simpl. intros Hin'.
    apply (dropFirst_NoDup l _ (awaiting_distinct _ _ Hc)) in Hin'. naive_solver.
  - intros now. apply pauseEvent_skips. intros l0 e0. rewrite Hg1.
    intros [= <- <-]. congruence.
  - intros now. apply resumeEvent_skips. intros l0 e0. rewrite Hg1.
    intros [= <- <-]. congruence.
  - apply executeImmediately_skips. intros l0 e0. rewrite Hg1.
    intros [= <- <-]. congruence.
  - by eapply someRunning_true.
  - destruct (pause_loop clock (Map_keys (eventMap s1)) (keys_distinct _ _ Hc1) 0%nat s1 Hc1)
      as (_ & _ & _ & _ & _ & Hev).
    assert (Event.id e ∈ Map_keys (eventMap s1)) as (j & Hj)%list_elem_of_lookup_1.
    { apply list_elem_of_fmap. exists (Event.id e, l). split; [done|].
      by apply Map_get_elem_of. }
    specialize (Hev j _ _ _ Hj Hg1).
    rewrite decide_False in Hev by (intros [? _]; congruence).
    by eapply someRunning_true.
Qed.
End PauseAll.

Section PauseAllLoop.
Context `{JSONCodec}.

(** X13.  The loop of [pauseAll], lines 126-128, leaves no event
    scheduled.  In a scheduler reached by a run in which no
    [executeImmediately] was rejected for a missing handler, when the loop
    is over no timer is pending and every event of the table is either
    paused, without a handle, or running as it was before the loop.  This
    is the state in which [pauseAll] begins to wait in [waitForIdle]; it is
    no promise about the state in which [pauseAll] returns, since what is
    called or completes during the wait is not paused (see
    [pauseAll_wait_rearms]). *)
Theorem pauseAll_loop_unschedules cs clock s :
  run cs constructor = Some s → executesCompleted cs constructor →
  timers (pauseAll clock s) = [] ∧
  ∀ i l e, getEvent i (pauseAll clock s) = Some (l, e) →
    (Event.status e = paused ∧ Event.jobId e = None) ∨
    (Event.status e = running ∧ getEvent i s = Some (l, e)).
Proof.
  intros Hrun Hex.
  pose proof (run_reachable _ _ _ reachable_constructor Hrun) as Hr.
  pose proof (reachable_consistent _ Hr) as Hc.
  pose proof (reachable_live _ Hr) as Hlive.
  assert (armed constructor) as Ha0 by (by intros ? ? ? ?%elem_of_nil).
  pose proof (run_armed _ _ _ reachable_constructor Ha0 Hrun Hex) as Ha.
  destruct (pause_loop clock (Map_keys (eventMap s)) (keys_distinct _ _ Hc) 0%nat s Hc)
    as (Hc' & Hm & _ & _ & Htm & Hev).
  fold (pauseAll clock s) in Hc', Hm, Htm, Hev.
  set (s' := pauseAll clock s) in *.
  split.
  { destruct (timers s') as [|tm tms] eqn:Hts; [done|].
    destruct (Htm tm) as [Hin Hno]; [left|].
    destruct (timers_held _ _ Hc _ Hin) as (e' & _ & _ & _ & Htab).
    destruct (Hno (Event.id e')); [|done].
    apply list_elem_of_fmap. by exists (Event.id e', target tm). }
  intros i l e' Hg'.
  pose proof Hg' as [Hl' He']%getEvent_Some.
  apply Map_get_elem_of in Hl' as Hin'. rewrite Hm in Hin'.
  destruct (stored_under_id _ _ Hc _ _ Hin') as (e & He & Hid).
  assert (getEvent i s = Some (l, e)) as Hg.
  { apply getEvent_Some. split; [|done]. by apply (Map_elem_of_get _ _ _ _ Hc). }
  assert (i ∈ Map_keys (eventMap s)) as (k & Hk)%list_elem_of_lookup_1.
  { apply list_elem_of_fmap. by exists (i, l). }
  specialize (Hev k i l e Hk Hg). rewrite Hg' in Hev. injection Hev as ->.
  destruct (decide (pausable e)) as [|Hno]; [by left|].
  destruct (Hlive i l e Hin' He) as [Hst|[Hst|Hst]].
  - destruct Hno. split; [done|]. by apply (Ha i l).
  - by right.
  - left. split; [done|]. exact (paused_no_handle None s i l e Hc Hin' He Hst).
Qed.
End PauseAllLoop.

(** ** Removing the events of a type *)

Lemma getEvent_None_absent x s i :
  consistent_but x s → getEvent i s = None → i ∉ Map_keys (eventMap s).
Proof.
  intros Hc Hg. apply Map_get_None. unfold getEvent, deref in Hg.
  destruct (Map_get i (eventMap s)) as [l|] eqn:Hl; [|done].
  apply Map_get_elem_of in Hl.
  destruct (stored_under_id _ _ Hc _ _ Hl) as (e & He & _). by rewrite He in Hg.
Qed.

(** One [removeEvent] of the loop. *)
Lemma removeEvent_step i0 s :
  consistent s →
  let s1 := removeEvent i0 s in
  consistent s1 ∧ heap s1 = heap s ∧ awaiting s1 = awaiting s ∧
  eventMap s1 = filter (λ p, p.1 ≠ i0) (eventMap s) ∧
  (∀ tm, tm ∈ timers s1 ↔ tm ∈ timers s ∧ (i0, target tm) ∉ eventMap s).
Proof.
  intros Hc s1. split; [by apply removeEvent_consistent|].
  split; [apply removeEvent_heap|]. split; [apply removeEvent_frame|].
  split; [unfold s1; by rewrite (removeEvent_eventMap _ _ _ Hc), Map_delete_filter|].
  intros tm. destruct (getEvent i0 s) as [[l e]|] eqn:Hg.
  - unfold s1. rewrite (removeEvent_timers _ _ _ _ _ Hc Hg), list_elem_of_filter.
    apply getEvent_Some in Hg as [Hl%Map_get_elem_of He]. split.
    + intros [Hne Hin]. split; [done|]. intros Hin'. apply Hne.
      by apply (Map_functional (eventMap s) i0 _ _ (keys_distinct _ _ Hc)).
    + intros [Hin Hno]. split; [|done]. intros Heq. apply Hno. by rewrite Heq.
  - assert (s1 = s) as -> by (unfold s1, removeEvent; by rewrite Hg).
    split; [|by intros [? _]]. intros Hin. split; [done|]. intros Hin'.
    apply (getEvent_None_absent _ _ _ Hc Hg), list_elem_of_fmap.
    by exists (i0, target tm).
Qed.

Lemma remove_loop ids :
  ∀ s, consistent s →
  let s' := foldl (λ s' i, removeEvent i s') s ids in
  consistent s' ∧ heap s' = heap s ∧ awaiting s' = awaiting s ∧
  eventMap s' = filter (λ p, p.1 ∉ ids) (eventMap s) ∧
  (∀ tm, tm ∈ timers s' ↔ tm ∈ timers s ∧ ∀ i, i ∈ ids → (i, target tm) ∉ eventMap s).
Proof.
  induction ids as [|i0 ids IH]; intros s Hc; simpl.
  { split_and!; try done.
    - symmetry. apply filter_all. intros p _. apply not_elem_of_nil.
    - intros tm. split; [|by intros [? _]]. intros Hin. split; [done|].
      by intros i ?%elem_of_nil. }
  destruct (removeEvent_step i0 s Hc) as (Hc1 & Hh1 & Haw1 & Hm1 & Htm1).
  destruct (IH _ Hc1) as (Hc' & Hh & Haw & Hm & Htm).
  split_and!; try congruence.
  - rewrite Hm, Hm1, list_filter_filter. apply filter_ext_elem.
    intros p _. rewrite not_elem_of_cons. tauto.
  - intros tm. rewrite Htm, Htm1. split.
    + intros [[Hin Hi0] Hids]. split; [done|]. intros i [->|Hi]%elem_of_cons; [done|].
      intros Hin'. apply (Hids i Hi). rewrite Hm1. apply list_elem_of_filter.
      split; [|done]. simpl. intros ->. done.
    + intros [Hin Hids]. split; [split; [done|]; apply Hids; left|].
      intros i Hi Hin'. rewrite Hm1 in Hin'. apply list_elem_of_filter in Hin' as [_ Hin'].
      apply (Hids i); [by right|done].
Qed.

Section RemoveAllByType.
Context `{JSONCodec}.

(** X14.  [removeAllByType(type)] on a reachable scheduler removes the
    events whose [lookupName] is [type] and no other: the table keeps, in
    their order, the events of the other types; the pending timers that
    remain are those of events of other types; the objects, and the
    handlers that are executing, are left as they are. *)
Theorem removeAllByType_effect ty s :
  reachable s →
  let s' := removeAllByType ty s in
  (∀ i l e, getEvent i s' = Some (l, e) ↔
            getEvent i s = Some (l, e) ∧ Event.lookupName e ≠ ty) ∧
  (∀ tm, tm ∈ timers s' ↔
         tm ∈ timers s ∧ ∃ e, heap s !! target tm = Some e ∧ Event.lookupName e ≠ ty) ∧
  eventMap s' `sublist_of` eventMap s ∧
  heap s' = heap s ∧ awaiting s' = awaiting s.
Proof.
  intros Hc%reachable_consistent s'. unfold removeAllByType in s'.
  set (ids := List.filter _ _) in s'.
  assert (∀ i, i ∈ ids ↔ ∃ l e, getEvent i s = Some (l, e) ∧ Event.lookupName e = ty)
    as Hids.
  { intros i. unfold ids. rewrite list_elem_of_In, List.filter_In. split.
    - intros [_ Hb]. destruct (getEvent i s) as [[l e]|]; [|done].
      apply bool_decide_eq_true in Hb. eauto.
    - intros (l & e & Hg & Hty). rewrite Hg. split; [|by apply bool_decide_eq_true].
      apply list_elem_of_In, list_elem_of_fmap. exists (i, l). split; [done|].
      apply getEvent_Some in Hg as [Hl _]. by apply Map_get_elem_of. }
  destruct (remove_loop ids s Hc) as (Hc' & Hh & Haw & Hm & Htm). fold s' in Hc', Hh, Haw, Hm, Htm.
  split_and!; try done.
  - intros i l e. rewrite !getEvent_Some, Hh.
    rewrite <- !(Map_elem_of_get _ _ _ _ Hc), <- !(Map_elem_of_get _ _ _ _ Hc').
    rewrite Hm, list_elem_of_filter. simpl. rewrite Hids. split.
    + intros [[Hno Hin] He]. split; [done|]. intros Hty. apply Hno.
      exists l, e. split; [|done]. apply getEvent_Some.
      by rewrite <- (Map_elem_of_get _ _ _ _ Hc).
    + intros [[Hin He] Hty]. split; [|done]. split; [|done].
      intros (l' & e' & [Hl' He']%getEvent_Some & Hty').
      apply (Map_elem_of_get _ _ _ _ Hc) in Hl'.
      assert (l' = l) as -> by (by eapply (Map_functional (eventMap s) i), Hin; [apply Hc|]).
      congruence.
  - intros tm. rewrite Htm. split.
    + intros [Hin Hno]. split; [done|].
      destruct (timers_held _ _ Hc _ Hin) as (e & He & _ & _ & Htab).
      exists e. split; [done|]. intros Hty. apply (Hno (Event.id e)); [|done].
      apply Hids. exists (target tm), e. split; [|done]. apply getEvent_Some.
      by rewrite <- (Map_elem_of_get _ _ _ _ Hc).
    + intros [Hin (e & He & Hty)]. split; [done|].
      intros i (l' & e' & [Hl' He']%getEvent_Some & Hty')%Hids Htab.
      apply (Map_elem_of_get _ _ _ _ Hc) in Hl'.
      assert (l' = target tm) as ->
        by (by eapply (Map_functional (eventMap s) i), Htab; [apply Hc|]).
      congruence.
  - rewrite Hm. apply sublist_filter.
Qed.
End RemoveAllByType.

(** ** A scheduler that was not resumed *)

(** The state in which [resumeEvent] leaves an event of a paused
    scheduler. *)
Lemma resumeEvent_in_paused i now s l e :
  consistent s → status s = paused → getEvent i s = Some (l, e) →
  resumeEvent i now s =
  mkState (Map_delete i (eventMap s) ++ [(i, l)]) (callbackMap s) (status s)
    (<[l := Event.mk i (Event.lookupName e) (Event.params e) paused now (rearmed e)
              (Event.duration e) (Event.autoRepeat e) None]> (heap s))
    (timers s) (nextTimeout s) (awaiting s).
Proof.
  intros Hc Hpa Hg. unfold resumeEvent. rewrite Hg.
  apply getEvent_Some in Hg as [Hl He]. pose proof (Map_get_elem_of _ _ _ Hl) as Hin.
  destruct (paused_quiet _ _ Hc Hpa) as (Hts & Haw & Hall).
  assert (Event.status e = paused) as Hst by (by eapply Hall).
  rewrite decide_False by (by rewrite Hst; intros ?).
  destruct (stored_under_id _ _ Hc _ _ Hin) as (e0 & He0 & Hid).
  the_same e0 e.
  pose proof (paused_no_handle _ _ _ _ _ Hc Hin He Hst) as Hj.
  set (g := λ e, Event.set_addedAtTime now (Event.set_status scheduled e)).
  set (s1 := update l g s).
  assert (heap s1 !! l = Some (g e)) as He1.
  { unfold s1. simpl. by rewrite list_lookup_alter_eq, He. }
  assert (consistent_but (Some l) s1) as Hc1.
  { apply consistent_update; [by apply consistent_weaken| |by intros ? ?].
    intros e' He'. the_same e' e.
    do 2 (split; [done|]). split; [|split].
    - intros (t & Ht & Htg). by eapply (no_handle_no_timer _ _ _ _ _ Hc He Hj) in Ht.
    - rewrite Haw. by intros ?%elem_of_nil.
    - intros _. split; [done|]. simpl. rewrite Hj. by intros [? ?]. }
  rewrite (scheduleEvent_result _ _ _ _ He1). cbv zeta.
  rewrite decide_True by done.
  change (Event.id (g e)) with (Event.id e). rewrite Hid.
  rewrite (removeEvent_eventMap _ i _ Hc1).
  rewrite (Map_set_fresh _ _ _ (Map_delete_absent _ _)).
  assert (timers (removeEvent i s1) = timers s) as ->.
  { unfold removeEvent, getEvent, deref. change (eventMap s1) with (eventMap s).
    rewrite Hl, He1. simpl. by rewrite Hj. }
  unfold s1. simpl. rewrite insert_alter_eq. f_equal.
  destruct e; simpl in *. by subst.
Qed.

Section NotResumed.
Context `{JSONCodec}.

Lemma after_status_keeps c s : isResumeAll c = false → status (after c s) = status s.
Proof.
  intros Hc. unfold after. destruct c; simpl; try done;
    rewrite ?pauseEvent_status, ?resumeEvent_status, ?removeEvent_status,
      ?pauseAll_status, ?removeAllByType_status,
      ?executeImmediately_status, ?loadEvents_status, ?timerFires_status,
      ?runEvent_resumed_status; try done.
  - unfold registerCallback. by destruct (callbackMap s !! lookupName).
  - pose proof (addEvent_status i lookupName params duration autoRepeat now s).
    by destruct (addEvent _ _ _ _ _ _ _) as [[?|?|] ?].
Qed.

Lemma run_status_keeps cs s s' :
  Forall (λ c, isResumeAll c = false) cs → run cs s = Some s' → status s' = status s.
Proof.
  intros Hcs. revert s. induction Hcs as [|c cs Hc Hcs IH]; simpl; intros s.
  - by intros [= <-].
  - destruct (possible c s); [|done]. intros Hrun%IH.
    by rewrite Hrun, after_status_keeps.
Qed.

(** X15.  A scheduler is constructed paused and stays so until the first
    [resumeAll]: whatever else is called before ([registerCallback],
    [addEvent], [loadEvents], [resumeEvent], [executeImmediately], ...),
    no timer is armed and no handler runs, and every event of the table is
    paused without a handle. *)
Theorem quiet_until_resumeAll cs s :
  run cs constructor = Some s → Forall (λ c, isResumeAll c = false) cs →
  status s = paused ∧ timers s = [] ∧ awaiting s = [] ∧
  ∀ i l e, getEvent i s = Some (l, e) →
    Event.status e = paused ∧ Event.jobId e = None ∧
    (∀ now, timers (resumeEvent i now s) = []) ∧
    executeImmediately i s = (Normal (), s).
Proof.
  intros Hrun Hcs.
  pose proof (run_reachable _ _ _ reachable_constructor Hrun) as Hc%reachable_consistent.
  pose proof (run_status_keeps _ _ _ Hcs Hrun) as Hpa. simpl in Hpa.
  destruct (paused_quiet _ _ Hc Hpa) as (Hts & Haw & Hall).
  split_and!; try done. intros i l e Hg.
  pose proof Hg as [Hl%Map_get_elem_of He]%getEvent_Some.
  assert (Event.status e = paused) as Hst by (by eapply Hall).
  split_and!; try done.
  - by eapply paused_no_handle.
  - intros now. by rewrite (resumeEvent_in_paused _ _ _ _ _ Hc Hpa Hg).
  - apply executeImmediately_skips. intros l0 e0. rewrite Hg. intros [= <- <-]. congruence.
Qed.

(** X16.  [resumeEvent] while the scheduler is paused arms nothing: the
    event stays paused without a handle, but it is stamped with the time of
    the call, a spent [remainingTime] is reset to [duration], and its key
    moves to the end of the table.  The other events are untouched. *)
Theorem resumeEvent_while_paused s i l e now :
  reachable s → status s = paused → getEvent i s = Some (l, e) →
  let s' := resumeEvent i now s in
  getEvent i s'
  = Some (l, Event.mk i (Event.lookupName e) (Event.params e) paused now (rearmed e)
               (Event.duration e) (Event.autoRepeat e) None) ∧
  timers s' = [] ∧
  Map_keys (eventMap s') = filter (λ k, k ≠ i) (Map_keys (eventMap s)) ++ [i] ∧
  (∀ i', i' ≠ i → getEvent i' s' = getEvent i' s).
Proof.
  intros Hc%reachable_consistent Hpa Hg s'.
  pose proof (resumeEvent_in_paused i now s l e Hc Hpa Hg) as Hr. fold s' in Hr.
  destruct (paused_quiet _ _ Hc Hpa) as (Hts & _).
  pose proof Hg as [Hl He]%getEvent_Some.
  pose proof (lookup_lt_Some _ _ _ He) as Hlt.
  rewrite Hr. split_and!.
  - apply getEvent_Some. simpl. split.
    + rewrite <- (Map_set_fresh _ _ _ (Map_delete_absent i (eventMap s))).
      apply Map_get_set_eq.
    + by rewrite list_lookup_insert_eq.
  - done.
  - simpl. unfold Map_keys. rewrite fmap_app. simpl. f_equal. apply Map_keys_delete.
  - intros i' Hne. unfold getEvent, deref. simpl.
    rewrite Map_get_snoc_ne, Map_get_delete_ne by done.
    destruct (Map_get i' (eventMap s)) as [l'|] eqn:Hl'; [|done].
    rewrite list_lookup_insert_ne; [done|]. intros <-.
    apply Hne. apply Map_get_elem_of in Hl', Hl. by eapply (table_injective _ s).
Qed.
End NotResumed.

(** ** Adding under an id that is in use *)

(** The state in which [addEvent] with a registered handler leaves a
    consistent scheduler. *)
Lemma addEvent_result i n p d r now s cb :
  consistent s → callbackMap s !! n = Some cb →
  addEvent i n p d r now s =
  (Normal i,
   if decide (status s = paused) then
     mkState (Map_delete i (eventMap s) ++ [(i, length (heap s))]) (callbackMap s) (status s)
       (heap s ++ [Event.mk i n p paused now d d r None])
       (timers (removeEvent i s)) (nextTimeout s) (awaiting s)
   else
     mkState (Map_delete i (eventMap s) ++ [(i, length (heap s))]) (callbackMap s) (status s)
       (heap s ++ [Event.mk i n p scheduled now d d r (Some (nextTimeout s))])
       (timers (removeEvent i s) ++ [mkTimer (nextTimeout s) (length (heap s)) d])
       (S (nextTimeout s)) (awaiting s)).
Proof.
  intros Hc Hcb. unfold addEvent. rewrite Hcb.
  set (e := Event.mk i n p _ now d d r None).
  assert (consistent (alloc e s).2) as Hca by (by apply consistent_alloc).
  change (let '(l, s1) := alloc e s in (Normal i, scheduleEvent l None s1))
    with (Normal i, scheduleEvent (length (heap s)) None (alloc e s).2).
  f_equal. rewrite (scheduleEvent_result _ _ _ e (alloc_lookup e s)). cbv zeta.
  change (Event.id e) with i.
  rewrite (removeEvent_eventMap _ _ _ Hca), (removeEvent_alloc_timers i e s eq_refl).
  rewrite (Map_set_fresh _ _ _ (Map_delete_absent _ _)).
  assert (∀ y, <[length (heap s) := y]> (heap (alloc e s).2) = heap s ++ [y]) as Hins.
  { intros y. simpl. rewrite insert_app_r_alt by lia. by rewrite Nat.sub_diag. }
  rewrite !Hins. simpl.
  assert ((if decide (d ≤ 0) then d else d) = d) as -> by (by destruct (decide (d ≤ 0))).
  unfold e. by destruct (decide (status s = paused)).
Qed.

Section Replacing.
Context `{JSONCodec}.

(** X17.  [addEvent] with a registered handler, on a reachable scheduler:
    the new event is stored as a new object under its id, at the end of the
    table.  An event that was stored under the id is replaced: its pending
    timers are cancelled, and its object leaves the table as it is.  The
    other events of the table and their timers are untouched. *)
Theorem addEvent_replaces i n p d r now s cb :
  reachable s → callbackMap s !! n = Some cb →
  ∃ s' e, addEvent i n p d r now s = (Normal i, s') ∧
    getEvent i s' = Some (length (heap s), e) ∧
    Map_keys (eventMap s') = filter (λ k, k ≠ i) (Map_keys (eventMap s)) ++ [i] ∧
    (∀ i', i' ≠ i → getEvent i' s' = getEvent i' s) ∧
    (∀ l0 e0, getEvent i s = Some (l0, e0) →
       heap s' !! l0 = Some e0 ∧ ∀ tm, tm ∈ timers s' → target tm ≠ l0) ∧
    (∀ tm, tm ∈ timers s → (i, target tm) ∉ eventMap s → tm ∈ timers s').
Proof.
  intros Hc%reachable_consistent Hcb.
  rewrite (addEvent_result _ _ _ _ _ _ _ _ Hc Hcb).
  set (l := length (heap s)).
  destruct (removeEvent_step i s Hc) as (_ & _ & _ & _ & Htm).
  assert (∀ l', (l' < l)%nat → ∀ y, (heap s ++ [y]) !! l' = heap s !! l') as Hold.
  { intros l' Hl' y. by apply lookup_app_l. }
  assert (∀ y, (heap s ++ [y]) !! l = Some y) as Hnew.
  { intros y. rewrite lookup_app_r by (unfold l; lia). by rewrite Nat.sub_diag. }
  eexists _, (if decide (status s = paused)
              then Event.mk i n p paused now d d r None
              else Event.mk i n p scheduled now d d r (Some (nextTimeout s))).
  split; [done|]. split_and!.
  - apply getEvent_Some.
    destruct (decide (status s = paused)); simpl;
      (split; [rewrite <- (Map_set_fresh _ _ _ (Map_delete_absent i (eventMap s)));
               apply Map_get_set_eq | apply Hnew]).
  - destruct (decide (status s = paused)); simpl;
      unfold Map_keys; rewrite fmap_app; simpl; f_equal; apply Map_keys_delete.
  - intros i' Hne. unfold getEvent, deref.
    destruct (decide (status s = paused)); simpl;
      rewrite Map_get_snoc_ne, Map_get_delete_ne by done;
      (destruct (Map_get i' (eventMap s)) as [l'|] eqn:Hl'; [|done]);
      apply Map_get_elem_of in Hl';
      destruct (stored_under_id _ _ Hc _ _ Hl') as (e' & He' & _);
      pose proof (lookup_lt_Some _ _ _ He') as Hlt;
      by rewrite Hold.
  - intros l0 e0 [Hl0%Map_get_elem_of He0]%getEvent_Some.
    pose proof (lookup_lt_Some _ _ _ He0) as Hlt. split.
    + destruct (decide (status s = paused)); simpl; by rewrite Hold.
    + intros tm Hin Htg.
      assert (tm ∈ timers (removeEvent i s) → False) as Hno.
      { intros [_ Hno]%Htm. apply Hno. by rewrite Htg. }
      destruct (decide (status s = paused)); simpl in Hin; [done|].
      apply elem_of_app in Hin as [?|Heq%list_elem_of_singleton]; [done|].
      subst tm. simpl in Htg. unfold l in Htg. lia.
  - intros tm Hin Hno.
    assert (tm ∈ timers (removeEvent i s)) as Hin' by (by apply Htm).
    destruct (decide (status s = paused)); simpl; [done|]. apply elem_of_app. by left.
Qed.

(** X18.  In a reachable scheduler the table is keyed by the ids of its
    events: the keys are distinct, the event stored under a key carries
    that key as its [id], and no object is stored under two keys. *)
Theorem table_keyed_by_id s :
  reachable s →
  NoDup (Map_keys (eventMap s)) ∧
  (∀ i, i ∈ Map_keys (eventMap s) → is_Some (getEvent i s)) ∧
  ∀ i l e, getEvent i s = Some (l, e) →
    Event.id e = i ∧ ∀ i' e', getEvent i' s = Some (l, e') → i' = i.
Proof.
  intros Hc%reachable_consistent. split; [apply Hc|]. split.
  - intros i ((i0 & l) & -> & Hin)%list_elem_of_fmap. simpl.
    destruct (stored_under_id _ _ Hc _ _ Hin) as (e & He & _).
    exists (l, e). apply getEvent_Some. split; [|done].
    by apply (Map_elem_of_get _ _ _ _ Hc).
  - intros i l e [Hl%Map_get_elem_of He]%getEvent_Some.
    destruct (stored_under_id _ _ Hc _ _ Hl) as (e0 & He0 & Hid). the_same e0 e.
    split; [done|]. intros i' e' [Hl'%Map_get_elem_of _]%getEvent_Some.
    by eapply (table_injective _ s).
Qed.

(** X19.  When the handler of a non-repeating event completes, [runEvent]
    removes whatever the table stores under the id of the event: if the id
    was given to another event while the handler was executing (by the
    handler itself, say), it is this newer event that is removed, and its
    pending timers are cancelled. *)
Theorem completion_removes_successor s l e l' e' now :
  reachable s → l ∈ awaiting s → heap s !! l = Some e → Event.autoRepeat e = false →
  getEvent (Event.id e) s = Some (l', e') → l' ≠ l →
  ∃ s', runEvent_resumed l now s = (Normal (), s') ∧
    getEvent (Event.id e) s' = None ∧ eventIsScheduled (Event.id e) s' = false ∧
    timers s' = filter (λ t, target t ≠ l') (timers s) ∧
    heap s' !! l' = Some e'.
Proof.
  intros Hc%reachable_consistent Hin He Hrep Hg Hne.
  pose proof (done_consistent l s Hc Hin) as Hc2.
  unfold runEvent_resumed.
  set (f := λ e, Event.set_jobId None (Event.set_status done e)) in *.
  set (s2 := update l f _) in *.
  assert (heap s2 !! l = Some (f e)) as Hd.
  { simpl. rewrite (alter_lookup_of _ _ _ _ _ He). by rewrite decide_True. }
  unfold deref. rewrite Hd. change (Event.autoRepeat (f e)) with (Event.autoRepeat e).
  rewrite Hrep. change (Event.id (f e)) with (Event.id e).
  assert (getEvent (Event.id e) s2 = Some (l', e')) as Hg2.
  { apply getEvent_Some in Hg as [Hl He']. apply getEvent_Some. split; [done|].
    simpl. rewrite (alter_lookup_of _ _ _ _ _ He'). by rewrite decide_False. }
  eexists. split; [done|]. split_and!.
  - apply getEvent_removeEvent.
  - unfold eventIsScheduled. by rewrite getEvent_removeEvent.
  - by rewrite (removeEvent_timers _ _ _ _ _ Hc2 Hg2).
  - rewrite removeEvent_heap. by apply getEvent_Some in Hg2 as [_ ?].
Qed.
End Replacing.

(** ** One pending timer per event *)

Lemma NoDup_fmap_filter {A B} (f : A → B) (P : A → Prop) `{!∀ x, Decision (P x)}
    (l : list A) :
  NoDup (f <$> l) → NoDup (f <$> filter P l).
Proof.
  induction l as [|a l IH]; [done|]. rewrite fmap_cons.
  intros [Ha Hnd]%NoDup_cons. destruct (decide (P a)).
  - rewrite filter_cons_True, fmap_cons by done. apply NoDup_cons. split; [|by apply IH].
    intros (y & Hy & [_ Hin]%list_elem_of_filter)%list_elem_of_fmap.
    apply Ha, list_elem_of_fmap. eauto.
  - rewrite filter_cons_False by done. by apply IH.
Qed.

Lemma NoDup_fmap_finer {A B C} (f : A → B) (g : A → C) (l : list A) :
  (∀ x y, x ∈ l → y ∈ l → g x = g y → f x = f y) →
  NoDup (f <$> l) → NoDup (g <$> l).
Proof.
  induction l as [|a l IH]; [intros _ _; apply NoDup_nil_2|]. rewrite !fmap_cons.
  intros Hfg [Ha Hnd]%NoDup_cons. apply NoDup_cons. split.
  - intros (y & Hy & Hin)%list_elem_of_fmap. apply Ha, list_elem_of_fmap.
    exists y. split; [|done]. apply Hfg; [left|by right|done].
  - apply IH; [|done]. intros x y Hx Hy. apply Hfg; by right.
Qed.

Lemma clearTimeout_fresh h s : timers_fresh s → timers_fresh (clearTimeout h s).
Proof.
  intros [Hnd Hlt]. split; simpl.
  - by apply NoDup_fmap_filter.
  - by intros t [_ Hin%Hlt]%list_elem_of_filter.
Qed.

Lemma removeEvent_fresh i s : timers_fresh s → timers_fresh (removeEvent i s).
Proof.
  intros Hf. unfold removeEvent. destruct (getEvent i s) as [[l e]|]; [|done].
  destruct (Event.jobId e); [|done]. by apply (clearTimeout_fresh _ s).
Qed.

Lemma scheduleEvent_fresh l delay s : timers_fresh s → timers_fresh (scheduleEvent l delay s).
Proof.
  intros Hf. destruct (heap s !! l) as [e|] eqn:He.
  2:{ unfold scheduleEvent, deref. by rewrite He. }
  rewrite (scheduleEvent_result _ _ _ _ He). cbv zeta.
  destruct (removeEvent_fresh (Event.id e) s Hf) as [Hnd Hlt].
  rewrite (proj1 (proj2 (proj2 (proj2 (removeEvent_frame (Event.id e) s))))) in Hlt.
  destruct (decide (status s = paused)); split; simpl; try done.
  - rewrite fmap_app. simpl. apply NoDup_app. split; [done|]. split; [|apply NoDup_singleton].
    intros h (t & Hh & Hin%Hlt)%list_elem_of_fmap Heq%list_elem_of_singleton. lia.
  - intros t [Hin%Hlt|Heq%list_elem_of_singleton]%elem_of_app; [lia|]. subst t. simpl. lia.
Qed.

Lemma addEvent_fresh i n p d r now s : timers_fresh s → timers_fresh (addEvent i n p d r now s).2.
Proof.
  intros Hf. unfold addEvent. destruct (callbackMap s !! n); [|done].
  simpl. by apply scheduleEvent_fresh.
Qed.

Lemma pauseEvent_fresh i now s : timers_fresh s → timers_fresh (pauseEvent i now s).
Proof.
  intros Hf. unfold pauseEvent. destruct (getEvent i s) as [[l e]|]; [|done].
  case_decide; [done|]. destruct (Event.jobId e); [|done].
  by apply (clearTimeout_fresh _ s).
Qed.

Lemma resumeEvent_fresh i now s : timers_fresh s → timers_fresh (resumeEvent i now s).
Proof.
  intros Hf. unfold resumeEvent. destruct (getEvent i s) as [[l e]|]; [|done].
  case_decide; [done|]. by apply scheduleEvent_fresh.
Qed.

Lemma runEvent_fresh l s : timers_fresh s → timers_fresh (runEvent l s).2.
Proof.
  intros Hf. unfold runEvent. destruct (deref l s) as [e|]; [|done].
  by destruct (callbackMap s !! Event.lookupName e).
Qed.

Lemma runEvent_resumed_fresh l now s :
  timers_fresh s → timers_fresh (runEvent_resumed l now s).2.
Proof.
  intros Hf. unfold runEvent_resumed. destruct (deref l _) as [e|]; [|done].
  destruct (Event.autoRepeat e).
  - pose proof (addEvent_fresh (Event.id e) (Event.lookupName e) (Event.params e)
                  (Event.duration e) true now
                  (update l (λ e, Event.set_jobId None (Event.set_status done e))
                     (set_awaiting (dropFirst l (awaiting s)) s)) Hf) as Hs.
    by destruct (addEvent _ _ _ _ _ _ _) as [[?|?|] ?].
  - simpl. by apply removeEvent_fresh.
Qed.

Lemma executeImmediately_fresh i s : timers_fresh s → timers_fresh (executeImmediately i s).2.
Proof.
  intros Hf. unfold executeImmediately. destruct (getEvent i s) as [[l e]|]; [|done].
  case_decide; [done|]. apply runEvent_fresh.
  destruct (Event.jobId e); [|done]. by apply (clearTimeout_fresh _ s).
Qed.

Lemma timerFires_fresh h s : timers_fresh s → timers_fresh (timerFires h s).2.
Proof.
  intros Hf. unfold timerFires. destruct (List.find _ _); [|done].
  by apply runEvent_fresh, clearTimeout_fresh.
Qed.

Lemma forEach_loadEvent_fresh js s : timers_fresh s → timers_fresh (forEach loadEvent js s).2.
Proof.
  revert s. induction js as [|j js IH]; simpl; [done|]. intros s Hf.
  assert (timers_fresh (loadEvent j s).2) as Hs.
  { unfold loadEvent. destruct (statusIsLoadable j); [|done].
    destruct (from_option _ _ _); [done|].
    destruct (asEvent j); [|done]. simpl. by apply scheduleEvent_fresh. }
  destruct (loadEvent j s) as [[[]|?|] s1]; simpl in *; auto.
Qed.

(** Two pending timers of one event are one timer. *)
Lemma same_target_same_timer s t1 t2 :
  consistent s → timers_fresh s → t1 ∈ timers s → t2 ∈ timers s →
  target t1 = target t2 → t1 = t2.
Proof.
  intros Hc [Hnd _] H1 H2 Heq.
  assert (handle t1 = handle t2) as Hh.
  { destruct (timers_held _ _ Hc _ H1) as (ex & Hex & Hjx & _).
    destruct (timers_held _ _ Hc _ H2) as (ey & Hey & Hjy & _).
    rewrite Heq in Hex. congruence. }
  apply list_elem_of_lookup_1 in H1 as (j1 & H1). apply list_elem_of_lookup_1 in H2 as (j2 & H2).
  assert (j1 = j2) as ->; [|congruence].
  apply (NoDup_lookup _ _ _ (handle t1) Hnd); rewrite list_lookup_fmap.
  - by rewrite H1.
  - by rewrite H2, Hh.
Qed.

Section OneTimer.
Context `{JSONCodec}.

Lemma after_fresh c s : timers_fresh s → timers_fresh (after c s).
Proof.
  intros Hf. unfold after. destruct c; simpl.
  - unfold registerCallback. by destruct (callbackMap s !! lookupName).
  - pose proof (addEvent_fresh i lookupName params duration autoRepeat now s Hf).
    by destruct (addEvent _ _ _ _ _ _ _) as [[?|?|] ?].
  - by apply removeEvent_fresh.
  - by apply pauseEvent_fresh.
  - by apply resumeEvent_fresh.
  - unfold pauseAll. apply forEachAt_preserves; [|done]. intros. by apply pauseEvent_fresh.
  - unfold removeAllByType.
    generalize (List.filter
      (λ i, match getEvent i s with
            | Some (_, e) => bool_decide (Event.lookupName e = type)
            | None => false
            end) (Map_keys (eventMap s))).
    intros ids. revert s Hf. induction ids as [|i ids IH]; simpl; [done|].
    intros s Hf. by apply IH, removeEvent_fresh.
  - apply resumeAll_preserves; [done|]. intros. by apply resumeEvent_fresh.
  - by apply executeImmediately_fresh.
  - unfold loadEvents. destruct (JSON_parse serializedData) as [[]|]; try done.
    by apply forEach_loadEvent_fresh.
  - by apply timerFires_fresh.
  - by apply runEvent_resumed_fresh.
  - done.
Qed.

Lemma reachable_fresh s : reachable s → timers_fresh s.
Proof.
  induction 1 as [|s c Hr IH Hp].
  - split; [apply NoDup_nil_2|]. by intros t ?%elem_of_nil.
  - by apply after_fresh.
Qed.

(** X20.  In a reachable scheduler no event has two pending timers and no
    handle is pending twice: every arming is preceded by the cancellation
    of the timer that the event held, so a handler is started at most once
    per arming. *)
Theorem one_timer_per_event s :
  reachable s →
  NoDup (handle <$> timers s) ∧ NoDup (target <$> timers s) ∧
  ∀ t1 t2, t1 ∈ timers s → t2 ∈ timers s → target t1 = target t2 → t1 = t2.
Proof.
  intros Hr. pose proof (reachable_consistent _ Hr) as Hc.
  pose proof (reachable_fresh _ Hr) as Hf.
  split; [apply Hf|]. split; [|intros t1 t2; by apply same_target_same_timer].
  apply (NoDup_fmap_finer handle); [|apply Hf].
  intros x y Hx Hy Heq. by rewrite (same_target_same_timer s x y Hc Hf Hx Hy Heq).
Qed.
End OneTimer.

(** ** A scheduled event has its timer *)

Lemma pending_paused s : consistent s → status s = paused → pending s.
Proof.
  intros Hc Hpa i l e h [Hl%Map_get_elem_of He]%getEvent_Some Hst.
  destruct (paused_quiet _ _ Hc Hpa) as (_ & _ & Hall).
  rewrite (Hall i l e) in Hst; done.
Qed.

(** The object at [l] stops being scheduled and its timers are cancelled;
    the table and the other objects are as before. *)
Lemma pending_unscheduled l s s' :
  pending s → eventMap s' = eventMap s →
  timers s' = filter (λ t, target t ≠ l) (timers s) →
  (∀ l', l' ≠ l → heap s' !! l' = heap s !! l') →
  (∀ e, heap s' !! l = Some e → Event.status e ≠ scheduled) →
  pending s'.
Proof.
  intros Hp Hm Hts Hh Hl k l' e h [Hk He]%getEvent_Some Hst Hj.
  destruct (decide (l' = l)) as [->|Hne]; [by destruct (Hl e)|].
  rewrite Hm in Hk. rewrite Hh in He by done.
  destruct (Hp k l' e h) as [d Hd]; [by apply getEvent_Some|done..|].
  exists d. rewrite Hts. by apply list_elem_of_filter.
Qed.

Lemma removeEvent_pending i s : consistent s → pending s → pending (removeEvent i s).
Proof.
  intros Hc Hp k l e h Hg Hst Hj.
  destruct (decide (k = i)) as [->|Hne]; [by rewrite getEvent_removeEvent in Hg|].
  rewrite getEvent_removeEvent_ne in Hg by done.
  destruct (Hp k l e h Hg Hst Hj) as [d Hd]. exists d.
  destruct (removeEvent_step i s Hc) as (_ & _ & _ & _ & Htm). apply Htm.
  split; [done|]. simpl. intros Hin. apply Hne.
  apply getEvent_Some in Hg as [Hk%Map_get_elem_of _]. by eapply (table_injective _ s).
Qed.

Lemma addEvent_pending i n p d r now s :
  consistent s → pending s → pending (addEvent i n p d r now s).2.
Proof.
  intros Hc Hp.
  destruct (decide (status s = paused)) as [Hpa|Hact].
  { apply pending_paused; [by apply addEvent_consistent|by rewrite addEvent_status]. }
  destruct (callbackMap s !! n) as [cb|] eqn:Hcb.
  2:{ unfold addEvent. by rewrite Hcb. }
  rewrite (addEvent_result _ _ _ _ _ _ _ _ Hc Hcb), decide_False by done. simpl.
  intros k l e h [Hk He]%getEvent_Some Hst Hj. simpl in Hk, He.
  destruct (decide (k = i)) as [->|Hne].
  - rewrite <- (Map_set_fresh _ _ _ (Map_delete_absent i (eventMap s))),
      Map_get_set_eq in Hk. injection Hk as <-.
    rewrite lookup_app_r, Nat.sub_diag in He by lia. injection He as <-.
    injection Hj as <-. exists d. simpl. apply elem_of_app. right. by left.
  - rewrite Map_get_snoc_ne, Map_get_delete_ne in Hk by done.
    pose proof (Map_get_elem_of _ _ _ Hk) as Hin.
    destruct (stored_under_id _ _ Hc _ _ Hin) as (e0 & He0 & _).
    rewrite (lookup_app_l_Some _ _ _ _ He0) in He. injection He as <-.
    destruct (Hp k l e0 h) as [d' Hd]; [by apply getEvent_Some|done..|].
    exists d'. simpl. apply elem_of_app. left.
    destruct (removeEvent_step i s Hc) as (_ & _ & _ & _ & Htm). apply Htm.
    split; [done|]. simpl. intros Hin'. apply Hne. by eapply (table_injective _ s).
Qed.

Lemma pauseEvent_pending i now s : consistent s → pending s → pending (pauseEvent i now s).
Proof.
  intros Hc Hp. destruct (getEvent i s) as [[l e]|] eqn:Hg.
  2:{ rewrite pauseEvent_skips; [done|]. intros l e. by rewrite Hg. }
  destruct (decide (pausable e)) as [[Hst [h Hj]]|Hno].
  2:{ rewrite pauseEvent_skips; [done|]. intros l0 e0. rewrite Hg. intros [= <- <-] Hst.
      destruct (Event.jobId e) eqn:Hj; [|done]. destruct Hno. split; [done|].
      by rewrite Hj. }
  rewrite (pauseEvent_armed_result _ i now s l e h Hc Hg Hst Hj).
  apply getEvent_Some in Hg as [Hl He]. pose proof (lookup_lt_Some _ _ _ He) as Hlt.
  apply (pending_unscheduled l s); try done; simpl.
  - intros l' Hne. by rewrite list_lookup_insert_ne.
  - intros e0. rewrite list_lookup_insert_eq by done. by intros [= <-].
Qed.

Lemma resumeEvent_pending i now s : consistent s → pending s → pending (resumeEvent i now s).
Proof.
  intros Hc Hp.
  destruct (decide (status s = paused)) as [Hpa|Hact].
  { apply pending_paused; [by apply resumeEvent_consistent|by rewrite resumeEvent_status]. }
  destruct (resumeEvent_step i now s Hc Hact) as (_ & _ & Hf & _ & Hkeep & _ & Hev).
  intros k l e h Hg Hst Hj.
  destruct (decide (k = i)) as [->|Hne].
  - destruct (getEvent i s) as [[l0 e0]|] eqn:Hg0.
    2:{ rewrite resumeEvent_skips in Hg; [congruence|]. intros l1 e1. by rewrite Hg0. }
    specialize (Hev l0 e0 eq_refl).
    destruct (decide (Event.status e0 = paused)) as [Hst0|Hst0].
    + destruct Hev as [Hg' Htm]. rewrite Hg' in Hg. injection Hg as <- <-.
      injection Hj as <-. eauto.
    + rewrite Hev in Hg |- *. by apply (Hp i l e h).
  - rewrite Hf in Hg by done. destruct (Hp k l e h Hg Hst Hj) as [d' Hd]. eauto.
Qed.

Lemma runEvent_started l s e cb :
  heap s !! l = Some e → callbackMap s !! Event.lookupName e = Some cb →
  runEvent l s
  = (Normal (), set_awaiting (awaiting s ++ [l]) (update l (Event.set_status running) s)).
Proof. intros He Hcb. unfold runEvent, deref. by rewrite He, Hcb. Qed.

Lemma runEvent_started_pending l s s0 e :
  pending s0 → heap s !! l = Some e → (runEvent l s).1 = Normal () →
  eventMap s = eventMap s0 → timers s = filter (λ t, target t ≠ l) (timers s0) →
  (∀ l', l' ≠ l → heap s !! l' = heap s0 !! l') →
  pending (runEvent l s).2.
Proof.
  intros Hp He Hn Hm Hts Hh. unfold runEvent, deref in *. rewrite He in *.
  destruct (callbackMap s !! Event.lookupName e); [|done].
  apply (pending_unscheduled l s0); try done; simpl.
  - intros l' Hne. rewrite list_lookup_alter_ne by done. by apply Hh.
  - intros e0. rewrite (alter_lookup_of _ _ _ _ _ He), decide_True by done.
    by intros [= <-].
Qed.

Lemma executeImmediately_pending i s :
  consistent s → (executeImmediately i s).1 = Normal () → pending s →
  pending (executeImmediately i s).2.
Proof.
  intros Hc Hn Hp. destruct (getEvent i s) as [[l e]|] eqn:Hg.
  2:{ rewrite executeImmediately_skips; [done|]. intros l e. by rewrite Hg. }
  destruct (decide (Event.status e = scheduled)) as [Hst|Hst].
  2:{ rewrite executeImmediately_skips; [done|]. intros l0 e0. rewrite Hg.
      by intros [= <- <-]. }
  rewrite (executeImmediately_result _ _ _ _ _ Hc Hg Hst) in Hn |- *.
  apply getEvent_Some in Hg as [Hl He]. pose proof (lookup_lt_Some _ _ _ He) as Hlt.
  eapply (runEvent_started_pending l _ s); try done; simpl.
  - by apply list_lookup_insert_eq.
  - intros l' Hne. by rewrite list_lookup_insert_ne.
Qed.

Lemma timerFires_pending h s :
  consistent s → (timerFires h s).1 = Normal () → pending s → pending (timerFires h s).2.
Proof.
  intros Hc Hn Hp. unfold timerFires in *.
  destruct (List.find _ (timers s)) as [t|] eqn:Hf; [|done].
  apply List.find_some in Hf as [Hin%list_elem_of_In Hh%bool_decide_eq_true].
  destruct (timers_held _ _ Hc _ Hin) as (e & He & Hj & _). rewrite Hh in Hj.
  eapply (runEvent_started_pending (target t) _ s); try done; simpl.
  by apply (clearTimeout_own _ _ _ _ _ Hc He Hj).
Qed.

Lemma runEvent_resumed_pending l now s :
  consistent s → l ∈ awaiting s → pending s → pending (runEvent_resumed l now s).2.
Proof.
  intros Hc Hin Hp. pose proof (done_consistent l s Hc Hin) as Hc2.
  unfold runEvent_resumed.
  set (f := λ e, Event.set_jobId None (Event.set_status done e)) in *.
  set (s2 := update l f _) in *.
  destruct (awaiting_running _ _ Hc _ Hin) as (e0 & He0 & Hst0 & _).
  assert (pending s2) as Hp2.
  { apply (pending_unscheduled l s); try done; simpl.
    - symmetry. apply filter_all. intros t Ht Htg.
      destruct (timers_held _ _ Hc _ Ht) as (e' & He' & _ & Hst' & _).
      rewrite Htg in He'. congruence.
    - intros l' Hne. by rewrite list_lookup_alter_ne.
    - intros e. rewrite (alter_lookup_of _ _ _ _ _ He0), decide_True by done.
      by intros [= <-]. }
  destruct (deref l s2) as [e|]; [|done].
  destruct (Event.autoRepeat e).
  - pose proof (addEvent_pending (Event.id e) (Event.lookupName e) (Event.params e)
                  (Event.duration e) true now _ Hc2 Hp2) as Hadd.
    by destruct (addEvent _ _ _ _ _ _ _) as [[?|?|] ?].
  - simpl. by apply removeEvent_pending.
Qed.

Lemma loadEvent_pending j s : consistent s → pending s → pending (loadEvent j s).2.
Proof.
  intros Hc Hp. unfold loadEvent. destruct (statusIsLoadable j); [|done].
    destruct (from_option _ _ _); [done|].
  destruct (asEvent j) as [e|] eqn:Has; [|done].
  change (pending (scheduleEvent (length (heap s)) (Some (Event.remainingTime e))
                     (alloc e s).2)).
  pose proof (load_step e s Hc) as Hstep. cbv zeta in Hstep.
  rewrite (set_jobId_None_id e (asEvent_jobId _ _ Has)) in Hstep.
  destruct Hstep as (_ & _ & Hg1 & Htm1 & Hf1 & Hk1).
  intros k l e' h Hg Hst Hj.
  destruct (decide (k = Event.id e)) as [->|Hne].
  - rewrite Hg1 in Hg. injection Hg as <- <-. unfold loaded in Hst, Hj. simpl in Hst, Hj.
    destruct (decide (status s = paused)); [done|]. injection Hj as <-. eauto.
  - rewrite Hf1 in Hg by done. destruct (Hp k l e' h Hg Hst Hj) as [d' Hd].
    exists d'. apply (Hk1 _ k); [done| |done].
    apply getEvent_Some in Hg as [Hk%Map_get_elem_of _]. done.
Qed.

Lemma forEach_loadEvent_pending js s :
  consistent s → pending s → pending (forEach loadEvent js s).2.
Proof.
  revert s. induction js as [|j js IH]; simpl; [done|]. intros s Hc Hp.
  pose proof (loadEvent_consistent j _ Hc) as Hc1.
  pose proof (loadEvent_pending j _ Hc Hp) as Hp1.
  destruct (loadEvent j s) as [[[]|?|] s1]; simpl in *; auto.
Qed.

Section Pending.
Context `{JSONCodec}.

Lemma after_pending c s :
  consistent s → possible c s = true →
  match c with
  | CallExecuteImmediately i => (executeImmediately i s).1 = Normal ()
  | TimerFires h => (timerFires h s).1 = Normal ()
  | _ => True
  end →
  pending s → pending (after c s).
Proof.
  intros Hc Hpo Hn Hp. unfold after. destruct c; simpl in *.
  - unfold registerCallback. by destruct (callbackMap s !! lookupName).
  - pose proof (addEvent_pending i lookupName params duration autoRepeat now _ Hc Hp).
    by destruct (addEvent _ _ _ _ _ _ _) as [[?|?|] ?].
  - by apply removeEvent_pending.
  - by apply pauseEvent_pending.
  - by apply resumeEvent_pending.
  - unfold pauseAll.
    apply (forEachAt_preserves (λ s, consistent s ∧ pending s)); [|done].
    intros k x t [? ?]. split; [by apply pauseEvent_consistent|by apply pauseEvent_pending].
  - unfold removeAllByType.
    generalize (List.filter
      (λ i, match getEvent i s with
            | Some (_, e) => bool_decide (Event.lookupName e = type)
            | None => false
            end) (Map_keys (eventMap s))).
    intros ids. revert s Hc Hpo Hp. induction ids as [|i ids IH]; simpl; [done|].
    intros s Hc Hpo Hp. apply IH; [by apply removeEvent_consistent|done|].
    by apply removeEvent_pending.
  - apply (resumeAll_preserves (λ s, consistent s ∧ pending s)).
    + split; [by apply set_status_running_consistent|]. exact Hp.
    + intros i t [? ?].
      split; [by apply resumeEvent_consistent|by apply resumeEvent_pending].
  - by apply executeImmediately_pending.
  - unfold loadEvents. destruct (JSON_parse serializedData) as [[]|]; try done.
    by apply forEach_loadEvent_pending.
  - by apply timerFires_pending.
  - apply bool_decide_eq_true in Hpo. by apply runEvent_resumed_pending.
  - done.
Qed.

Lemma runsCompleted_executes cs s : runsCompleted cs s → executesCompleted cs s.
Proof.
  revert s. induction cs as [|c cs IH]; simpl; [done|]. intros s [Hc Hcs].
  split; [by destruct c|by apply IH].
Qed.

Lemma run_pending cs s s' :
  reachable s → pending s → run cs s = Some s' → runsCompleted cs s → pending s'.
Proof.
  revert s. induction cs as [|c cs IH]; simpl; intros s Hr Hp.
  - by intros [= <-].
  - destruct (possible c s) eqn:Hpo; [|done]. intros Hrun [Hn Hrest].
    apply (IH (after c s)); [by apply reachable_step| |done..].
    apply after_pending; [by apply reachable_consistent|done..].
Qed.

(** X21.  No scheduled event is left without its timer.  In a scheduler
    reached by a run in which no [runEvent] was rejected for a missing
    handler, every event of the table whose status is scheduled holds a
    handle, the timer of that handle is pending for it, and it is the only
    pending timer of the event. *)
Theorem scheduled_event_has_timer cs s i l e :
  run cs constructor = Some s → runsCompleted cs constructor →
  getEvent i s = Some (l, e) → Event.status e = scheduled →
  ∃ h d, Event.jobId e = Some h ∧ mkTimer h l d ∈ timers s ∧
         ∀ t, t ∈ timers s → target t = l → t = mkTimer h l d.
Proof.
  intros Hrun Hcs Hg Hst.
  pose proof (run_reachable _ _ _ reachable_constructor Hrun) as Hr.
  pose proof (reachable_consistent _ Hr) as Hc.
  assert (armed constructor) as Ha0 by (by intros ? ? ? ?%elem_of_nil).
  pose proof (run_armed _ _ _ reachable_constructor Ha0 Hrun
                (runsCompleted_executes _ _ Hcs)) as Ha.
  assert (pending constructor) as Hp0 by (by intros ? ? ? ? ?).
  pose proof (run_pending _ _ _ reachable_constructor Hp0 Hrun Hcs) as Hp.
  pose proof Hg as [Hl%Map_get_elem_of He]%getEvent_Some.
  destruct (Ha i l e Hl He Hst) as [h Hj].
  destruct (Hp i l e h Hg Hst Hj) as [d Hd].
  exists h, d. split_and!; [done..|].
  intros t Ht Htg. by apply (same_target_same_timer s); [|apply reachable_fresh|..].
Qed.
End Pending.

(** ** The properties above on sample runs *)

Section Scenes.
#[local] Existing Instance JSONText.codec.
Import Examples Scenarios.

Lemma registered_handler_stays_witness :
  let s := the (run [CallRegisterCallback "ping" ping] constructor) in
  let cs := [CallResumeAll 0; CallAddEvent "e1" "ping" noParams 100 false 0;
             CallRemoveEvent "e1"] in
  let s' := the (run cs s) in
  let n := "ping" in
  let cb := ping in
  callbackMap s' !! n = Some cb ∧
  (∀ cb', registerCallback n cb' s'
          = (Throw (Error ("Callback for '" +:+ n +:+ "' already registered.")), s')) ∧
  (∀ i p d r now, (addEvent i n p d r now s').1 = Normal i).
Proof.
  intros s cs s' n cb. apply (registered_handler_stays cs s s' n cb).
  - vm_compute. reflexivity.
  - vm_compute. reflexivity.
Defined.

Lemma removeEvent_cancels_own_witness :
  let s := the (run two_types constructor) in
  let i := "b" in
  let l := 1%nat in
  let e := Event.mk "b" "pong" noParams scheduled 0 200 200 true (Some 1%nat) in
  let s' := removeEvent i s in
  getEvent i s' = None ∧ eventIsScheduled i s' = false ∧
  (∀ i', i' ≠ i → getEvent i' s' = getEvent i' s) ∧
  Map_keys (eventMap s') = filter (λ k, k ≠ i) (Map_keys (eventMap s)) ∧
  timers s' = filter (λ t, target t ≠ l) (timers s) ∧
  heap s' = heap s ∧ awaiting s' = awaiting s.
Proof.
  intros s i l e. apply (removeEvent_cancels_own s i l e).
  - apply (run_the two_types). vm_compute. reflexivity.
  - vm_compute. reflexivity.
Defined.

Lemma pause_resume_conserves_witness :
  let s := the (run one_armed constructor) in
  let i := "e1" in
  let l := 0%nat in
  let e := Event.mk "e1" "ping" noParams scheduled 0 100 100 false (Some 0%nat) in
  let t1 := 40 in
  let t2 := 70 in
  let left := Event.remainingTime e - (t1 - Event.addedAtTime e) in
  let s' := resumeEvent i t2 (pauseEvent i t1 s) in
  getEvent i s'
  = Some (l, Event.mk i (Event.lookupName e) (Event.params e) scheduled t2
               (if decide (left ≤ 0) then Event.duration e else left)
               (Event.duration e) (Event.autoRepeat e) (Some (nextTimeout s))) ∧
  timers s' = filter (λ t, target t ≠ l) (timers s) ++ [mkTimer (nextTimeout s) l left] ∧
  Map_keys (eventMap s') = filter (λ k, k ≠ i) (Map_keys (eventMap s)) ++ [i] ∧
  (∀ i', i' ≠ i → getEvent i' s' = getEvent i' s).
Proof.
  intros s i l e t1 t2. apply (pause_resume_conserves s i l e 0%nat t1 t2).
  - apply (run_the one_armed). vm_compute. reflexivity.
  - vm_compute. reflexivity.
  - reflexivity.
  - reflexivity.
Defined.

Lemma executeImmediately_starts_witness :
  let s := the (run one_armed constructor) in
  let i := "e1" in
  let l := 0%nat in
  let e := Event.mk "e1" "ping" noParams scheduled 0 100 100 false (Some 0%nat) in
  ∃ s', executeImmediately i s = (Normal (), s') ∧
    getEvent i s' = Some (l, Event.set_jobId None (Event.set_status running e)) ∧
    timers s' = filter (λ t, target t ≠ l) (timers s) ∧
    awaiting s' = awaiting s ++ [l] ∧
    eventMap s' = eventMap s ∧
    (∀ l', l' ≠ l → heap s' !! l' = heap s !! l') ∧
    executeImmediately i s' = (Normal (), s').
Proof.
  intros s i l e. apply (executeImmediately_starts s i l e ping).
  - apply (run_the one_armed). vm_compute. reflexivity.
  - vm_compute. reflexivity.
  - reflexivity.
  - vm_compute. reflexivity.
Defined.

Lemma executeImmediately_strands_witness :
  let s := the (run ghost_armed constructor) in
  let i := "g" in
  let l := 0%nat in
  let e := Event.mk "g" "ghost" noParams scheduled 0 100 100 false (Some 0%nat) in
  ∃ s', executeImmediately i s
        = (Throw (Error ("Callback for '" +:+ Event.lookupName e +:+ "' not found.")), s') ∧
    getEvent i s' = Some (l, Event.set_jobId None e) ∧
    eventIsScheduled i s' = true ∧
    timers s' = filter (λ t, target t ≠ l) (timers s) ∧
    (∀ t, t ∈ timers s' → target t ≠ l) ∧
    (∀ now, pauseEvent i now s' = s') ∧ (∀ now, resumeEvent i now s' = s').
Proof.
  intros s i l e. apply (executeImmediately_strands s i l e).
  - apply (run_the ghost_armed). vm_compute. reflexivity.
  - vm_compute. reflexivity.
  - reflexivity.
  - vm_compute. reflexivity.
Defined.

Lemma timerFires_effect_witness :
  let s := the (run two_types constructor) in
  let t := mkTimer 1%nat 1%nat 200 in
  ∃ e, getEvent (Event.id e) s = Some (target t, e) ∧ Event.status e = scheduled ∧
    Event.jobId e = Some (handle t) ∧
    let r := timerFires (handle t) s in
    timers r.2 = filter (λ t', target t' ≠ target t) (timers s) ∧
    eventMap r.2 = eventMap s ∧
    match callbackMap s !! Event.lookupName e with
    | Some _ =>
        r.1 = Normal () ∧ awaiting r.2 = awaiting s ++ [target t] ∧
        getEvent (Event.id e) r.2 = Some (target t, Event.set_status running e)
    | None =>
        r.1 = Throw (Error ("Callback for '" +:+ Event.lookupName e +:+ "' not found.")) ∧
        awaiting r.2 = awaiting s ∧ heap r.2 = heap s
    end.
Proof.
  intros s t. apply (timerFires_effect s t).
  - apply (run_the two_types). vm_compute. reflexivity.
  - apply list_elem_of_lookup_2 with 1%nat. vm_compute. reflexivity.
Defined.

Lemma eventIsScheduled_iff_stored_witness :
  let s := the (run two_types constructor) in
  eventIsScheduled "b" s = Map_has "b" (eventMap s).
Proof.
  intros s. apply (eventIsScheduled_iff_stored s "b").
  apply (run_the two_types). vm_compute. reflexivity.
Defined.

Lemma pauseAll_effect_witness :
  let s := the (run two_types constructor) in
  let clock := λ k, 50 + Z.of_nat k in
  let k := 1%nat in
  let i := "b" in
  let l := 1%nat in
  let e := Event.mk "b" "pong" noParams scheduled 0 200 200 true (Some 1%nat) in
  let s' := pauseAll clock s in
  timers s' = [] ∧ eventMap s' = eventMap s ∧ awaiting s' = awaiting s ∧
  getEvent i s' = Some (l, if decide (pausable e) then pausedAt (clock k) e else e).
Proof.
  intros s clock k i l e. apply (pauseAll_effect clock s k i l e).
  - apply (run_the two_types). vm_compute. reflexivity.
  - vm_compute. reflexivity.
  - vm_compute. reflexivity.
Defined.

Lemma pauseAll_resumeAll_conserves_witness :
  let clock1 := λ k, 50 + Z.of_nat k in
  let t := the (run (resumed_after_pause clock1) constructor) in
  let r := resumeAll_resumed ["b"; "c"; "d"] 501 t in
  r.2 = Some ["c"; "d"] ∧ status r.1 = running ∧
  getEvent "b" r.1
  = Some (1%nat, Event.mk "b" "pong" noParams scheduled 501 149 200 true
                   (Some (nextTimeout t))) ∧
  mkTimer (nextTimeout t) 1%nat 149 ∈ timers r.1.
Proof.
  intros clock1 t r.
  destruct (pauseAll_resumeAll_conserves clock1 (the (run two_types constructor))
              1%nat "b" 1%nat
              (Event.mk "b" "pong" noParams scheduled 0 200 200 true (Some 1%nat))
              t ["c"; "d"] 501) as [Hpass _].
  - apply (run_the two_types). vm_compute. reflexivity.
  - vm_compute. reflexivity.
  - vm_compute. reflexivity.
  - split; [reflexivity|]. by eexists.
  - apply (run_the (resumed_after_pause clock1)). vm_compute. reflexivity.
  - vm_compute. reflexivity.
  - apply Hpass. vm_compute. reflexivity.
Defined.

Lemma rejected_handler_blocks_idle_witness :
  let s := the (run handler_running constructor) in
  let l := 0%nat in
  let e := Event.mk "e1" "ping" noParams running 0 100 100 false (Some 0%nat) in
  let clock := at_ 50 in
  let s1 := runEvent_rejected l s in
  getEvent (Event.id e) s1 = Some (l, e) ∧ Event.status e = running ∧
  (l ∉ awaiting s1) ∧
  (∀ now, pauseEvent (Event.id e) now s1 = s1) ∧
  (∀ now, resumeEvent (Event.id e) now s1 = s1) ∧
  executeImmediately (Event.id e) s1 = (Normal (), s1) ∧
  someRunning s1 = true ∧ someRunning (pauseAll clock s1) = true.
Proof.
  intros s l e clock. apply (rejected_handler_blocks_idle s l e clock).
  - apply (run_the handler_running). vm_compute. reflexivity.
  - apply list_elem_of_lookup_2 with 0%nat. vm_compute. reflexivity.
  - vm_compute. reflexivity.
Defined.

Lemma removeAllByType_effect_witness :
  let s := the (run two_types constructor) in
  let ty := "ping" in
  let s' := removeAllByType ty s in
  (∀ i l e, getEvent i s' = Some (l, e) ↔
            getEvent i s = Some (l, e) ∧ Event.lookupName e ≠ ty) ∧
  (∀ tm, tm ∈ timers s' ↔
         tm ∈ timers s ∧ ∃ e, heap s !! target tm = Some e ∧ Event.lookupName e ≠ ty) ∧
  eventMap s' `sublist_of` eventMap s ∧
  heap s' = heap s ∧ awaiting s' = awaiting s.
Proof.
  intros s ty. apply (removeAllByType_effect ty s).
  apply (run_the two_types). vm_compute. reflexivity.
Defined.

Lemma quiet_until_resumeAll_witness :
  let s := the (run not_resumed constructor) in
  status s = paused ∧ timers s = [] ∧ awaiting s = [] ∧
  ∀ i l e, getEvent i s = Some (l, e) →
    Event.status e = paused ∧ Event.jobId e = None ∧
    (∀ now, timers (resumeEvent i now s) = []) ∧
    executeImmediately i s = (Normal (), s).
Proof.
  intros s. apply (quiet_until_resumeAll not_resumed s).
  - vm_compute. reflexivity.
  - repeat constructor.
Defined.

Lemma resumeEvent_while_paused_witness :
  let s := the (run not_resumed constructor) in
  let i := "g" in
  let l := 1%nat in
  let e := Event.mk "g" "ghost" noParams paused 0 100 100 false None in
  let now := 9 in
  let s' := resumeEvent i now s in
  getEvent i s'
  = Some (l, Event.mk i (Event.lookupName e) (Event.params e) paused now (rearmed e)
               (Event.duration e) (Event.autoRepeat e) None) ∧
  timers s' = [] ∧
  Map_keys (eventMap s') = filter (λ k, k ≠ i) (Map_keys (eventMap s)) ++ [i] ∧
  (∀ i', i' ≠ i → getEvent i' s' = getEvent i' s).
Proof.
  intros s i l e now. apply (resumeEvent_while_paused s i l e now).
  - apply (run_the not_resumed). vm_compute. reflexivity.
  - reflexivity.
  - vm_compute. reflexivity.
Defined.

Lemma addEvent_replaces_witness :
  let s := the (run one_armed constructor) in
  let i := "e1" in
  let n := "ping" in
  let p := noParams in
  let d := 50 in
  let r := true in
  let now := 20 in
  ∃ s' e, addEvent i n p d r now s = (Normal i, s') ∧
    getEvent i s' = Some (length (heap s), e) ∧
    Map_keys (eventMap s') = filter (λ k, k ≠ i) (Map_keys (eventMap s)) ++ [i] ∧
    (∀ i', i' ≠ i → getEvent i' s' = getEvent i' s) ∧
    (∀ l0 e0, getEvent i s = Some (l0, e0) →
       heap s' !! l0 = Some e0 ∧ ∀ tm, tm ∈ timers s' → target tm ≠ l0) ∧
    (∀ tm, tm ∈ timers s → (i, target tm) ∉ eventMap s → tm ∈ timers s').
Proof.
  intros s i n p d r now. apply (addEvent_replaces i n p d r now s ping).
  - apply (run_the one_armed). vm_compute. reflexivity.
  - vm_compute. reflexivity.
Defined.

Lemma table_keyed_by_id_witness :
  let s := the (run two_types constructor) in
  NoDup (Map_keys (eventMap s)) ∧
  (∀ i, i ∈ Map_keys (eventMap s) → is_Some (getEvent i s)) ∧
  ∀ i l e, getEvent i s = Some (l, e) →
    Event.id e = i ∧ ∀ i' e', getEvent i' s = Some (l, e') → i' = i.
Proof.
  intros s. apply (table_keyed_by_id s).
  apply (run_the two_types). vm_compute. reflexivity.
Defined.

Lemma completion_removes_successor_witness :
  let s := the (run readded_running constructor) in
  let l := 0%nat in
  let e := Event.mk "e1" "ping" noParams running 0 100 100 false (Some 0%nat) in
  let l' := 1%nat in
  let e' := Event.mk "e1" "ping" noParams scheduled 30 100 100 false (Some 1%nat) in
  let now := 60 in
  ∃ s', runEvent_resumed l now s = (Normal (), s') ∧
    getEvent (Event.id e) s' = None ∧ eventIsScheduled (Event.id e) s' = false ∧
    timers s' = filter (λ t, target t ≠ l') (timers s) ∧
    heap s' !! l' = Some e'.
Proof.
  intros s l e l' e' now. apply (completion_removes_successor s l e l' e' now).
  - apply (run_the readded_running). vm_compute. reflexivity.
  - apply list_elem_of_lookup_2 with 0%nat. vm_compute. reflexivity.
  - vm_compute. reflexivity.
  - reflexivity.
  - vm_compute. reflexivity.
  - discriminate.
Defined.

Lemma one_timer_per_event_witness :
  let s := the (run two_types constructor) in
  NoDup (handle <$> timers s) ∧ NoDup (target <$> timers s) ∧
  ∀ t1 t2, t1 ∈ timers s → t2 ∈ timers s → target t1 = target t2 → t1 = t2.
Proof.
  intros s. apply (one_timer_per_event s).
  apply (run_the two_types). vm_compute. reflexivity.
Defined.
Lemma pauseAll_loop_unschedules_witness :
  let cs := repeating_running ++ [CallAddEvent "e1" "ping" noParams 100 false 10] in
  let clock := at_ 50 in
  let s := the (run cs constructor) in
  timers (pauseAll clock s) = [] ∧
  ∀ i l e, getEvent i (pauseAll clock s) = Some (l, e) →
    (Event.status e = paused ∧ Event.jobId e = None) ∨
    (Event.status e = running ∧ getEvent i s = Some (l, e)).
Proof.
  intros cs clock s. apply (pauseAll_loop_unschedules cs clock s).
  - vm_compute. reflexivity.
  - simpl. tauto.
Defined.

(** While [pauseAll] waits in [waitForIdle] for the handler of the
    auto-repeating [e2], the handler completes: [runEvent] adds [e2] again,
    scheduled and armed, and [pauseAll] returns with no event running. *)
Lemma pauseAll_wait_rearms :
  let s := the (run repeating_running constructor) in
  let s1 := pauseAll (at_ 50) s in
  ∃ s2 l e, someRunning s1 = true ∧
    runEvent_resumed 0%nat 60 s1 = (Normal (), s2) ∧ someRunning s2 = false ∧
    getEvent "e2" s2 = Some (l, e) ∧ Event.status e = scheduled ∧
    timers s2 = [mkTimer 1%nat l 100].
Proof.
  intros s s1. eexists _, _, _. split; [vm_compute; reflexivity|].
  split; [vm_compute; reflexivity|]. split; [vm_compute; reflexivity|].
  split; [vm_compute; reflexivity|]. split; [reflexivity|]. vm_compute. reflexivity.
Qed.

Lemma scheduled_event_has_timer_witness :
  let cs := two_types ++ [TimerFires 0%nat; CallPauseEvent "c" 20] in
  let s := the (run cs constructor) in
  let i := "b" in
  let l := 1%nat in
  let e := Event.mk "b" "pong" noParams scheduled 0 200 200 true (Some 1%nat) in
  ∃ h d, Event.jobId e = Some h ∧ mkTimer h l d ∈ timers s ∧
         ∀ t, t ∈ timers s → target t = l → t = mkTimer h l d.
Proof.
  intros cs s i l e. apply (scheduled_event_has_timer cs s i l e).
  - vm_compute. reflexivity.
  - vm_compute. tauto.
  - vm_compute. reflexivity.
  - reflexivity.
Defined.
End Scenes.
